(** * Rule Guardian (src/ruleGuardian.js): detection-and-decision pipeline

    A shallow embedding of the configuration, the message classifier, the
    cooldown tracker, the daily metrics and the orchestration of
    [ruleGuardian.js], with the properties the specification states about
    them and further properties of the code.

    - JavaScript strings are sequences of UTF-16 code units: [list N].
    - Regular expressions are a small abstract syntax with the backtracking
      matcher of ECMA-262 (section 22.2.2), for the constructs the program
      uses.  The case tables of the runtime are a parameter ([UnicodeCase]).
    - The environment ([process.env]) is a finite map from the names of
      the variables that are set to their values; the cooldown, which the
      runtime computes in double arithmetic, enters [buildConfig] as a
      parameter.
    - The session state is passed explicitly.  What the program reads from
      the clock ([Date.now()], [getUtcDay()]) is an input of the function
      that reads it; what the platform answers to the outward calls is a
      record ([World]), and the calls made are recorded as a trace.

    The file has three parts: the program, the vocabulary of the
    properties, and the properties with their proofs. *)

From Stdlib Require Import Ascii String.
From stdpp Require Import base numbers option list gmap strings pretty sorting.

Local Open Scope N_scope.

(** ** JavaScript strings *)

Abbreviation jsstring := (list N) (only parsing).

(** A string literal of the source, as code units (ASCII literals only). *)
Definition js (s : string) : jsstring :=
  (λ a, N_of_ascii a) <$> list_ascii_of_string s.
Global Arguments js : simpl never.

Definition POUND : N := 163.   (* U+00A3 *)
Definition EURO : N := 8364.   (* U+20AC *)
Definition DOLLAR : N := 36.

Definition inRange (lo hi c : N) : bool := (lo <=? c) && (c <=? hi).

Definition isDigit (c : N) : bool := inRange 48 57 c.

(** ECMA-262 IsWordChar without the [u] flag: [A-Za-z0-9_]. *)
Definition isWordChar (c : N) : bool :=
  inRange 97 122 c || inRange 65 90 c || isDigit c || (c =? 95).

Definition asciiUpper (c : N) : N := if inRange 97 122 c then c - 32 else c.
Definition asciiLower (c : N) : N := if inRange 65 90 c then c + 32 else c.

(** WhiteSpace and LineTerminator code points: what [\s] matches. *)
Definition nonAsciiWhiteSpace : list N :=
  [160; 5760; 8192; 8193; 8194; 8195; 8196; 8197; 8198; 8199; 8200; 8201;
   8202; 8232; 8233; 8239; 8287; 12288; 65279].
Definition whiteSpaceUnits : list N :=
  [9; 10; 11; 12; 13; 32] ++ nonAsciiWhiteSpace.
Definition digitUnits : list N := [48; 49; 50; 51; 52; 53; 54; 55; 56; 57].
Definition currencyUnits : list N := [DOLLAR; POUND; EURO].

(** Code units whose case mapping this development relies on: all of ASCII,
    the two non-ASCII currency symbols and the non-ASCII white space. *)
Definition simpleUnit (c : N) : bool :=
  (c <? 128) || bool_decide (c ∈ POUND :: EURO :: nonAsciiWhiteSpace).

(** The Unicode case conversions of the JavaScript runtime
    ([String.prototype.toUpperCase] and [toLowerCase]) are not part of the
    repository: they are a parameter.  Only their behaviour on ASCII and on
    the caseless symbols above is fixed. *)
Class UnicodeCase := {
  toUpperCase : jsstring → jsstring;
  toLowerCase : jsstring → jsstring;
  toUpperCase_simple c :
    simpleUnit c = true → toUpperCase [c] = [asciiUpper c];
  toUpperCase_simple_inv c d :
    toUpperCase [c] = [d] → 128 ≤ d → simpleUnit d = true → c = d;
  toLowerCase_simple s :
    forallb simpleUnit s = true → toLowerCase s = asciiLower <$> s;
}.

(** ** Regular expressions *)

(** The fragment of the pattern language the program uses.  A quantifier is
    applied to a character class only ([\d+], [\d{1,2}]) or is the optional
    [?] around an atom or group. *)
Inductive regex : Type :=
  | REmpty
  | RChar (c : N)
  | RClass (members : list N)
  | RWordBoundary
  | RSeq (r1 r2 : regex)
  | ROpt (r : regex)
  | RRepeat (members : list N) (min : nat) (max : option nat).

Record RegExp := {
  pattern : regex;
  ignoreCase : bool;
  global : bool;
}.

(** Continuations receive the code unit before the current position (for
    [\b]) and the rest of the input; they return the input left after the
    whole match. *)
Abbreviation Cont := (option N → jsstring → option jsstring) (only parsing).

Definition isWordCharAt (o : option N) : bool := from_option isWordChar false o.

Definition atWordBoundary (prev : option N) (s : jsstring) : bool :=
  xorb (isWordCharAt prev) (isWordCharAt (head s)).

Section Matcher.
Context `{UnicodeCase}.
Variable ic : bool.

(** ECMA-262 Canonicalize, without the [u] flag. *)
Definition Canonicalize (ch : N) : N :=
  if negb ic then ch else
  match toUpperCase [ch] with
  | [cu] => if (128 <=? ch) && (cu <? 128) then ch else cu
  | _ => ch
  end.

Definition unitMatches (a x : N) : bool := Canonicalize a =? Canonicalize x.

(** CharacterSetMatcher: some member has the canonical form of [x]. *)
Definition classMatches (members : list N) (x : N) : bool :=
  existsb (λ a, unitMatches a x) members.

Definition maxAllows (max : option nat) : bool :=
  match max with Some O => false | _ => true end.

(** RepeatMatcher, greedy, over a character class. *)
Fixpoint repeatMatcher (members : list N) (min : nat) (max : option nat)
    (prev : option N) (s : jsstring) (k : Cont) {struct s} : option jsstring :=
  let stop := match min with O => k prev s | S _ => None end in
  match s with
  | x :: s' =>
      if classMatches members x && maxAllows max then
        match repeatMatcher members (pred min) (pred <$> max) (Some x) s' k with
        | Some r => Some r
        | None => stop
        end
      else stop
  | [] => stop
  end.

Fixpoint matcher (r : regex) (prev : option N) (s : jsstring) (k : Cont)
    {struct r} : option jsstring :=
  match r with
  | REmpty => k prev s
  | RChar c =>
      match s with
      | x :: s' => if unitMatches c x then k (Some x) s' else None
      | [] => None
      end
  | RClass members =>
      match s with
      | x :: s' => if classMatches members x then k (Some x) s' else None
      | [] => None
      end
  | RWordBoundary => if atWordBoundary prev s then k prev s else None
  | RSeq r1 r2 => matcher r1 prev s (λ p s', matcher r2 p s' k)
  | ROpt r1 =>
      match matcher r1 prev s k with
      | Some rest => Some rest
      | None => k prev s
      end
  | RRepeat members min max => repeatMatcher members min max prev s k
  end.

Definition matchHere (r : regex) (prev : option N) (s : jsstring) : option jsstring :=
  matcher r prev s (λ _ rest, Some rest).

(** RegExpBuiltinExec from the current position: the leftmost position
    at which the pattern matches; the result is the input from the start
    of the match and the input left after it. *)
Fixpoint execFrom (r : regex) (prev : option N) (s : jsstring)
    : option (jsstring * jsstring) :=
  match matchHere r prev s with
  | Some rest => Some (s, rest)
  | None =>
      match s with
      | [] => None
      | x :: s' => execFrom r (Some x) s'
      end
  end.

Definition matchedText (from rest : jsstring) : jsstring :=
  take (length from - length rest)%nat from.

(** The loop of [String.prototype.match] for a global pattern. *)
Fixpoint matchAllFuel (fuel : nat) (r : regex) (prev : option N) (s : jsstring)
    : list jsstring :=
  match fuel with
  | O => []
  | S fuel' =>
      match execFrom r prev s with
      | None => []
      | Some (from, rest) =>
          match matchedText from rest with
          | [] =>
              (* an empty match: lastIndex advances by one code unit *)
              [] :: match rest with
                    | [] => []
                    | x :: rest' => matchAllFuel fuel' r (Some x) rest'
                    end
          | m => m :: matchAllFuel fuel' r (last m) rest
          end
      end
  end.
End Matcher.

(** [regex.test(content)] for a pattern without the [g] flag. *)
Definition RegExp_test `{UnicodeCase} (re : RegExp) (content : jsstring) : bool :=
  bool_decide (is_Some (execFrom (ignoreCase re) (pattern re) None content)).

(** [content.match(re) || []] for a pattern with the [g] flag. *)
Definition String_matchAll `{UnicodeCase} (re : RegExp) (content : jsstring) : list jsstring :=
  matchAllFuel (ignoreCase re) (S (length content)) (pattern re) None content.

(** A runtime whose case conversions act on ASCII letters only: the class
    is inhabited, and closed examples are evaluated with it. *)
Definition asciiCase : UnicodeCase.
Proof.
  refine {| toUpperCase s := asciiUpper <$> s;
            toLowerCase s := asciiLower <$> s |}.
  - reflexivity.
  - intros c d [= Heq] Hd _.
    unfold asciiUpper, inRange in Heq.
    destruct (_ && _) eqn:E; [|done].
    apply andb_true_iff in E as [E1 E2].
    apply N.leb_le in E1, E2. lia.
  - reflexivity.
Defined.

(** ** Rule compilation *)

(** The characters of the class [[.*+?^${}()|[\]\\]] of [escapeRegex]; they
    are exactly the SyntaxCharacters of the pattern grammar. *)
Definition syntaxChars : list N :=
  [46; 42; 43; 63; 94; 36; 123; 125; 40; 41; 124; 91; 93; 92].

Definition isSyntaxChar (c : N) : bool := bool_decide (c ∈ syntaxChars).

Definition BACKSLASH : N := 92.

(** [value.replace(/[.*+?^${}()|[\]\\]/g, '\\$&')] *)
Fixpoint escapeRegex (value : jsstring) : jsstring :=
  match value with
  | [] => []
  | c :: rest =>
      if isSyntaxChar c then BACKSLASH :: c :: escapeRegex rest
      else c :: escapeRegex rest
  end.

(** The pattern parser of [new RegExp(source, flags)], for the sources
    this program builds: pattern characters, [\b], and a backslash before
    a syntax character.  [None] is a source outside this fragment. *)
Fixpoint parsePattern (source : jsstring) : option regex :=
  match source with
  | [] => Some REmpty
  | c :: rest =>
      if c =? BACKSLASH then
        match rest with
        | [] => None
        | e :: rest' =>
            if e =? 98 then RSeq RWordBoundary <$> parsePattern rest'
            else if isSyntaxChar e then RSeq (RChar e) <$> parsePattern rest'
            else None
        end
      else if isSyntaxChar c then None
      else RSeq (RChar c) <$> parsePattern rest
  end.

Definition RegExp_new (source : jsstring) (ignoreCaseFlag globalFlag : bool)
    : option RegExp :=
  r ← parsePattern source;
  Some {| pattern := r; ignoreCase := ignoreCaseFlag; global := globalFlag |}.

Record Config := {
  enabled : bool;
  guildId : jsstring;
  ruleChannelIds : gset (list N);
  ruleChannelNames : gset (list N);
  modLogChannelId : jsstring;
  modLogChannelName : jsstring;
  restrictedTerms : list jsstring;
  exceptionPatterns : list jsstring;
  enablePricePattern : bool;
  priceKeywords : list jsstring;
  warningCooldownMs : Z;
  logMatchedTerms : bool;
  rulesUrl : jsstring;
}.

Record TermCheck := { term : jsstring; termRegex : RegExp }.
Record ExceptionCheck := { exceptionPattern : jsstring; exceptionRegex : RegExp }.
Record KeywordCheck := { keyword : jsstring; keywordRegex : RegExp }.

Record Detectors := {
  restrictedTermChecks : list TermCheck;
  exceptionChecks : list ExceptionCheck;
  priceKeywordChecks : list KeywordCheck;
}.

(** The source text [`\\b${escapeRegex(term)}\\b`]. *)
Definition wordBoundedSource (word : jsstring) : jsstring :=
  [BACKSLASH; 98] ++ escapeRegex word ++ [BACKSLASH; 98].

Definition buildDetectors (config : Config) : option Detectors :=
  terms ← mapM (λ t, re ← RegExp_new (wordBoundedSource t) true false;
                      Some {| term := t; termRegex := re |})
               (restrictedTerms config);
  exceptions ← mapM (λ p, re ← RegExp_new (escapeRegex p) true false;
                           Some {| exceptionPattern := p; exceptionRegex := re |})
                    (exceptionPatterns config);
  keywords ← mapM (λ w, re ← RegExp_new (wordBoundedSource w) true false;
                         Some {| keyword := w; keywordRegex := re |})
                  (priceKeywords config);
  Some {| restrictedTermChecks := terms;
          exceptionChecks := exceptions;
          priceKeywordChecks := keywords |}.

(** ** Classifier *)

(** [/[$£€]\s?\d+(?:[.,]\d{1,2})?/gi] *)
Definition symbolAmountRegExp : RegExp :=
  {| pattern :=
       RSeq (RClass currencyUnits)
         (RSeq (ROpt (RClass whiteSpaceUnits))
            (RSeq (RRepeat digitUnits 1 None)
               (ROpt (RSeq (RClass [46; 44]) (RRepeat digitUnits 1 (Some 2%nat))))));
     ignoreCase := true;
     global := true |}.

(** [/[$£€]/g] *)
Definition rawSymbolRegExp : RegExp :=
  {| pattern := RClass currencyUnits; ignoreCase := false; global := true |}.

(** A JavaScript [Set] of strings keeps its elements in insertion order. *)
Definition Set_add (s : list jsstring) (x : jsstring) : list jsstring :=
  if bool_decide (x ∈ s) then s else s ++ [x].

(** [[...new Set(values)]] *)
Definition Set_of (values : list jsstring) : list jsstring :=
  foldl Set_add [] values.

Definition WORD_MATCH : jsstring := js "word match".
Definition PRICE_PATTERN : jsstring := js "price pattern".

Record Detection := {
  triggered : bool;
  matchedTerms : list jsstring;
  matchedPriceSignals : list jsstring;
  triggerTypes : list jsstring;
}.

(** [values.length > 0] *)
Definition nonEmpty {A} (l : list A) : bool :=
  match l with [] => false | _ :: _ => true end.

Definition detectContent `{UnicodeCase} (content : jsstring)
    (detectors : Detectors) (config : Config) : Detection :=
  let matchedTerms :=
    term <$> List.filter (λ termCheck, RegExp_test (termRegex termCheck) content)
               (restrictedTermChecks detectors) in
  let matchedPriceSignals :=
    if enablePricePattern config then
      let symbolAmountMatches := String_matchAll symbolAmountRegExp content in
      let rawSymbolMatches := String_matchAll rawSymbolRegExp content in
      symbolAmountMatches ++ rawSymbolMatches ++
      (keyword <$> List.filter (λ keywordCheck, RegExp_test (keywordRegex keywordCheck) content)
                     (priceKeywordChecks detectors))
    else [] in
  let exceptionMatches :=
    exceptionPattern <$>
      List.filter (λ exceptionCheck, RegExp_test (exceptionRegex exceptionCheck) content)
        (exceptionChecks detectors) in
  if nonEmpty exceptionMatches then
    {| triggered := false; matchedTerms := [];
       matchedPriceSignals := []; triggerTypes := [] |}
  else
    let uniqueTerms := Set_of matchedTerms in
    let uniquePriceSignals := Set_of matchedPriceSignals in
    let triggerTypes :=
      (if nonEmpty uniqueTerms then [WORD_MATCH] else []) ++
      (if nonEmpty uniquePriceSignals then [PRICE_PATTERN] else []) in
    {| triggered := nonEmpty triggerTypes;
       matchedTerms := uniqueTerms;
       matchedPriceSignals := uniquePriceSignals;
       triggerTypes := triggerTypes |}.

(** The defaults of the source. *)
Definition DEFAULT_RESTRICTED_TERMS : list jsstring := [js "sell"].
Definition DEFAULT_PRICE_KEYWORDS : list jsstring := [js "usd"; js "shipped"].
Definition DEFAULT_RULE_CHANNEL_NAMES : list jsstring := [js "chatter"].
Definition DEFAULT_MOD_LOG_CHANNEL_NAME : jsstring := js "mod-log".
Definition DEFAULT_COOLDOWN_SECONDS : Z := 0.

Definition normalizeSet `{UnicodeCase} (values : list jsstring) : gset (list N) :=
  list_to_set (toLowerCase <$> values).

(** The configuration [buildConfig] returns when no [RG_*] variable is set:
    every [parseCsvList(undefined)] is empty, so the defaults apply;
    [parseBoolean(undefined, true)] is [true]; [Number(undefined)] is NaN, so
    the cooldown is [DEFAULT_COOLDOWN_SECONDS * 1000]. *)
Definition defaultConfig `{UnicodeCase} : Config :=
  {| enabled := true;
     guildId := [];
     ruleChannelIds := ∅;
     ruleChannelNames := normalizeSet DEFAULT_RULE_CHANNEL_NAMES;
     modLogChannelId := [];
     modLogChannelName := toLowerCase DEFAULT_MOD_LOG_CHANNEL_NAME;
     restrictedTerms := DEFAULT_RESTRICTED_TERMS;
     exceptionPatterns := [];
     enablePricePattern := true;
     priceKeywords := DEFAULT_PRICE_KEYWORDS;
     warningCooldownMs := (DEFAULT_COOLDOWN_SECONDS * 1000)%Z;
     logMatchedTerms := true;
     rulesUrl := [] |}.

(** ** Session state *)

(** A JavaScript [Map] from strings to counts that is iterated over
    ([topEntries]): an association list in insertion order. *)
Abbreviation CountMap := (list (list N * N)) (only parsing).

Fixpoint Map_get (map : CountMap) (key : jsstring) : option N :=
  match map with
  | [] => None
  | (k, v) :: rest => if bool_decide (k = key) then Some v else Map_get rest key
  end.

Fixpoint Map_set (map : CountMap) (key : jsstring) (value : N) : CountMap :=
  match map with
  | [] => [(key, value)]
  | (k, v) :: rest =>
      if bool_decide (k = key) then (k, value) :: rest
      else (k, v) :: Map_set rest key value
  end.

(** [map.set(key, (map.get(key) || 0) + delta)] *)
Definition bumpCount (map : CountMap) (key : jsstring) (delta : N) : CountMap :=
  Map_set map key (default 0 (Map_get map key) + delta).

Record Metrics := {
  day : jsstring;
  triggersToday : N;
  byChannel : list (list N * N);
  byRule : list (list N * N);
}.

Record State := {
  cooldowns : gmap (list N) Z;
  modLogChannelIds : gmap (list N) (list N);
  metrics : Metrics;
}.

(** The state [startRuleGuardian] creates, on the UTC day [today]. *)
Definition initialState (today : jsstring) : State :=
  {| cooldowns := ∅;
     modLogChannelIds := ∅;
     metrics := {| day := today; triggersToday := 0; byChannel := []; byRule := [] |} |}.

Inductive ChannelType := GuildText | OtherChannelType.

Definition isGuildText (t : ChannelType) : bool :=
  match t with GuildText => true | OtherChannelType => false end.

Record MessageChannel := {
  channelType : ChannelType;
  channelName : option jsstring;
}.

Record Message := {
  inGuild : bool;
  messageGuildId : jsstring;
  channel : option MessageChannel;
  channelId : jsstring;
  authorId : jsstring;
  authorTag : jsstring;
  authorBot : bool;
  content : option jsstring;
  createdTimestamp : Z;
  url : jsstring;
}.

(** ** Eligibility *)

Definition isStandardTextChannel (message : Message) : bool :=
  from_option (λ c, isGuildText (channelType c)) false (channel message).

Definition isTruthy (s : jsstring) : bool := nonEmpty s.

Definition shouldProcessMessage `{UnicodeCase} (message : Message) (config : Config) : bool :=
  if negb (inGuild message) then false
  else if negb (isStandardTextChannel message) then false
  else if isTruthy (guildId config)
          && negb (bool_decide (messageGuildId message = guildId config)) then false
  else if authorBot message then false
  else if (0 <? size (ruleChannelIds config))%nat then
    bool_decide (channelId message ∈ ruleChannelIds config)
  else
    bool_decide
      (toLowerCase (default [] (channel message ≫= channelName)) ∈ ruleChannelNames config).

(** ** Cooldown tracker *)

(** [`${message.author.id}:${message.channelId}`] *)
Definition cooldownKey (message : Message) : jsstring :=
  authorId message ++ js ":" ++ channelId message.

(** [isCoolingDown(state, message, config, now)]: the answer and the state
    after the call.  A stored timestamp of [0] is falsy. *)
Definition isCoolingDown (state : State) (message : Message) (config : Config)
    (now : Z) : bool * State :=
  let key := cooldownKey message in
  let lastWarningAt := cooldowns state !! key in
  if from_option
       (λ last, negb (last =? 0)%Z && (now - last <? warningCooldownMs config)%Z)
       false lastWarningAt
  then (true, state)
  else (false, {| cooldowns := <[key := now]> (cooldowns state);
                  modLogChannelIds := modLogChannelIds state;
                  metrics := metrics state |}).

(** ** Metrics aggregator *)

Definition termRuleKey `{UnicodeCase} (t : jsstring) : jsstring :=
  js "term:" ++ toLowerCase t.
Definition priceRuleKey `{UnicodeCase} (signal : jsstring) : jsstring :=
  js "price:" ++ toLowerCase signal.

(** [bumpMetrics(state, message, detection)]; [currentDay] is what
    [getUtcDay()] returns at the call, read from the system clock. *)
Definition bumpMetrics `{UnicodeCase} (currentDay : jsstring) (state : State)
    (message : Message) (detection : Detection) : State :=
  let m := metrics state in
  let m1 :=
    if bool_decide (day m = currentDay) then m
    else {| day := currentDay; triggersToday := 0; byChannel := []; byRule := [] |} in
  let byRule1 :=
    foldl (λ map t, bumpCount map (termRuleKey t) 1) (byRule m1)
      (matchedTerms detection) in
  let byRule2 :=
    foldl (λ map signal, bumpCount map (priceRuleKey signal) 1) byRule1
      (matchedPriceSignals detection) in
  {| cooldowns := cooldowns state;
     modLogChannelIds := modLogChannelIds state;
     metrics := {| day := day m1;
                   triggersToday := triggersToday m1 + 1;
                   byChannel := bumpCount (byChannel m1) (channelId message) 1;
                   byRule := byRule2 |} |}.

(** [topEntries(map, limit = 3)]: a stable sort by decreasing count. *)
Fixpoint insertByCount (e : list N * N) (sorted : list (list N * N))
    : list (list N * N) :=
  match sorted with
  | [] => [e]
  | e' :: rest =>
      if e'.2 <=? e.2 then e :: sorted else e' :: insertByCount e rest
  end.

Definition topEntries (map : CountMap) (limit : nat) : CountMap :=
  take limit (foldr insertByCount [] map).

(** ** Outward texts *)

Definition join (sep : jsstring) (parts : list jsstring) : jsstring :=
  match parts with
  | [] => []
  | p :: rest => p ++ concat ((λ q, sep ++ q) <$> rest)
  end.

Definition NEWLINE : jsstring := [10].

Definition buildWarningMessage `{UnicodeCase} (config : Config)
    (detection : Detection) (message : Message) : jsstring :=
  let matchedTermSet := toLowerCase <$> matchedTerms detection in
  let hasWordMatch := bool_decide (WORD_MATCH ∈ triggerTypes detection) in
  let hasPriceMatch := bool_decide (PRICE_PATTERN ∈ triggerTypes detection) in
  let channelLabel :=
    match channel message ≫= channelName with
    | Some (c :: n) => js "#" ++ (c :: n)
    | _ => js "<#" ++ channelId message ++ js ">"
    end in
  let lines1 :=
    if bool_decide (js "sell" ∈ matchedTermSet) then
      [js "Please use the word " ++ [34] ++ js "rehome" ++ [34] ++ js " instead."]
    else if hasWordMatch then
      [js "Restricted terms are not allowed here. Please edit your message to remove them."]
    else [] in
  let lines2 :=
    if hasPriceMatch then
      [js "Please refrain from using prices in " ++ channelLabel
       ++ js " and send prices only in DMs."]
    else [] in
  let lines3 :=
    if nonEmpty (lines1 ++ lines2) then []
    else [js "Restricted terms/prices are not allowed here.";
          js "Please edit your message to remove them."] in
  let lines4 :=
    if isTruthy (rulesUrl config) then [js "Rules: " ++ rulesUrl config] else [] in
  join NEWLINE (lines1 ++ lines2 ++ lines3 ++ lines4).

Definition showN (n : N) : jsstring := js (pretty n).
Definition showZ (z : Z) : jsstring := js (pretty z).

Definition buildModLogMessage (message : Message) (detection : Detection)
    (config : Config) (warningStatus warningError : jsstring) (state : State)
    : jsstring :=
  let topChannels :=
    join (js ", ")
      ((λ e, js "<#" ++ e.1 ++ js "> (" ++ showN e.2 ++ js ")")
         <$> topEntries (byChannel (metrics state)) 3) in
  let topRules :=
    join (js ", ")
      ((λ e, e.1 ++ js " (" ++ showN e.2 ++ js ")")
         <$> topEntries (byRule (metrics state)) 3) in
  let lines :=
    [ js "**Rule Guardian Trigger**";
      js "User: <@" ++ authorId message ++ js "> (`" ++ authorTag message ++ js "`)";
      js "Channel: <#" ++ channelId message ++ js ">";
      js "Timestamp: <t:" ++ showZ (createdTimestamp message / 1000)%Z ++ js ":F>";
      js "Trigger type(s): " ++ join (js ", ") (triggerTypes detection);
      js "Jump link: " ++ url message;
      js "Warning status: " ++ warningStatus;
      js "Daily trigger count: " ++ showN (triggersToday (metrics state));
      js "Top channels today: " ++ (if isTruthy topChannels then topChannels else js "none");
      js "Top rules today: " ++ (if isTruthy topRules then topRules else js "none") ] in
  let matchedEntries :=
    (if nonEmpty (matchedTerms detection)
     then [js "terms=[" ++ join (js ", ") (matchedTerms detection) ++ js "]"] else []) ++
    (if nonEmpty (matchedPriceSignals detection)
     then [js "price_signals=[" ++ join (js ", ") (matchedPriceSignals detection) ++ js "]"]
     else []) in
  let matchedLine :=
    if logMatchedTerms config && nonEmpty matchedEntries
    then [js "Matched: " ++ join (js " | ") matchedEntries] else [] in
  let errorLine :=
    if isTruthy warningError then [js "Warning error: " ++ warningError] else [] in
  join NEWLINE (lines ++ matchedLine ++ errorLine).

(** ** Outward calls *)

(** A value thrown by an awaited call, as [formatError] tells them apart. *)
Inductive JsValue :=
  | ErrorObject (message : jsstring)   (* an instance of Error *)
  | FalsyValue                         (* undefined, null, 0, an empty string *)
  | OtherValue (asString : jsstring).  (* anything else, with String(value) *)

Definition formatError (error : JsValue) : jsstring :=
  match error with
  | FalsyValue => js "unknown error"
  | ErrorObject message => message
  | OtherValue asString => asString
  end.

Record GuildChannel := {
  gcId : jsstring;
  gcType : ChannelType;
  gcName : jsstring;
}.

(** What the platform answers to the outward calls of one pipeline run. *)
Record World := {
  replyOutcome : option JsValue;        (* [None]: the reply was delivered *)
  channelCache : jsstring → option GuildChannel;
  fetchChannel : jsstring → JsValue + option GuildChannel;
  fetchAllChannels : JsValue + list (option GuildChannel);
  sendOutcome : jsstring → option JsValue;
}.

Inductive Event :=
  | Reply (text : jsstring)
  | FetchChannel (id : jsstring)
  | FetchAllChannels
  | Send (toChannel : jsstring) (text : jsstring)
  | ConsoleError (text : jsstring).

Inductive Outcome (A : Type) : Type :=
  | Returned (a : A)
  | Thrown (e : JsValue).
Arguments Returned {A} a.
Arguments Thrown {A} e.

(** A computation over the session state that records its outward calls. *)
Definition Prog (A : Type) : Type := State → Outcome A * State * list Event.

Definition ret {A} (a : A) : Prog A := λ st, (Returned a, st, []).

Definition bind {A B} (m : Prog A) (k : A → Prog B) : Prog B := λ st,
  match m st with
  | (Returned a, st1, t1) =>
      match k a st1 with (o, st2, t2) => (o, st2, t1 ++ t2) end
  | (Thrown e, st1, t1) => (Thrown e, st1, t1)
  end.

Definition tryCatch {A} (body : Prog A) (handler : JsValue → Prog A) : Prog A :=
  λ st,
  match body st with
  | (Returned a, st1, t1) => (Returned a, st1, t1)
  | (Thrown e, st1, t1) =>
      match handler e st1 with (o, st2, t2) => (o, st2, t1 ++ t2) end
  end.

Definition emit (ev : Event) : Prog unit := λ st, (Returned tt, st, [ev]).

(** An awaited outward call: the call is made, then it resolves or rejects. *)
Definition await {A} (ev : Event) (answer : JsValue + A) : Prog A := λ st,
  match answer with
  | inl e => (Thrown e, st, [ev])
  | inr a => (Returned a, st, [ev])
  end.

Definition getState : Prog State := λ st, (Returned st, st, []).
Definition putState (st' : State) : Prog unit := λ _, (Returned tt, st', []).

Notation "'do' x <- m ; k" := (bind m (λ x, k))
  (at level 20, x name, m at level 100, k at level 200, only parsing).
Notation "'run' m ; k" := (bind m (λ _, k))
  (at level 20, m at level 100, k at level 200, only parsing).

Definition cacheModLogChannel (key id : jsstring) : Prog unit :=
  do st <- getState;
  putState {| cooldowns := cooldowns st;
              modLogChannelIds := <[key := id]> (modLogChannelIds st);
              metrics := metrics st |}.

(** [channel && channel.type === ChannelType.GuildText] *)
Definition isTextChannel (c : option GuildChannel) : bool :=
  from_option (λ ch, isGuildText (gcType ch)) false c.

Definition resolveModLogChannel `{UnicodeCase} (w : World) (message : Message)
    (config : Config) : Prog (option GuildChannel) :=
  let cacheKey := messageGuildId message in
  do st <- getState;
  let cachedChannel : option GuildChannel :=
    match modLogChannelIds st !! cacheKey with
    | Some cachedChannelId =>
        if isTruthy cachedChannelId then channelCache w cachedChannelId else None
    | None => None
    end in
  if isTextChannel cachedChannel then ret cachedChannel
  else
    do byId <-
      (if isTruthy (modLogChannelId config) then
         tryCatch (await (FetchChannel (modLogChannelId config))
                         (fetchChannel w (modLogChannelId config)))
                  (λ _, ret None)
       else ret None);
    if isTruthy (modLogChannelId config) && isTextChannel byId then
      run cacheModLogChannel cacheKey (from_option gcId [] byId);
      ret byId
    else
      do allChannels <- await FetchAllChannels (fetchAllChannels w);
      let byName : option GuildChannel :=
        mjoin (List.find
                 (λ c, isTextChannel c
                       && bool_decide (toLowerCase (from_option gcName [] c)
                                       = modLogChannelName config))
                 allChannels) in
      match byName with
      | Some ch => run cacheModLogChannel cacheKey (gcId ch); ret (Some ch)
      | None => ret None
      end.

Definition MOD_LOG_NOT_FOUND : jsstring :=
  js "Rule Guardian: mod-log channel not found. Configure RG_MOD_LOG_CHANNEL_ID or RG_MOD_LOG_CHANNEL_NAME.".

Definition sendModLog `{UnicodeCase} (w : World) (message : Message)
    (detection : Detection) (config : Config)
    (warningStatus warningError : jsstring) : Prog unit :=
  tryCatch
    (do modLogChannel <- resolveModLogChannel w message config;
     match modLogChannel with
     | None => emit (ConsoleError MOD_LOG_NOT_FOUND)
     | Some ch =>
         do state <- getState;
         let text :=
           buildModLogMessage message detection config warningStatus warningError state in
         await (Send (gcId ch) text)
               (match sendOutcome w (gcId ch) with
                | Some e => inl e
                | None => inr tt
                end)
     end)
    (λ error,
       emit (ConsoleError (js "Rule Guardian: failed to send mod-log message: "
                           ++ formatError error))).

Definition COOLDOWN_SUPPRESSED : jsstring := js "cooldown_suppressed".
Definition SENT : jsstring := js "sent".
Definition FAILED : jsstring := js "failed".

(** The warning step of [handleTriggeredMessage]: the status and error text
    it leaves in [warningStatus] and [warningError]. *)
Definition warnUser `{UnicodeCase} (w : World) (message : Message)
    (detection : Detection) (config : Config) (shouldSuppressWarning : bool)
    : Prog (jsstring * jsstring) :=
  if shouldSuppressWarning then ret (COOLDOWN_SUPPRESSED, [])
  else
    tryCatch
      (run await (Reply (buildWarningMessage config detection message))
                 (match replyOutcome w with
                  | Some e => inl e
                  | None => inr tt
                  end);
       ret (SENT, []))
      (λ error, ret (FAILED, formatError error)).

(** [handleTriggeredMessage]; [now] is what [Date.now()] returns. *)
Definition handleTriggeredMessage `{UnicodeCase} (w : World) (now : Z)
    (message : Message) (detection : Detection) (config : Config) : Prog unit :=
  do state <- getState;
  let '(shouldSuppressWarning, state') := isCoolingDown state message config now in
  run putState state';
  do warning <- warnUser w message detection config shouldSuppressWarning;
  sendModLog w message detection config warning.1 warning.2.

(** [onMessageCreate]; [currentDay] and [now] are read from the clock. *)
Definition onMessageCreate `{UnicodeCase} (w : World) (currentDay : jsstring)
    (now : Z) (message : Message) (config : Config) (detectors : Detectors)
    : Prog unit :=
  if negb (shouldProcessMessage message config) then ret tt
  else
    let detection := detectContent (default [] (content message)) detectors config in
    if negb (triggered detection) then ret tt
    else
      do state <- getState;
      run putState (bumpMetrics currentDay state message detection);
      handleTriggeredMessage w now message detection config.

(** ** Configuration from the environment *)

(** The separator of the list-valued variables. *)
Definition COMMA : N := 44.

(** [value.split(',')]: the pieces between the separators, in order. *)
Fixpoint String_split (sep : N) (value : jsstring) : list jsstring :=
  match value with
  | [] => [[]]
  | c :: rest =>
      if c =? sep then [] :: String_split sep rest
      else match String_split sep rest with
           | piece :: pieces => (c :: piece) :: pieces
           | [] => [[c]]
           end
  end.

(** WhiteSpace or LineTerminator: what [trim] removes. *)
Definition isWhiteSpace (c : N) : bool := bool_decide (c ∈ whiteSpaceUnits).

(** [item.trim()]: the white space at both ends removed. *)
Fixpoint String_trimStart (s : jsstring) : jsstring :=
  match s with
  | [] => []
  | c :: rest => if isWhiteSpace c then String_trimStart rest else s
  end.

Definition String_trimEnd (s : jsstring) : jsstring :=
  reverse (String_trimStart (reverse s)).

Definition String_trim (s : jsstring) : jsstring :=
  String_trimEnd (String_trimStart s).

(** [parseCsvList(value)]; [None] is [undefined]. *)
Definition parseCsvList (value : option jsstring) : list jsstring :=
  match value with
  | None => []
  | Some v =>
      if negb (isTruthy v) then []
      else List.filter isTruthy (String_trim <$> String_split COMMA v)
  end.

(** [parseBoolean(value, fallback)]; [None] is [undefined]. *)
Definition parseBoolean `{UnicodeCase} (value : option jsstring) (fallback : bool)
    : bool :=
  match value with
  | None => fallback
  | Some v => bool_decide (toLowerCase v = js "true")
  end.

(** [process.env]: the variables that are set, by name. *)
Abbreviation Env := (gmap string (list N)) (only parsing).

(** [process.env.NAME || fallback] *)
Definition envOr (env : Env) (name : string) (fallback : jsstring) : jsstring :=
  match env !! name with
  | Some v => if isTruthy v then v else fallback
  | None => fallback
  end.

(** [list.length ? list : fallback] *)
Definition orDefault (l fallback : list jsstring) : list jsstring :=
  if nonEmpty l then l else fallback.

Section BuildConfig.
Context `{UnicodeCase}.

(** The runtime evaluates the cooldown expression
    [(Number(value) || DEFAULT_COOLDOWN_SECONDS) * 1000] in double
    arithmetic: for a variable that is set, the value may be fractional,
    rounded or infinite.  The program reads it in one place only, the
    comparison [now - lastWarningAt < warningCooldownMs] of the cooldown
    check, against the difference of two clock readings, which is an integer
    of bounded size.  [cooldownThreshold v] is the integer that decides
    this comparison as the runtime's value for the text [v] does: the least
    integer not below a finite value, and an integer beyond every
    difference of two clock readings for an infinite one. *)
Variable cooldownThreshold : jsstring → Z.

(** [Number(undefined)] is NaN, which is falsy: with the variable unset the
    cooldown is [DEFAULT_COOLDOWN_SECONDS * 1000]. *)
Definition cooldownMs (value : option jsstring) : Z :=
  match value with
  | Some v => cooldownThreshold v
  | None => (DEFAULT_COOLDOWN_SECONDS * 1000)%Z
  end.

Definition buildConfig (env : Env) : Config :=
  let restrictedTerms := parseCsvList (env !! "RG_RESTRICTED_TERMS"%string) in
  let priceKeywords := parseCsvList (env !! "RG_PRICE_KEYWORDS"%string) in
  let ruleChannelNames := parseCsvList (env !! "RG_RULE_CHANNEL_NAMES"%string) in
  {| enabled := parseBoolean (env !! "RG_ENABLED"%string) true;
     guildId := envOr env "RG_GUILD_ID" [];
     ruleChannelIds := list_to_set (parseCsvList (env !! "RG_RULE_CHANNEL_IDS"%string));
     ruleChannelNames :=
       normalizeSet (orDefault ruleChannelNames DEFAULT_RULE_CHANNEL_NAMES);
     modLogChannelId := envOr env "RG_MOD_LOG_CHANNEL_ID" [];
     modLogChannelName :=
       toLowerCase (envOr env "RG_MOD_LOG_CHANNEL_NAME" DEFAULT_MOD_LOG_CHANNEL_NAME);
     restrictedTerms := orDefault restrictedTerms DEFAULT_RESTRICTED_TERMS;
     exceptionPatterns := parseCsvList (env !! "RG_EXCEPTION_PATTERNS"%string);
     enablePricePattern := parseBoolean (env !! "RG_ENABLE_PRICE_PATTERN"%string) true;
     priceKeywords := orDefault priceKeywords DEFAULT_PRICE_KEYWORDS;
     warningCooldownMs := cooldownMs (env !! "RG_WARNING_COOLDOWN_SECONDS"%string);
     logMatchedTerms := parseBoolean (env !! "RG_LOG_MATCHED_TERMS"%string) true;
     rulesUrl := envOr env "RG_RULES_URL" [] |}.

(** What [startRuleGuardian] decides before it creates the gateway client:
    it returns [null] after one console line, or goes on with the
    configuration, the compiled rules and a fresh session state.  The
    client, its event handlers and the login are outside the model. *)
Inductive Startup :=
  | NotStarted (consoleLine : jsstring)
  | StartupThrown
  | Started (config : Config) (detectors : Detectors) (state : State).

Definition GUARDIAN_DISABLED : jsstring :=
  js "Rule Guardian is disabled. Set RG_ENABLED=true to enable it.".
Definition TOKEN_MISSING : jsstring :=
  js "Rule Guardian not started: DISCORD_TOKEN is missing.".

(** [today] is what [getUtcDay()] returns at the call. *)
Definition startRuleGuardian (env : Env) (today : jsstring) : Startup :=
  let config := buildConfig env in
  if negb (enabled config) then NotStarted GUARDIAN_DISABLED
  else if negb (isTruthy (envOr env "DISCORD_TOKEN" [])) then NotStarted TOKEN_MISSING
  else
    match buildDetectors config with
    | None => StartupThrown
    | Some detectors => Started config detectors (initialState today)
    end.

End BuildConfig.

(** ** Message deliveries *)

(** One delivery of a message to the [messageCreate] handler: the message,
    what the clock reads during the call and what the platform answers. *)
Record Delivery := {
  deliveredMessage : Message;
  deliveryDay : jsstring;
  deliveryNow : Z;
  deliveryWorld : World;
}.

(** [client.on('messageCreate', (message) => { void onMessageCreate(message,
    config, detectors, state); })]: the handler runs on each delivery, on
    the one session state.  The metrics and the cooldown entry are written
    before the first [await] of a call, so they change in the order of the
    deliveries; the calls are run one after the other. *)
Fixpoint deliverAll `{UnicodeCase} (config : Config) (detectors : Detectors)
    (state : State) (deliveries : list Delivery) : list (list Event) * State :=
  match deliveries with
  | [] => ([], state)
  | d :: rest =>
      let '(_, state', trace) :=
        onMessageCreate (deliveryWorld d) (deliveryDay d) (deliveryNow d)
          (deliveredMessage d) config detectors state in
      let '(traces, final) := deliverAll config detectors state' rest in
      (trace :: traces, final)
  end.

(** * Vocabulary of the properties *)

(** ** Shapes of patterns and of what they consume *)

Fixpoint simpleRegex (r : regex) : bool :=
  match r with
  | REmpty | RWordBoundary => true
  | RChar c => simpleUnit c
  | RClass members => forallb simpleUnit members
  | RSeq r1 r2 => simpleRegex r1 && simpleRegex r2
  | ROpt r1 => simpleRegex r1
  | RRepeat members _ _ => forallb simpleUnit members
  end.

(** The code unit before the position reached after [consumed]. *)
Definition prevAfter (prev : option N) (consumed : jsstring) : option N :=
  match last consumed with
  | Some x => Some x
  | None => prev
  end.

(** A literal word followed by [r], as the parser builds it. *)
Fixpoint literalThen (w : jsstring) (r : regex) : regex :=
  match w with
  | [] => r
  | c :: w' => RSeq (RChar c) (literalThen w' r)
  end.

Section MatchShapes.
Context `{UnicodeCase}.
Variable ic : bool.

(** The input left when [w] is a prefix of [s] up to letter case. *)
Fixpoint stripLiteral (w s : jsstring) : option jsstring :=
  match w, s with
  | [], _ => Some s
  | c :: w', x :: s' => if unitMatches ic c x then stripLiteral w' s' else None
  | _ :: _, [] => None
  end.

(** The texts a pattern can consume, word boundaries left aside. *)
Fixpoint accepts (r : regex) (mid : jsstring) : Prop :=
  match r with
  | REmpty | RWordBoundary => mid = []
  | RChar c => ∃ x, mid = [x] ∧ unitMatches ic c x = true
  | RClass members => ∃ x, mid = [x] ∧ classMatches ic members x = true
  | RSeq r1 r2 => ∃ m1 m2, mid = m1 ++ m2 ∧ accepts r1 m1 ∧ accepts r2 m2
  | ROpt r1 => mid = [] ∨ accepts r1 mid
  | RRepeat members min max =>
      Forall (λ x, classMatches ic members x = true) mid ∧
      (min ≤ length mid)%nat ∧
      ∀ n, max = Some n → (length mid ≤ n)%nat
  end.

End MatchShapes.

(** What [new RegExp(`\\b${escapeRegex(w)}\\b`, 'i')] denotes. *)
Definition wordRegExp (w : jsstring) : RegExp :=
  {| pattern := RSeq RWordBoundary (literalThen w (RSeq RWordBoundary REmpty));
     ignoreCase := true;
     global := false |}.

(** What [new RegExp(escapeRegex(p), 'i')] denotes. *)
Definition substringRegExp (p : jsstring) : RegExp :=
  {| pattern := literalThen p REmpty; ignoreCase := true; global := false |}.

(** The detectors [buildDetectors] returns. *)
Definition compiledDetectors (config : Config) : Detectors :=
  {| restrictedTermChecks :=
       (λ t, {| term := t; termRegex := wordRegExp t |}) <$> restrictedTerms config;
     exceptionChecks :=
       (λ p, {| exceptionPattern := p; exceptionRegex := substringRegExp p |})
         <$> exceptionPatterns config;
     priceKeywordChecks :=
       (λ w, {| keyword := w; keywordRegex := wordRegExp w |})
         <$> priceKeywords config |}.

Definition emptyDetection : Detection :=
  {| triggered := false; matchedTerms := [];
     matchedPriceSignals := []; triggerTypes := [] |}.

(** ** Occurrences in a text *)

Section OccurrenceDefs.
Context `{UnicodeCase}.

(** Equality of two strings up to the letter case the matcher ignores. *)
Definition sameIgnoringCase (a b : jsstring) : Prop :=
  Forall2 (λ x y, Canonicalize true x = Canonicalize true y) a b.

(** [p] is a case-insensitive substring of [text]. *)
Definition containsIgnoringCase (p text : jsstring) : Prop :=
  ∃ pre mid post, text = pre ++ mid ++ post ∧ sameIgnoringCase p mid.

(** [w] occurs in [text] with a word boundary ([\b]) on both sides. *)
Definition occursBetweenBoundaries (w text : jsstring) : Prop :=
  ∃ pre mid post,
    text = pre ++ mid ++ post ∧ sameIgnoringCase w mid ∧
    atWordBoundary (last pre) (mid ++ post) = true ∧
    atWordBoundary (last (pre ++ mid)) post = true.

(** [w] occurs in [text] as a whole word: up to letter case, and with no
    word character (an ASCII letter, a digit or the underscore) directly
    before or after the occurrence. *)
Definition containsWholeWord (w text : jsstring) : Prop :=
  ∃ pre mid post,
    text = pre ++ mid ++ post ∧ sameIgnoringCase w mid ∧
    isWordCharAt (last pre) = false ∧ isWordCharAt (head post) = false.

End OccurrenceDefs.

(** [w] begins and ends with a word character: an ASCII letter, a digit or
    the underscore.  Any other unit, a letter outside ASCII included, is not
    a word character for a pattern without the [u] flag. *)
Definition wordEdged (w : jsstring) : Prop :=
  isWordCharAt (head w) = true ∧ isWordCharAt (last w) = true.

(** The text contains one of [$], [£], [€]. *)
Definition containsCurrencySymbol (content : jsstring) : Prop :=
  ∃ c, c ∈ content ∧ c ∈ currencyUnits.

(** The text contains a currency symbol, at most one white space, and a
    numeric amount (an optional decimal fraction is part of what
    follows). *)
Definition containsSymbolAmount (content : jsstring) : Prop :=
  ∃ pre sym gap digits post,
    content = pre ++ [sym] ++ gap ++ digits ++ post ∧
    sym ∈ currencyUnits ∧
    (gap = [] ∨ ∃ ws, ws ∈ whiteSpaceUnits ∧ gap = [ws]) ∧
    digits ≠ [] ∧ Forall (λ d, isDigit d = true) digits.

(** The shape of a symbol-plus-amount match: a currency symbol, at most one
    white space, digits, and possibly a separator with one or two digits. *)
Definition symbolAmountText (m : jsstring) : Prop :=
  ∃ sym gap digits frac,
    m = [sym] ++ gap ++ digits ++ frac ∧
    sym ∈ currencyUnits ∧
    (gap = [] ∨ ∃ ws, ws ∈ whiteSpaceUnits ∧ gap = [ws]) ∧
    digits ≠ [] ∧ Forall (λ d, d ∈ digitUnits) digits ∧
    (frac = [] ∨ ∃ sep ds, frac = sep :: ds ∧ sep ∈ [46; 44] ∧
                           (1 ≤ length ds ≤ 2)%nat ∧
                           Forall (λ d, d ∈ digitUnits) ds).

(** ** What the classifier collects *)

Section HitDefs.
Context `{UnicodeCase}.

(** Some configured exception pattern is a case-insensitive substring. *)
Definition exceptionMatches (config : Config) (content : jsstring) : Prop :=
  ∃ p, p ∈ exceptionPatterns config ∧ containsIgnoringCase p content.

Definition termHits (config : Config) (content : jsstring) : list jsstring :=
  List.filter (λ t, RegExp_test (wordRegExp t) content) (restrictedTerms config).

Definition keywordHits (config : Config) (content : jsstring) : list jsstring :=
  List.filter (λ w, RegExp_test (wordRegExp w) content) (priceKeywords config).

Definition exceptionHits (config : Config) (content : jsstring) : list jsstring :=
  List.filter (λ p, RegExp_test (substringRegExp p) content)
    (exceptionPatterns config).

Definition priceSignals (config : Config) (content : jsstring) : list jsstring :=
  if enablePricePattern config then
    String_matchAll symbolAmountRegExp content
    ++ String_matchAll rawSymbolRegExp content
    ++ keywordHits config content
  else [].

End HitDefs.

(** ** Strings and configurations over simple units *)

Definition simpleString (s : jsstring) : bool := forallb simpleUnit s.

Definition simpleConfig (config : Config) : bool :=
  forallb simpleString (restrictedTerms config)
  && forallb simpleString (exceptionPatterns config)
  && forallb simpleString (priceKeywords config).

(** A unit that is simple and not a letter: no other unit shares its
    canonical form. *)
Definition caselessUnit (c : N) : bool :=
  simpleUnit c && negb (inRange 65 90 c) && negb (inRange 97 122 c).

(** ** Counters and events *)

(** The count a map holds for a key, [0] when the key is absent. *)
Definition countOf (map : CountMap) (key : jsstring) : N :=
  default 0 (Map_get map key).

(** How often [k] is the rule key of an element of [l]. *)
Definition occurrences (ruleKey : jsstring → jsstring) (l : list jsstring)
    (k : jsstring) : N :=
  N.of_nat (length (List.filter (λ x, bool_decide (ruleKey x = k)) l)).

Definition isReply (ev : Event) : bool :=
  match ev with Reply _ => true | _ => false end.

(** ** Sample inputs *)

(** A configuration with the given rule lists and the defaults elsewhere. *)
Definition withRules `{UnicodeCase} (terms exceptions keywords : list jsstring)
    : Config :=
  {| enabled := enabled defaultConfig;
     guildId := guildId defaultConfig;
     ruleChannelIds := ruleChannelIds defaultConfig;
     ruleChannelNames := ruleChannelNames defaultConfig;
     modLogChannelId := modLogChannelId defaultConfig;
     modLogChannelName := modLogChannelName defaultConfig;
     restrictedTerms := terms;
     exceptionPatterns := exceptions;
     enablePricePattern := enablePricePattern defaultConfig;
     priceKeywords := keywords;
     warningCooldownMs := warningCooldownMs defaultConfig;
     logMatchedTerms := logMatchedTerms defaultConfig;
     rulesUrl := rulesUrl defaultConfig |}.

(** A configuration with the given cooldown and the defaults elsewhere. *)
Definition withCooldown (ms : Z) : Config :=
  {| enabled := true; guildId := []; ruleChannelIds := ∅;
     ruleChannelNames := @normalizeSet asciiCase DEFAULT_RULE_CHANNEL_NAMES;
     modLogChannelId := []; modLogChannelName := DEFAULT_MOD_LOG_CHANNEL_NAME;
     restrictedTerms := DEFAULT_RESTRICTED_TERMS; exceptionPatterns := [];
     enablePricePattern := true; priceKeywords := DEFAULT_PRICE_KEYWORDS;
     warningCooldownMs := ms; logMatchedTerms := true; rulesUrl := [] |}.

(** A message of user [42] in channel [7] of guild [1]. *)
Definition sampleMessage (text : option jsstring) : Message :=
  {| inGuild := true; messageGuildId := js "1";
     channel := Some {| channelType := GuildText; channelName := Some (js "chatter") |};
     channelId := js "7"; authorId := js "42"; authorTag := js "user";
     authorBot := false; content := text;
     createdTimestamp := 1714564800000; url := js "https://discord.com/channels/1/7/9" |}.

(** ** Comma-separated lists *)

(** No white space at either end. *)
Definition trimmed (s : jsstring) : Prop :=
  from_option isWhiteSpace false (head s) = false ∧
  from_option isWhiteSpace false (last s) = false.

(** An item of a comma-separated list: not empty, no comma, no white space
    at either end. *)
Definition listItem (s : jsstring) : Prop :=
  s ≠ [] ∧ (COMMA ∉ s) ∧ trimmed s.

(** White space only. *)
Definition blank (s : jsstring) : Prop := Forall (λ c, isWhiteSpace c = true) s.

(** [raw] is [item] with white space around it. *)
Definition padded (raw item : jsstring) : Prop :=
  ∃ l r, raw = l ++ item ++ r ∧ blank l ∧ blank r.

(** The names of the variables [buildConfig] reads. *)
Definition ruleGuardianVariables : list string :=
  ["RG_RESTRICTED_TERMS"; "RG_PRICE_KEYWORDS"; "RG_RULE_CHANNEL_NAMES"; "RG_ENABLED";
   "RG_GUILD_ID"; "RG_RULE_CHANNEL_IDS"; "RG_MOD_LOG_CHANNEL_ID";
   "RG_MOD_LOG_CHANNEL_NAME"; "RG_EXCEPTION_PATTERNS"; "RG_ENABLE_PRICE_PATTERN";
   "RG_WARNING_COOLDOWN_SECONDS"; "RG_LOG_MATCHED_TERMS"; "RG_RULES_URL"]%string.

(** ** Ranking of counters *)

(** [a] may stand before [b] in a list ordered by decreasing count. *)
Definition countAtLeast (a b : list N * N) : Prop := b.2 ≤ a.2.

(** The entries of a map that hold the count [c], in the order of the map. *)
Definition withCount (c : N) (map : CountMap) : CountMap :=
  List.filter (λ e, e.2 =? c) map.

(** ** Runs of the handler *)

(** The sum of the counts a map holds. *)
Definition sumCounts (map : CountMap) : N := foldr (λ e total, e.2 + total) 0 map.

(** What the daily metrics keep at every moment. *)
Definition consistentMetrics (m : Metrics) : Prop :=
  triggersToday m = sumCounts (byChannel m) ∧
  NoDup (byChannel m).*1 ∧ NoDup (byRule m).*1 ∧
  Forall (λ e, 0 < e.2) (byChannel m) ∧ Forall (λ e, 0 < e.2) (byRule m).

(** The message is in the moderation scope and its text triggers. *)
Definition handled `{UnicodeCase} (message : Message) (config : Config)
    (detectors : Detectors) : bool :=
  shouldProcessMessage message config
  && triggered (detectContent (default [] (content message)) detectors config).

(** How many of the deliveries are handled, and how many of them in the
    channel [ch]. *)
Definition handledCount `{UnicodeCase} (config : Config) (detectors : Detectors)
    (deliveries : list Delivery) : N :=
  N.of_nat (length (List.filter
                      (λ d, handled (deliveredMessage d) config detectors)
                      deliveries)).

Definition handledCountIn `{UnicodeCase} (config : Config) (detectors : Detectors)
    (ch : jsstring) (deliveries : list Delivery) : N :=
  N.of_nat (length (List.filter
                      (λ d, handled (deliveredMessage d) config detectors
                            && bool_decide (channelId (deliveredMessage d) = ch))
                      deliveries)).

(** The event leaves a record of the trigger: a message to the log channel
    or a line on the console. *)
Definition isRecord (ev : Event) : bool :=
  match ev with Send _ _ | ConsoleError _ => true | _ => false end.

(** The run replied to the author. *)
Definition warned (trace : list Event) : bool := existsb isReply trace.

(** A platform that delivers every reply and knows no channel. *)
Definition quietWorld : World :=
  {| replyOutcome := None;
     channelCache := λ _, None;
     fetchChannel := λ _, inr None;
     fetchAllChannels := inr [];
     sendOutcome := λ _, None |}.

(** The sample message with the text [sell], delivered at [now]. *)
Definition sampleDelivery (now : Z) : Delivery :=
  {| deliveredMessage := sampleMessage (Some (js "sell"));
     deliveryDay := js "2024-05-01";
     deliveryNow := now;
     deliveryWorld := quietWorld |}.

(** The message comes from a person, in a text channel of the configured
    server (of any server when none is configured). *)
Definition inServerScope (message : Message) (config : Config) : Prop :=
  inGuild message = true ∧ isStandardTextChannel message = true ∧
  authorBot message = false ∧
  (guildId config = [] ∨ messageGuildId message = guildId config).

(** [message.channel.name || ''] *)
Definition channelNameOf (message : Message) : jsstring :=
  default [] (channel message ≫= channelName).

(** ** Log channel and warning lines *)

(** The channel cache of the platform holds each channel under its id. *)
Definition keyedById (w : World) : Prop :=
  ∀ id ch, channelCache w id = Some ch → gcId ch = id.

(** Opening lines of the warning. *)
Definition REHOME_LINE : jsstring :=
  js "Please use the word " ++ [34] ++ js "rehome" ++ [34] ++ js " instead.".
Definition GENERIC_LINE : jsstring :=
  js "Restricted terms/prices are not allowed here.".

Definition RESTRICTED_LINE : jsstring :=
  js "Restricted terms are not allowed here. Please edit your message to remove them.".
Definition PRICE_LINE_START : jsstring := js "Please refrain from using prices in ".

(** A text channel named as the default log channel, in other letter case. *)
Definition sampleLogChannel : GuildChannel :=
  {| gcId := js "99"; gcType := GuildText; gcName := js "Mod-Log" |}.

(** A platform on which the log channel is found by its name. *)
Definition loggingWorld : World :=
  {| replyOutcome := None;
     channelCache := λ id, if bool_decide (id = js "99") then Some sampleLogChannel else None;
     fetchChannel := λ _, inr None;
     fetchAllChannels := inr [None; Some sampleLogChannel];
     sendOutcome := λ _, None |}.

(** ** Letter case of the message *)

(** Two code units with the same canonical form under the [i] flag. *)
Definition sameUnit `{UnicodeCase} (x y : N) : Prop :=
  Canonicalize true x = Canonicalize true y.

(** Continuations that answer alike on inputs alike up to letter case. *)
Definition alike `{UnicodeCase} (k k' : Cont) : Prop :=
  ∀ p p' t t',
    option_Forall2 sameUnit p p' → sameIgnoringCase t t' →
    option_Forall2 sameIgnoringCase (k p t) (k' p' t').

(** ** The log destination *)

(** The log channel as the lookup order of [resolveModLogChannel] gives it:
    the cached channel of the server, when the platform's cache still holds
    it as a text channel; else the channel with the configured id, when the
    platform answers the fetch with a text channel (a rejected fetch counts
    as no channel); else the first text channel in the server's list whose
    lower-cased name is the configured name.  [inl e]: the list was asked
    for and the platform rejected the call with [e]. *)
Definition logDestination `{UnicodeCase} (w : World) (message : Message)
    (config : Config) (state : State) : JsValue + option GuildChannel :=
  let textChannel (c : option GuildChannel) : option GuildChannel :=
    match c with
    | Some ch => match gcType ch with GuildText => Some ch | OtherChannelType => None end
    | None => None
    end in
  let cached :=
    match modLogChannelIds state !! messageGuildId message with
    | Some (c :: id) => textChannel (channelCache w (c :: id))
    | _ => None
    end in
  let configured :=
    match modLogChannelId config with
    | c :: id =>
        match fetchChannel w (c :: id) with
        | inr found => textChannel found
        | inl _ => None
        end
    | [] => None
    end in
  match cached, configured with
  | Some ch, _ => inr (Some ch)
  | None, Some ch => inr (Some ch)
  | None, None =>
      match fetchAllChannels w with
      | inl e => inl e
      | inr channels =>
          inr (mjoin (List.find
                        (λ c, match textChannel c with
                              | Some ch =>
                                  bool_decide (toLowerCase (gcName ch)
                                               = modLogChannelName config)
                              | None => false
                              end)
                        channels))
      end
  end.

(** The event asks the platform for a channel or for the channel list. *)
Definition isFetch (ev : Event) : bool :=
  match ev with FetchChannel _ | FetchAllChannels => true | _ => false end.

(** ** Claims as the specification states them *)

(** The last sentence of claim C2 as the specification states it: every
    configured restricted term that occurs as a whole word yields a word
    match, when no exception matches. *)
Definition wholeWordTriggers `{UnicodeCase} (config : Config)
    (content : jsstring) : Prop :=
  ∀ detectors t,
    buildDetectors config = Some detectors →
    ¬ exceptionMatches config content →
    t ∈ restrictedTerms config →
    containsWholeWord t content →
    WORD_MATCH ∈ triggerTypes (detectContent content detectors config).

(** The keyword clause of claim C5 as the specification states it. *)
Definition keywordTriggers `{UnicodeCase} (config : Config)
    (content : jsstring) : Prop :=
  ∀ detectors w,
    buildDetectors config = Some detectors →
    enablePricePattern config = true →
    ¬ exceptionMatches config content →
    w ∈ priceKeywords config →
    containsWholeWord w content →
    PRICE_PATTERN ∈ triggerTypes (detectContent content detectors config).

(** Claim C7 as the specification states it, in two parts: stored values are
    lower-cased, and no two stored values differ only in letter case. *)
Definition storedLowerCased `{UnicodeCase} (config : Config)
    (content : jsstring) : Prop :=
  ∀ detectors s,
    buildDetectors config = Some detectors →
    s ∈ matchedTerms (detectContent content detectors config) ∨
    s ∈ matchedPriceSignals (detectContent content detectors config) →
    toLowerCase s = s.

Definition deduplicatedIgnoringCase `{UnicodeCase} (config : Config)
    (content : jsstring) : Prop :=
  ∀ detectors a b,
    buildDetectors config = Some detectors →
    (a ∈ matchedTerms (detectContent content detectors config) ∧
     b ∈ matchedTerms (detectContent content detectors config)) ∨
    (a ∈ matchedPriceSignals (detectContent content detectors config) ∧
     b ∈ matchedPriceSignals (detectContent content detectors config)) →
    toLowerCase a = toLowerCase b → a = b.

(** Claim C10 as the specification states it, in its first clause: for
    every text in which the symbol-plus-amount pattern matches, the verdict
    holds the bare currency symbol. *)
Definition pricedMentionReportsSymbol `{UnicodeCase} (config : Config)
    (content : jsstring) : Prop :=
  ∀ detectors mention,
    buildDetectors config = Some detectors →
    mention ∈ String_matchAll symbolAmountRegExp content →
    ∃ sym, sym ∈ currencyUnits ∧
           [sym] ∈ matchedPriceSignals (detectContent content detectors config).

(** Claim C6 as the specification states it, in its clause on the audit
    log: whatever the warning outcome, the audit text is composed and its
    delivery attempted. *)
Definition logAlwaysAttempted `{UnicodeCase} (w : World) (now : Z)
    (message : Message) (detection : Detection) (config : Config)
    (state : State) : Prop :=
  ∃ toChannel text,
    Send toChannel text
    ∈ (handleTriggeredMessage w now message detection config state).2.

Local Open Scope Z_scope.

(** Claim C3 as the specification states it, in its two clauses that
    speak of suppression: inside the window of a cooldown [D > 0] the second
    trigger is suppressed, and with [D = 0] no call is suppressed. *)
Definition suppressesInsideWindow (state : State) (message : Message)
    (config : Config) (t0 t1 : Z) : Prop :=
  cooldowns state !! cooldownKey message = None →
  0 < warningCooldownMs config →
  0 ≤ t1 - t0 < warningCooldownMs config →
  (isCoolingDown (isCoolingDown state message config t0).2 message config t1).1
  = true.

Definition neverSuppressesWithoutCooldown (state : State) (message : Message)
    (config : Config) (now : Z) : Prop :=
  warningCooldownMs config = 0 →
  (isCoolingDown state message config now).1 = false.

(** Claim C8 as the specification states it: every call leaves the current
    timestamp in the entry of its key. *)
Definition entryAlwaysUpdated (state : State) (message : Message)
    (config : Config) (now : Z) : Prop :=
  cooldowns (isCoolingDown state message config now).2 !! cooldownKey message
  = Some now.

Local Close Scope Z_scope.

(** * Properties *)

(** ** Character classes and canonical forms *)

Lemma inRange_spec lo hi c : inRange lo hi c = true ↔ lo ≤ c ∧ c ≤ hi.
Proof.
  unfold inRange. rewrite andb_true_iff, !N.leb_le. tauto.
Qed.

Lemma asciiUpper_ascii c : c < 128 → asciiUpper c < 128.
Proof.
  unfold asciiUpper. destruct (inRange 97 122 c) eqn:E; [|done].
  apply inRange_spec in E. lia.
Qed.

Lemma asciiUpper_nonascii c : 128 ≤ c → asciiUpper c = c.
Proof.
  unfold asciiUpper. destruct (inRange 97 122 c) eqn:E; [|done].
  apply inRange_spec in E. lia.
Qed.

Lemma simpleUnit_ascii c : c < 128 → simpleUnit c = true.
Proof.
  intros Hc. unfold simpleUnit. apply orb_true_iff. left. by apply N.ltb_lt.
Qed.

Lemma isWordChar_ascii c : isWordChar c = true → c < 128.
Proof.
  unfold isWordChar, isDigit.
  rewrite !orb_true_iff, !inRange_spec, N.eqb_eq. lia.
Qed.

(** Upper-casing an ASCII code unit neither creates nor destroys a word
    character. *)
Lemma isWordChar_asciiUpper c : isWordChar (asciiUpper c) = isWordChar c.
Proof.
  unfold asciiUpper. destruct (inRange 97 122 c) eqn:E; [|done].
  apply inRange_spec in E.
  assert (isWordChar c = true) as ->.
  { unfold isWordChar. rewrite !orb_true_iff, !inRange_spec. lia. }
  unfold isWordChar. rewrite !orb_true_iff, !inRange_spec. lia.
Qed.

Lemma Canonicalize_asciiCase x : @Canonicalize asciiCase true x = asciiUpper x.
Proof.
  unfold Canonicalize. simpl.
  destruct (128 <=? x) eqn:E; simpl; [|done].
  apply N.leb_le in E. rewrite (asciiUpper_nonascii x E).
  by destruct (x <? 128).
Qed.

Section Canonical.
Context `{UnicodeCase}.

Lemma Canonicalize_exact c : Canonicalize false c = c.
Proof. reflexivity. Qed.

Lemma Canonicalize_simple c :
  simpleUnit c = true → Canonicalize true c = asciiUpper c.
Proof.
  intros Hs. unfold Canonicalize. simpl.
  rewrite (toUpperCase_simple c Hs).
  destruct (128 <=? c) eqn:E; simpl; [|done].
  apply N.leb_le in E. rewrite (asciiUpper_nonascii c E).
  by destruct (c <? 128).
Qed.

Lemma Canonicalize_nonascii ic c : 128 ≤ c → 128 ≤ Canonicalize ic c.
Proof.
  intros Hc. unfold Canonicalize. destruct ic; simpl; [|done].
  destruct (toUpperCase [c]) as [|cu [|]]; try done.
  apply N.leb_le in Hc as Hc'. rewrite Hc'. simpl.
  destruct (cu <? 128) eqn:E; [done|]. by apply N.ltb_ge in E.
Qed.

(** Nothing but a caseless symbol has that symbol as its canonical form. *)
Lemma Canonicalize_to_simple x d :
  Canonicalize true x = d → 128 ≤ d → simpleUnit d = true → x = d.
Proof.
  unfold Canonicalize. simpl. intros Hx Hd Hs.
  destruct (toUpperCase [x]) as [|cu [|]] eqn:E; try done.
  destruct ((128 <=? x) && (cu <? 128)); [done|]. subst cu.
  by apply (toUpperCase_simple_inv x d).
Qed.

(** Against a simple pattern unit, matching is decided by ASCII letter case
    alone, whatever the runtime's tables say elsewhere. *)
Lemma unitMatches_simple ic a x :
  simpleUnit a = true →
  unitMatches ic a x = @unitMatches asciiCase ic a x.
Proof.
  intros Ha. destruct ic; [|done].
  unfold unitMatches. rewrite (Canonicalize_simple a Ha).
  rewrite !Canonicalize_asciiCase.
  destruct (simpleUnit x) eqn:Hx.
  { by rewrite (Canonicalize_simple x Hx). }
  assert (128 ≤ x) as Hx128.
  { destruct (N.lt_ge_cases x 128) as [Hl|]; [|done].
    by rewrite (simpleUnit_ascii x Hl) in Hx. }
  rewrite (asciiUpper_nonascii x Hx128).
  pose proof (Canonicalize_nonascii true x Hx128) as Hc.
  destruct (N.lt_ge_cases a 128) as [Hl|Hg].
  - pose proof (asciiUpper_ascii a Hl).
    transitivity false; [|symmetry]; apply N.eqb_neq; lia.
  - rewrite (asciiUpper_nonascii a Hg).
    transitivity false; [|symmetry]; apply N.eqb_neq.
    + intros Heq. symmetry in Heq.
      apply Canonicalize_to_simple in Heq; [|done..].
      subst x. by rewrite Ha in Hx.
    + intros ->. by rewrite Ha in Hx.
Qed.

Lemma classMatches_simple ic members x :
  forallb simpleUnit members = true →
  classMatches ic members x = @classMatches asciiCase ic members x.
Proof.
  induction members as [|a members IH]; [done|].
  simpl. intros [Ha Hm]%andb_true_iff.
  by rewrite (unitMatches_simple ic a x Ha), IH.
Qed.

Lemma unitMatches_refl ic x : unitMatches ic x x = true.
Proof. apply N.eqb_refl. Qed.
End Canonical.

(** ** The matcher *)

Lemma prevAfter_nil prev : prevAfter prev [] = prev.
Proof. reflexivity. Qed.

Lemma prevAfter_cons prev x l : prevAfter prev (x :: l) = prevAfter (Some x) l.
Proof.
  unfold prevAfter. destruct l as [|y l]; [done|].
  rewrite last_cons_cons, last_cons. by destruct (last l).
Qed.

Lemma prevAfter_app prev l1 l2 :
  prevAfter prev (l1 ++ l2) = prevAfter (prevAfter prev l1) l2.
Proof.
  revert prev. induction l1 as [|x l1 IH]; intros prev; [done|].
  simpl. by rewrite !prevAfter_cons, IH.
Qed.

Section MatcherFacts.
Context `{UnicodeCase}.
Variable ic : bool.

Lemma repeatMatcher_ext members min max prev s (k k' : Cont) :
  (∀ p s', k p s' = k' p s') →
  repeatMatcher ic members min max prev s k
  = repeatMatcher ic members min max prev s k'.
Proof.
  intros Hk. revert min max prev.
  induction s as [|x s IH]; intros min max prev; simpl.
  - by rewrite Hk.
  - rewrite (IH (pred min) (pred <$> max) (Some x)). by rewrite Hk.
Qed.

Lemma matcher_ext r : ∀ prev s (k k' : Cont),
  (∀ p s', k p s' = k' p s') →
  matcher ic r prev s k = matcher ic r prev s k'.
Proof.
  induction r as [|c|members| |r1 IH1 r2 IH2|r1 IH1|members min max];
    intros prev s k k' Hk; simpl.
  - apply Hk.
  - destruct s as [|x s]; [done|]. by rewrite Hk.
  - destruct s as [|x s]; [done|]. by rewrite Hk.
  - by rewrite Hk.
  - apply IH1. intros p s'. by apply IH2.
  - rewrite (IH1 prev s k k' Hk). by rewrite Hk.
  - by apply repeatMatcher_ext.
Qed.

Lemma repeatMatcher_simple members min max prev s (k k' : Cont) :
  forallb simpleUnit members = true →
  (∀ p s', k p s' = k' p s') →
  repeatMatcher ic members min max prev s k
  = @repeatMatcher asciiCase ic members min max prev s k'.
Proof.
  intros Hm Hk. revert min max prev.
  induction s as [|x s IH]; intros min max prev; simpl.
  - by rewrite Hk.
  - rewrite (classMatches_simple ic members x Hm).
    rewrite (IH (pred min) (pred <$> max) (Some x)). by rewrite Hk.
Qed.

(** A pattern over simple units matches the same inputs in every runtime. *)
Lemma matcher_simple r : ∀ prev s (k k' : Cont),
  simpleRegex r = true →
  (∀ p s', k p s' = k' p s') →
  matcher ic r prev s k = @matcher asciiCase ic r prev s k'.
Proof.
  induction r as [|c|members| |r1 IH1 r2 IH2|r1 IH1|members min max];
    intros prev s k k' Hr Hk; simpl in *.
  - apply Hk.
  - destruct s as [|x s]; [done|].
    by rewrite (unitMatches_simple ic c x Hr), Hk.
  - destruct s as [|x s]; [done|].
    by rewrite (classMatches_simple ic members x Hr), Hk.
  - by rewrite Hk.
  - apply andb_true_iff in Hr as [Hr1 Hr2].
    apply IH1; [done|]. intros p s'. by apply IH2.
  - rewrite (IH1 prev s k k' Hr Hk). by rewrite Hk.
  - by apply repeatMatcher_simple.
Qed.

Lemma execFrom_simple r prev s :
  simpleRegex r = true →
  execFrom ic r prev s = @execFrom asciiCase ic r prev s.
Proof.
  intros Hr. revert prev. induction s as [|x s IH]; intros prev; simpl.
  - unfold matchHere. by rewrite (matcher_simple r _ _ _ (λ _ rest, Some rest) Hr).
  - unfold matchHere.
    rewrite (matcher_simple r _ _ _ (λ _ rest, Some rest) Hr); [|done].
    by rewrite IH.
Qed.

Lemma matchAllFuel_simple fuel r prev s :
  simpleRegex r = true →
  matchAllFuel ic fuel r prev s = @matchAllFuel asciiCase ic fuel r prev s.
Proof.
  intros Hr. revert prev s. induction fuel as [|fuel IH]; intros prev s; [done|].
  simpl. rewrite (execFrom_simple r prev s Hr).
  destruct (@execFrom asciiCase ic r prev s) as [[from rest]|]; [|done].
  destruct (matchedText from rest) as [|m0 m]; [|by rewrite IH].
  destruct rest as [|x rest]; [done|]. by rewrite IH.
Qed.

Lemma matcher_literalThen w r : ∀ prev s (k : Cont),
  matcher ic (literalThen w r) prev s k
  = match stripLiteral ic w s with
    | Some rest =>
        matcher ic r (prevAfter prev (take (length w) s)) rest k
    | None => None
    end.
Proof.
  induction w as [|c w IH]; intros prev s k; simpl.
  - done.
  - destruct s as [|x s]; [done|].
    destruct (unitMatches ic c x); [|done].
    rewrite IH. destruct (stripLiteral ic w s); [|done].
    simpl. by rewrite prevAfter_cons.
Qed.

Lemma stripLiteral_Some w s rest :
  stripLiteral ic w s = Some rest ↔
  ∃ mid, s = mid ++ rest ∧ Forall2 (λ c x, unitMatches ic c x = true) w mid.
Proof.
  revert s. induction w as [|c w IH]; intros s; simpl.
  - split.
    + intros [= ->]. exists []. split; [done|constructor].
    + intros (mid & -> & Hf). apply Forall2_nil_inv_l in Hf. by subst.
  - destruct s as [|x s].
    + split; [done|]. intros (mid & Hs & Hf).
      apply Forall2_cons_inv_l in Hf as (y & mid' & _ & _ & ->). done.
    + destruct (unitMatches ic c x) eqn:E.
      * rewrite IH. split.
        -- intros (mid & -> & Hf). exists (x :: mid). split; [done|].
           by constructor.
        -- intros (mid & Hs & Hf).
           apply Forall2_cons_inv_l in Hf as (y & mid' & Hy & Hf & ->).
           simpl in Hs. injection Hs as -> ->. by exists mid'.
      * split; [done|]. intros (mid & Hs & Hf).
        apply Forall2_cons_inv_l in Hf as (y & mid' & Hy & Hf & ->).
        simpl in Hs. injection Hs as -> ->. congruence.
Qed.

Lemma execFrom_Some r prev s from rest :
  execFrom ic r prev s = Some (from, rest) →
  ∃ pre, s = pre ++ from ∧ matchHere ic r (prevAfter prev pre) from = Some rest.
Proof.
  revert prev. induction s as [|x s IH]; intros prev; simpl.
  - destruct (matchHere ic r prev []) eqn:E; [|done].
    intros [= <- <-]. by exists [].
  - destruct (matchHere ic r prev (x :: s)) eqn:E.
    + intros [= <- <-]. by exists [].
    + intros (pre & -> & Hm)%IH. exists (x :: pre). split; [done|].
      by rewrite prevAfter_cons.
Qed.

Lemma execFrom_complete r prev pre from :
  is_Some (matchHere ic r (prevAfter prev pre) from) →
  is_Some (execFrom ic r prev (pre ++ from)).
Proof.
  revert prev. induction pre as [|x pre IH]; intros prev Hm; simpl.
  - rewrite prevAfter_nil in Hm. destruct from as [|y from]; simpl.
    + destruct Hm as [rest ->]. done.
    + destruct Hm as [rest ->]. done.
  - destruct (matchHere ic r prev (x :: pre ++ from)); [done|].
    apply IH. by rewrite prevAfter_cons in Hm.
Qed.

Lemma execFrom_None r prev s :
  execFrom ic r prev s = None ↔
  ∀ pre from, s = pre ++ from → matchHere ic r (prevAfter prev pre) from = None.
Proof.
  split.
  - intros Hn pre from ->.
    destruct (matchHere ic r (prevAfter prev pre) from) eqn:E; [|done].
    destruct (execFrom_complete r prev pre from) as [? Hs]; [by rewrite E|].
    congruence.
  - intros Hall. destruct (execFrom ic r prev s) as [[from rest]|] eqn:E; [|done].
    apply execFrom_Some in E as (pre & -> & Hm).
    rewrite (Hall pre from eq_refl) in Hm. done.
Qed.
End MatcherFacts.

(** ** Rule compilation: escaping makes every unit of a word a literal *)

Lemma parsePattern_escapeRegex w rest r :
  parsePattern rest = Some r →
  parsePattern (escapeRegex w ++ rest) = Some (literalThen w r).
Proof.
  intros Hrest. induction w as [|c w IH]; [done|].
  simpl. destruct (isSyntaxChar c) eqn:Hc; simpl.
  - rewrite Hc. destruct (c =? 98) eqn:Hb.
    + apply N.eqb_eq in Hb. subst c. by vm_compute in Hc.
    + by rewrite IH.
  - rewrite Hc. destruct (c =? BACKSLASH) eqn:Hb.
    + apply N.eqb_eq in Hb. subst c. by vm_compute in Hc.
    + by rewrite IH.
Qed.

Lemma RegExp_new_wordBounded w :
  RegExp_new (wordBoundedSource w) true false = Some (wordRegExp w).
Proof.
  unfold RegExp_new, wordBoundedSource. simpl.
  rewrite (parsePattern_escapeRegex w [BACKSLASH; 98] (RSeq RWordBoundary REmpty));
    done.
Qed.

Lemma RegExp_new_escaped p :
  RegExp_new (escapeRegex p) true false = Some (substringRegExp p).
Proof.
  unfold RegExp_new.
  rewrite <- (app_nil_r (escapeRegex p)).
  by rewrite (parsePattern_escapeRegex p [] REmpty).
Qed.

Lemma mapM_total {A B} (f : A → option B) (g : A → B) (l : list A) :
  (∀ x, f x = Some (g x)) → mapM f l = Some (g <$> l).
Proof.
  intros Hf. induction l as [|x l IH]; [done|].
  simpl. rewrite Hf. simpl. by rewrite IH.
Qed.

(** Compilation never fails, whatever the configured strings contain. *)
Lemma buildDetectors_total config :
  buildDetectors config = Some (compiledDetectors config).
Proof.
  unfold buildDetectors.
  rewrite (mapM_total _ (λ t, {| term := t; termRegex := wordRegExp t |})).
  2: { intros t. by rewrite RegExp_new_wordBounded. }
  simpl.
  rewrite (mapM_total _
    (λ p, {| exceptionPattern := p; exceptionRegex := substringRegExp p |})).
  2: { intros p. by rewrite RegExp_new_escaped. }
  simpl.
  rewrite (mapM_total _ (λ w, {| keyword := w; keywordRegex := wordRegExp w |})).
  2: { intros w. by rewrite RegExp_new_wordBounded. }
  done.
Qed.

(** ** What the compiled matchers accept *)

Section Occurrences.
Context `{UnicodeCase}.

Lemma prevAfter_None l : prevAfter None l = last l.
Proof. unfold prevAfter. by destruct (last l). Qed.

Lemma sameIgnoringCase_unitMatches w mid :
  sameIgnoringCase w mid ↔ Forall2 (λ c x, unitMatches true c x = true) w mid.
Proof.
  unfold sameIgnoringCase, unitMatches.
  split; intros Hf; eapply Forall2_impl; try apply Hf;
    intros x y; by rewrite N.eqb_eq.
Qed.

Lemma sameIgnoringCase_refl w : sameIgnoringCase w w.
Proof. induction w as [|c w IH]; by constructor. Qed.

Lemma test_substringRegExp p text :
  RegExp_test (substringRegExp p) text = true ↔ containsIgnoringCase p text.
Proof.
  unfold RegExp_test. rewrite bool_decide_eq_true. simpl. split.
  - intros [[from rest] Hex].
    apply execFrom_Some in Hex as (pre & -> & Hm).
    unfold matchHere in Hm. rewrite matcher_literalThen in Hm.
    destruct (stripLiteral true p from) as [rest'|] eqn:Hs; [|done].
    apply stripLiteral_Some in Hs as (mid & -> & Hf).
    exists pre, mid, rest'. split; [done|].
    by apply sameIgnoringCase_unitMatches.
  - intros (pre & mid & post & -> & Hsame).
    apply execFrom_complete. unfold matchHere. rewrite matcher_literalThen.
    assert (stripLiteral true p (mid ++ post) = Some post) as ->; [|done].
    apply stripLiteral_Some. exists mid. split; [done|].
    by apply sameIgnoringCase_unitMatches.
Qed.

Lemma matchHere_wordRegExp w prev s :
  matchHere true (pattern (wordRegExp w)) prev s
  = if atWordBoundary prev s then
      match stripLiteral true w s with
      | Some rest =>
          if atWordBoundary (prevAfter prev (take (length w) s)) rest
          then Some rest else None
      | None => None
      end
    else None.
Proof.
  unfold matchHere. simpl. destruct (atWordBoundary prev s); [|done].
  rewrite matcher_literalThen. by destruct (stripLiteral true w s).
Qed.

Lemma test_wordRegExp w text :
  RegExp_test (wordRegExp w) text = true ↔ occursBetweenBoundaries w text.
Proof.
  unfold RegExp_test. rewrite bool_decide_eq_true. split.
  - intros [[from rest] Hex].
    apply execFrom_Some in Hex as (pre & -> & Hm).
    rewrite matchHere_wordRegExp in Hm.
    destruct (atWordBoundary (prevAfter None pre) from) eqn:Hb1; [|done].
    destruct (stripLiteral true w from) as [rest'|] eqn:Hs; [|done].
    apply stripLiteral_Some in Hs as (mid & -> & Hf).
    destruct (atWordBoundary _ rest') eqn:Hb2; [|done].
    exists pre, mid, rest'. rewrite prevAfter_None in Hb1.
    split_and!; [done|by apply sameIgnoringCase_unitMatches|done|].
    apply Forall2_length in Hf as Hlen.
    rewrite Hlen, take_app_length in Hb2.
    by rewrite <- prevAfter_app, prevAfter_None in Hb2.
  - intros (pre & mid & post & -> & Hsame & Hb1 & Hb2).
    apply execFrom_complete. rewrite matchHere_wordRegExp.
    rewrite <- prevAfter_None in Hb1.
    rewrite <- prevAfter_None, prevAfter_app in Hb2.
    rewrite Hb1.
    apply sameIgnoringCase_unitMatches in Hsame.
    assert (stripLiteral true w (mid ++ post) = Some post) as ->.
    { apply stripLiteral_Some. by exists mid. }
    apply Forall2_length in Hsame as Hlen.
    by rewrite Hlen, take_app_length, Hb2.
Qed.

(** A unit that matches a word character up to case is a word character. *)
Lemma isWordChar_sameCase x y :
  Canonicalize true x = Canonicalize true y →
  isWordChar x = true → isWordChar y = true.
Proof.
  intros Heq Hx. pose proof (isWordChar_ascii x Hx) as Hx128.
  rewrite (Canonicalize_simple x (simpleUnit_ascii x Hx128)) in Heq.
  pose proof (asciiUpper_ascii x Hx128) as Hux.
  destruct (N.lt_ge_cases y 128) as [Hy|Hy].
  - rewrite (Canonicalize_simple y (simpleUnit_ascii y Hy)) in Heq.
    by rewrite <- isWordChar_asciiUpper, <- Heq, isWordChar_asciiUpper.
  - pose proof (Canonicalize_nonascii true y Hy). lia.
Qed.

Lemma wordEdged_sameCase w mid :
  sameIgnoringCase w mid → wordEdged w → wordEdged mid.
Proof.
  intros Hsame [Hh Hl]. split.
  - destruct w as [|c w]; [done|].
    apply Forall2_cons_inv_l in Hsame as (x & mid' & Hx & _ & ->).
    simpl in *. by apply (isWordChar_sameCase c x).
  - destruct (last w) as [c|] eqn:Hlast; [|done].
    apply last_Some in Hlast as [w' ->].
    apply Forall2_app_inv_l in Hsame as (mid1 & mid2 & _ & Hf & ->).
    apply Forall2_cons_inv_l in Hf as (x & mid3 & Hx & Hnil & ->).
    apply Forall2_nil_inv_l in Hnil as ->.
    rewrite last_snoc. simpl in *. by apply (isWordChar_sameCase c x).
Qed.

(** For a word that begins and ends with a word character, occurring as a
    whole word is the same as occurring between two word boundaries. *)
Lemma containsWholeWord_boundaries w text :
  wordEdged w →
  containsWholeWord w text ↔ occursBetweenBoundaries w text.
Proof.
  intros Hw. split.
  - intros (pre & mid & post & -> & Hsame & Hpre & Hpost).
    destruct (wordEdged_sameCase w mid Hsame Hw) as [Hh Hl].
    exists pre, mid, post. split_and!; [done..| |].
    + unfold atWordBoundary. rewrite Hpre.
      destruct mid as [|x mid]; [done|]. simpl in *. by rewrite Hh.
    + unfold atWordBoundary. rewrite Hpost.
      destruct (last mid) as [x|] eqn:Hlast; [|done].
      apply last_Some in Hlast as [mid' ->].
      rewrite app_assoc, last_snoc.
      simpl in *. by rewrite Hl.
  - intros (pre & mid & post & -> & Hsame & Hb1 & Hb2).
    destruct (wordEdged_sameCase w mid Hsame Hw) as [Hh Hl].
    exists pre, mid, post. split_and!; [done..| |].
    + unfold atWordBoundary in Hb1.
      destruct mid as [|x mid]; [done|]. simpl in *.
      rewrite Hh in Hb1. by destruct (isWordCharAt (last pre)).
    + unfold atWordBoundary in Hb2.
      destruct (last mid) as [x|] eqn:Hlast; [|done].
      apply last_Some in Hlast as [mid' ->].
      rewrite app_assoc, last_snoc in Hb2.
      simpl in *. rewrite Hl in Hb2. by destruct (isWordCharAt (head post)).
Qed.

(** No pattern with word boundaries matches the empty text. *)
Lemma test_wordRegExp_empty w : RegExp_test (wordRegExp w) [] = false.
Proof.
  apply not_true_iff_false. rewrite test_wordRegExp.
  intros (pre & mid & post & Htext & _ & Hb & _).
  symmetry in Htext. apply app_eq_nil in Htext as [-> Htext].
  by rewrite Htext in Hb.
Qed.
End Occurrences.

(** ** What a successful match has consumed *)

Section Accepts.
Context `{UnicodeCase}.
Variable ic : bool.

Lemma repeatMatcher_sound members : ∀ s min max prev (k : Cont) res,
  repeatMatcher ic members min max prev s k = Some res →
  ∃ mid s1, s = mid ++ s1 ∧ k (prevAfter prev mid) s1 = Some res ∧
            accepts ic (RRepeat members min max) mid.
Proof.
  assert (∀ s min max prev (k : Cont) res,
    match min with O => k prev s | S _ => None end = Some res →
    ∃ mid s1, s = mid ++ s1 ∧ k (prevAfter prev mid) s1 = Some res ∧
              accepts ic (RRepeat members min max) mid) as Hstop.
  { intros s min max prev k res Hk. destruct min as [|min]; [|done].
    exists [], s. split; [done|]. split; [done|]. simpl.
    split_and!; [constructor|lia|intros; lia]. }
  induction s as [|x s IH]; intros min max prev k res; simpl.
  - apply Hstop.
  - destruct (classMatches ic members x && maxAllows max) eqn:E;
      [|apply Hstop].
    apply andb_true_iff in E as [Hx Hmax].
    destruct (repeatMatcher ic members (pred min) (pred <$> max) (Some x) s k)
      as [r|] eqn:Hrec; [|apply Hstop].
    intros [= ->].
    apply IH in Hrec as (mid & s1 & -> & Hk & Hf & Hmin & Hmx).
    exists (x :: mid), s1. rewrite prevAfter_cons.
    split; [done|]. split; [done|]. simpl. split_and!.
    + by constructor.
    + lia.
    + intros n ->. destruct n as [|n]; [simpl in Hmax; done|].
      specialize (Hmx n eq_refl). lia.
Qed.

Lemma matcher_sound r : ∀ prev s (k : Cont) res,
  matcher ic r prev s k = Some res →
  ∃ mid s1, s = mid ++ s1 ∧ k (prevAfter prev mid) s1 = Some res ∧
            accepts ic r mid.
Proof.
  induction r as [|c|members| |r1 IH1 r2 IH2|r1 IH1|members min max];
    intros prev s k res; simpl.
  - intros Hk. by exists [], s.
  - destruct s as [|x s]; [done|].
    destruct (unitMatches ic c x) eqn:E; [|done].
    intros Hk. exists [x], s. split_and!; [done..|]. by exists x.
  - destruct s as [|x s]; [done|].
    destruct (classMatches ic members x) eqn:E; [|done].
    intros Hk. exists [x], s. split_and!; [done..|]. by exists x.
  - destruct (atWordBoundary prev s); [|done].
    intros Hk. by exists [], s.
  - intros (m1 & s1 & -> & Hk1 & Ha1)%IH1.
    apply IH2 in Hk1 as (m2 & s2 & -> & Hk2 & Ha2).
    exists (m1 ++ m2), s2. rewrite prevAfter_app, app_assoc.
    split_and!; [done..|]. by exists m1, m2.
  - destruct (matcher ic r1 prev s k) as [r|] eqn:E.
    + intros [= ->]. apply IH1 in E as (mid & s1 & -> & Hk & Ha).
      exists mid, s1. split_and!; [done..|]. by right.
    + intros Hk. exists [], s. split_and!; [done..|]. by left.
  - apply repeatMatcher_sound.
Qed.

Lemma matchHere_sound r prev s rest :
  matchHere ic r prev s = Some rest →
  ∃ mid, s = mid ++ rest ∧ matchedText s rest = mid ∧ accepts ic r mid.
Proof.
  intros (mid & s1 & -> & [= ->] & Ha)%matcher_sound.
  exists mid. split_and!; [done| |done].
  unfold matchedText. rewrite length_app.
  replace (length mid + length rest - length rest)%nat with (length mid) by lia.
  by rewrite take_app_length.
Qed.

(** Every element [String.prototype.match] returns is the text of a match
    that starts somewhere in the input. *)
Lemma matchAllFuel_elem fuel r : ∀ prev s m,
  m ∈ matchAllFuel ic fuel r prev s →
  ∃ pre post, s = pre ++ m ++ post ∧ accepts ic r m.
Proof.
  induction fuel as [|fuel IH]; intros prev s m; simpl.
  - by intros ?%elem_of_nil.
  - destruct (execFrom ic r prev s) as [[from rest]|] eqn:Hex;
      [|by intros ?%elem_of_nil].
    apply execFrom_Some in Hex as (pre & -> & Hm).
    apply matchHere_sound in Hm as (mid & -> & Htext & Hacc).
    rewrite Htext.
    destruct mid as [|x mid].
    + intros [->|Hin]%elem_of_cons.
      * by exists pre, rest.
      * destruct rest as [|y rest]; [by apply elem_of_nil in Hin|].
        apply IH in Hin as (pre' & post' & -> & Ha).
        exists (pre ++ y :: pre'), post'. split; [|done].
        by rewrite <- !app_assoc.
    + intros [->|Hin]%elem_of_cons.
      * by exists pre, rest.
      * apply IH in Hin as (pre' & post' & -> & Ha).
        exists (pre ++ (x :: mid) ++ pre'), post'. split; [|done].
        by rewrite <- !app_assoc.
Qed.

Lemma matchAllFuel_nonempty fuel r prev s :
  matchAllFuel ic (S fuel) r prev s ≠ [] ↔ is_Some (execFrom ic r prev s).
Proof.
  simpl. destruct (execFrom ic r prev s) as [[from rest]|].
  - split; [by eexists|]. intros _. by destruct (matchedText from rest).
  - split; [done|]. by intros [? ?].
Qed.

(** A pattern that is one character class: the matches are the units of
    the class, in order. *)
Lemma matchAllFuel_class members : ∀ s fuel prev,
  (length s < fuel)%nat →
  matchAllFuel ic fuel (RClass members) prev s
  = (λ x, [x]) <$> List.filter (classMatches ic members) s.
Proof.
  induction s as [|x s IH]; intros fuel prev Hfuel.
  - destruct fuel as [|fuel]; [simpl in Hfuel; lia|]. done.
  - destruct fuel as [|fuel]; [simpl in Hfuel; lia|].
    simpl in Hfuel.
    destruct (classMatches ic members x) eqn:E.
    + simpl. unfold matchHere. simpl. rewrite E.
      unfold matchedText. simpl.
      replace (S (length s) - length s)%nat with 1%nat by lia.
      simpl. f_equal. apply IH. lia.
    + specialize (IH (S fuel) (Some x)). simpl in IH.
      simpl. unfold matchHere at 1. simpl. rewrite E.
      apply IH. lia.
Qed.
End Accepts.

(** ** Sets in insertion order *)

Lemma elem_of_foldl_Set_add x l : ∀ acc,
  x ∈ foldl Set_add acc l ↔ x ∈ acc ∨ x ∈ l.
Proof.
  induction l as [|y l IH]; intros acc; simpl.
  - rewrite elem_of_nil. tauto.
  - rewrite IH, elem_of_cons. unfold Set_add.
    destruct (bool_decide (y ∈ acc)) eqn:E.
    + apply bool_decide_eq_true in E. split; [tauto|].
      intros [?|[->|?]]; tauto.
    + rewrite elem_of_app, list_elem_of_singleton. tauto.
Qed.

Lemma NoDup_foldl_Set_add l : ∀ acc, NoDup acc → NoDup (foldl Set_add acc l).
Proof.
  induction l as [|y l IH]; intros acc Hacc; simpl; [done|].
  apply IH. unfold Set_add.
  destruct (bool_decide (y ∈ acc)) eqn:E; [done|].
  apply bool_decide_eq_false in E.
  apply NoDup_app. split_and!; [done| |apply NoDup_singleton].
  intros z Hz ->%list_elem_of_singleton. done.
Qed.

Lemma elem_of_Set_of x l : x ∈ Set_of l ↔ x ∈ l.
Proof.
  unfold Set_of. rewrite elem_of_foldl_Set_add, elem_of_nil. tauto.
Qed.

Lemma NoDup_Set_of l : NoDup (Set_of l).
Proof. apply NoDup_foldl_Set_add. constructor. Qed.

Lemma nonEmpty_spec {A} (l : list A) : nonEmpty l = true ↔ l ≠ [].
Proof. by destruct l. Qed.

Lemma nonEmpty_elem {A} (l : list A) : nonEmpty l = true ↔ ∃ x, x ∈ l.
Proof.
  rewrite nonEmpty_spec. destruct l as [|x l].
  - split; [done|]. by intros [x ?%elem_of_nil].
  - split; [|done]. intros _. exists x. by left.
Qed.

Lemma nonEmpty_Set_of l : nonEmpty (Set_of l) = nonEmpty l.
Proof.
  apply eq_true_iff_eq. rewrite !nonEmpty_elem.
  by setoid_rewrite elem_of_Set_of.
Qed.

Lemma elem_of_filter_fmap {A B} (g : A → B) (f : A → bool) (l : list A) y :
  y ∈ g <$> List.filter f l ↔ ∃ x, x ∈ l ∧ f x = true ∧ y = g x.
Proof.
  rewrite list_elem_of_fmap. split.
  - intros (x & -> & Hx). apply list_elem_of_In, filter_In in Hx as [Hx Hf].
    exists x. by rewrite list_elem_of_In.
  - intros (x & Hx & Hf & ->). exists x. split; [done|].
    apply list_elem_of_In, filter_In. by rewrite <- list_elem_of_In.
Qed.

(** ** The classifier on compiled detectors *)

Lemma filter_fmap_section {A B} (h : A → B) (g : B → A) (f : B → bool) (l : list A) :
  (∀ x, g (h x) = x) →
  g <$> List.filter f (h <$> l) = List.filter (λ x, f (h x)) l.
Proof.
  intros Hg. induction l as [|x l IH]; [done|].
  simpl. destruct (f (h x)); simpl; [rewrite Hg; f_equal|]; apply IH.
Qed.

Lemma filter_none {A} (f : A → bool) (l : list A) :
  (∀ x, f x = false) → List.filter f l = [].
Proof.
  intros Hf. induction l as [|x l IH]; [done|]. simpl. by rewrite Hf.
Qed.

Section Classifier.
Context `{UnicodeCase}.

Lemma detectContent_compiled content config :
  detectContent content (compiledDetectors config) config
  = if nonEmpty (exceptionHits config content) then emptyDetection
    else
      let types :=
        (if nonEmpty (termHits config content) then [WORD_MATCH] else []) ++
        (if nonEmpty (priceSignals config content) then [PRICE_PATTERN] else []) in
      {| triggered := nonEmpty types;
         matchedTerms := Set_of (termHits config content);
         matchedPriceSignals := Set_of (priceSignals config content);
         triggerTypes := types |}.
Proof.
  unfold detectContent, compiledDetectors. simpl.
  rewrite (filter_fmap_section
             (λ p, {| exceptionPattern := p; exceptionRegex := substringRegExp p |})
             exceptionPattern); [|done].
  rewrite (filter_fmap_section
             (λ t, {| term := t; termRegex := wordRegExp t |}) term); [|done].
  rewrite (filter_fmap_section
             (λ w, {| keyword := w; keywordRegex := wordRegExp w |}) keyword);
    [|done].
  simpl. fold (exceptionHits config content).
  destruct (nonEmpty (exceptionHits config content)); [done|].
  fold (termHits config content). fold (keywordHits config content).
  fold (priceSignals config content).
  by rewrite !nonEmpty_Set_of.
Qed.

Lemma exceptionHits_spec config content :
  nonEmpty (exceptionHits config content) = true ↔ exceptionMatches config content.
Proof.
  rewrite nonEmpty_elem. unfold exceptionHits, exceptionMatches. split.
  - intros [p [Hp Ht]%list_elem_of_In%filter_In].
    exists p. split; [by apply list_elem_of_In|]. by apply test_substringRegExp.
  - intros (p & Hp & Hc). exists p. apply list_elem_of_In, filter_In.
    split; [by apply list_elem_of_In|]. by apply test_substringRegExp.
Qed.

Lemma elem_of_termHits t config content :
  t ∈ termHits config content ↔
  t ∈ restrictedTerms config ∧ occursBetweenBoundaries t content.
Proof.
  unfold termHits.
  by rewrite list_elem_of_In, filter_In, <- list_elem_of_In, test_wordRegExp.
Qed.

Lemma elem_of_keywordHits w config content :
  w ∈ keywordHits config content ↔
  w ∈ priceKeywords config ∧ occursBetweenBoundaries w content.
Proof.
  unfold keywordHits.
  by rewrite list_elem_of_In, filter_In, <- list_elem_of_In, test_wordRegExp.
Qed.

Lemma WORD_MATCH_neq_PRICE_PATTERN : WORD_MATCH ≠ PRICE_PATTERN.
Proof. by vm_compute. Qed.

(** The trigger types, read off the two collections. *)
Lemma triggerTypes_spec (terms signals : list jsstring) :
  let types := (if nonEmpty terms then [WORD_MATCH] else []) ++
               (if nonEmpty signals then [PRICE_PATTERN] else []) in
  (nonEmpty types = true ↔ terms ≠ [] ∨ signals ≠ []) ∧
  (WORD_MATCH ∈ types ↔ terms ≠ []) ∧
  (PRICE_PATTERN ∈ types ↔ signals ≠ []).
Proof.
  pose proof WORD_MATCH_neq_PRICE_PATTERN as Hne.
  destruct terms as [|t terms], signals as [|s signals]; simpl;
    rewrite ?elem_of_cons, ?elem_of_nil;
    intuition congruence.
Qed.
End Classifier.

(** ** Configurations over simple units behave alike in every runtime *)

Lemma simpleRegex_literalThen w r :
  simpleRegex (literalThen w r) = simpleString w && simpleRegex r.
Proof.
  induction w as [|c w IH]; [done|]. simpl. by rewrite IH, andb_assoc.
Qed.

Lemma filter_ext_in {A} (f g : A → bool) (l : list A) :
  (∀ x, x ∈ l → f x = g x) → List.filter f l = List.filter g l.
Proof.
  induction l as [|x l IH]; intros Hfg; [done|].
  simpl. rewrite (Hfg x) by by left.
  rewrite IH; [done|]. intros y Hy. apply Hfg. by right.
Qed.

Lemma forallb_elem {A} (f : A → bool) (l : list A) x :
  forallb f l = true → x ∈ l → f x = true.
Proof.
  rewrite forallb_forall. intros Hall Hx. by apply Hall, list_elem_of_In.
Qed.

Section Independence.
Context `{UnicodeCase}.

Lemma RegExp_test_simple re content :
  simpleRegex (pattern re) = true →
  RegExp_test re content = @RegExp_test asciiCase re content.
Proof.
  intros Hre. unfold RegExp_test. by rewrite (execFrom_simple _ _ _ _ Hre).
Qed.

Lemma String_matchAll_simple re content :
  simpleRegex (pattern re) = true →
  String_matchAll re content = @String_matchAll asciiCase re content.
Proof.
  intros Hre. unfold String_matchAll. by apply matchAllFuel_simple.
Qed.

Lemma test_wordRegExp_simple w content :
  simpleString w = true →
  RegExp_test (wordRegExp w) content = @RegExp_test asciiCase (wordRegExp w) content.
Proof.
  intros Hw. apply RegExp_test_simple. simpl.
  by rewrite simpleRegex_literalThen, Hw.
Qed.

Lemma test_substringRegExp_simple p content :
  simpleString p = true →
  RegExp_test (substringRegExp p) content
  = @RegExp_test asciiCase (substringRegExp p) content.
Proof.
  intros Hp. apply RegExp_test_simple. simpl.
  by rewrite simpleRegex_literalThen, Hp.
Qed.

Lemma detectContent_simple content config :
  simpleConfig config = true →
  detectContent content (compiledDetectors config) config
  = @detectContent asciiCase content (compiledDetectors config) config.
Proof.
  intros [[Ht He]%andb_true_iff Hk]%andb_true_iff.
  rewrite detectContent_compiled, (@detectContent_compiled asciiCase).
  assert (exceptionHits config content = @exceptionHits asciiCase config content)
    as ->.
  { apply filter_ext_in. intros p Hp.
    apply test_substringRegExp_simple. by apply (forallb_elem _ _ _ He). }
  assert (termHits config content = @termHits asciiCase config content) as ->.
  { apply filter_ext_in. intros t Hin.
    apply test_wordRegExp_simple. by apply (forallb_elem _ _ _ Ht). }
  assert (priceSignals config content = @priceSignals asciiCase config content)
    as ->; [|done].
  unfold priceSignals. destruct (enablePricePattern config); [|done].
  rewrite (String_matchAll_simple symbolAmountRegExp) by done.
  rewrite (String_matchAll_simple rawSymbolRegExp) by done.
  do 2 f_equal. apply filter_ext_in. intros w Hin.
  apply test_wordRegExp_simple. by apply (forallb_elem _ _ _ Hk).
Qed.
End Independence.

(** ** Exceptions override every positive match *)

(** C1. If a configured exception pattern is a case-insensitive substring of
    the text, the verdict is not triggered and its three collections are
    empty, whatever restricted terms and price signals the text contains. *)
Theorem exception_overrides_matches `{UnicodeCase} config detectors content :
  buildDetectors config = Some detectors →
  exceptionMatches config content →
  let verdict := detectContent content detectors config in
  triggered verdict = false ∧ matchedTerms verdict = [] ∧
  matchedPriceSignals verdict = [] ∧ triggerTypes verdict = [].
Proof.
  intros Hbuild Hexc.
  rewrite buildDetectors_total in Hbuild. injection Hbuild as <-.
  apply exceptionHits_spec in Hexc.
  cbv zeta. rewrite detectContent_compiled, Hexc. done.
Qed.

Lemma exception_overrides_witness :
  let config := @withRules asciiCase [js "sell"] [js "wholesale"] [js "usd"] in
  let verdict :=
    @detectContent asciiCase (js "We SELL Wholesale, $5 usd")
      (compiledDetectors config) config in
  triggered verdict = false ∧ matchedTerms verdict = [] ∧
  matchedPriceSignals verdict = [] ∧ triggerTypes verdict = [].
Proof.
  apply (@exception_overrides_matches asciiCase).
  - apply buildDetectors_total.
  - exists (js "wholesale"). split; [by left|].
    exists (js "We SELL "), (js "Wholesale"), (js ", $5 usd").
    split; [reflexivity|].
    repeat (constructor; [vm_compute; reflexivity|]). constructor.
Defined.

(** ** Verdict assembly and restricted terms *)

(** The restricted term [c++] does not match the message [c++]: the
    pattern asks for a word boundary after the last [+], and there is none
    between [+] and the end of the text. *)
Lemma whole_word_counterexample :
  ¬ ∃ U : UnicodeCase,
      @wholeWordTriggers U (@withRules U [js "c++"] [] []) (js "c++").
Proof.
  intros [U Hclaim].
  specialize (Hclaim (compiledDetectors (withRules [js "c++"] [] [])) (js "c++")).
  rewrite (@detectContent_simple U) in Hclaim by done.
  assert (WORD_MATCH ∈ @nil (list N)) as Habs; [|by apply elem_of_nil in Habs].
  apply Hclaim.
  - apply buildDetectors_total.
  - intros (p & Hp & _). by apply elem_of_nil in Hp.
  - by left.
  - exists [], (js "c++"), []. split_and!; [done| |done..].
    apply sameIgnoringCase_refl.
Qed.

(** C2 (amended). The verdict is triggered iff one of the two collections is
    non-empty, each trigger type is present iff its collection is
    non-empty, and, when no exception matches, every configured restricted
    term that begins and ends with an ASCII letter, a digit or the
    underscore and occurs as a whole word (case-insensitively, with no such
    character directly before or after it) yields a word match. *)
Theorem verdict_assembly `{UnicodeCase} config detectors content :
  buildDetectors config = Some detectors →
  let verdict := detectContent content detectors config in
  (triggered verdict = true ↔
     matchedTerms verdict ≠ [] ∨ matchedPriceSignals verdict ≠ []) ∧
  (WORD_MATCH ∈ triggerTypes verdict ↔ matchedTerms verdict ≠ []) ∧
  (PRICE_PATTERN ∈ triggerTypes verdict ↔ matchedPriceSignals verdict ≠ []) ∧
  (¬ exceptionMatches config content →
   ∀ t, t ∈ restrictedTerms config → wordEdged t →
        containsWholeWord t content →
        WORD_MATCH ∈ triggerTypes verdict).
Proof.
  intros Hbuild.
  rewrite buildDetectors_total in Hbuild. injection Hbuild as <-.
  cbv zeta. rewrite detectContent_compiled.
  destruct (nonEmpty (exceptionHits config content)) eqn:Hexc.
  - apply exceptionHits_spec in Hexc. simpl.
    rewrite !elem_of_nil. split_and!; [intuition congruence..|].
    intros Hno. by destruct Hno.
  - pose proof (triggerTypes_spec (termHits config content)
                  (priceSignals config content)) as (Htrig & Hword & Hprice).
    cbv zeta in Htrig, Hword, Hprice. simpl.
    assert (∀ l : list (list N), Set_of l ≠ [] ↔ l ≠ []) as Hset.
    { intros l. by rewrite <- !nonEmpty_spec, nonEmpty_Set_of. }
    rewrite !Hset. split_and!; [done..|].
    intros _ t Ht Hedge Hocc. apply Hword.
    assert (t ∈ termHits config content) as Hin.
    { apply elem_of_termHits. split; [done|].
      by apply containsWholeWord_boundaries. }
    intros Hnil. rewrite Hnil in Hin. by apply elem_of_nil in Hin.
Qed.

Lemma verdict_assembly_witness :
  let config := @withRules asciiCase [js "sell"] [] [js "usd"] in
  let verdict :=
    @detectContent asciiCase (js "I want to Sell my card")
      (compiledDetectors config) config in
  (triggered verdict = true ↔
     matchedTerms verdict ≠ [] ∨ matchedPriceSignals verdict ≠ []) ∧
  (WORD_MATCH ∈ triggerTypes verdict ↔ matchedTerms verdict ≠ []) ∧
  (PRICE_PATTERN ∈ triggerTypes verdict ↔ matchedPriceSignals verdict ≠ []) ∧
  WORD_MATCH ∈ triggerTypes verdict.
Proof.
  pose proof (@verdict_assembly asciiCase
                (@withRules asciiCase [js "sell"] [] [js "usd"])
                (compiledDetectors (@withRules asciiCase [js "sell"] [] [js "usd"]))
                (js "I want to Sell my card")
                (buildDetectors_total _)) as (H1 & H2 & H3 & H4).
  split_and!; [exact H1|exact H2|exact H3|].
  apply (H4 (λ '(ex_intro _ p (conj Hp _)), proj1 (elem_of_nil p) Hp)
            (js "sell")).
  - by left.
  - by split.
  - exists (js "I want to "), (js "Sell"), (js " my card").
    split_and!; [reflexivity| |reflexivity..].
    repeat (constructor; [vm_compute; reflexivity|]). constructor.
Defined.

(** ** Price signals *)

Lemma caselessUnit_asciiLower c : caselessUnit c = true → asciiLower c = c.
Proof.
  unfold caselessUnit, asciiLower.
  intros [[_ Hu]%andb_true_iff _]%andb_true_iff.
  by apply negb_true_iff in Hu as ->.
Qed.

Lemma caselessUnit_simple c : caselessUnit c = true → simpleUnit c = true.
Proof.
  unfold caselessUnit. by intros [[Hs _]%andb_true_iff _]%andb_true_iff.
Qed.

Lemma asciiUpper_caseless_inv a x :
  caselessUnit a = true → asciiUpper a = asciiUpper x → x = a.
Proof.
  unfold caselessUnit, asciiUpper.
  intros [[_ Hu%negb_true_iff]%andb_true_iff Hl%negb_true_iff]%andb_true_iff.
  rewrite Hl. destruct (inRange 97 122 x) eqn:E; [|done].
  apply inRange_spec in E. intros ->.
  apply not_true_iff_false in Hu. destruct Hu. apply inRange_spec. lia.
Qed.

Section PriceSignals.
Context `{UnicodeCase}.

Lemma classMatches_exact members x :
  classMatches false members x = true ↔ x ∈ members.
Proof.
  unfold classMatches. rewrite existsb_exists. split.
  - intros (a & Ha & Hx). unfold unitMatches in Hx.
    rewrite !Canonicalize_exact in Hx. apply N.eqb_eq in Hx as <-.
    by apply list_elem_of_In.
  - intros Hx. exists x. split; [by apply list_elem_of_In|].
    apply unitMatches_refl.
Qed.

(** A class of caseless units matches exactly its members, also when
    letter case is ignored. *)
Lemma classMatches_caseless ic members x :
  forallb caselessUnit members = true →
  classMatches ic members x = true ↔ x ∈ members.
Proof.
  intros Hm. split.
  - rewrite classMatches_simple.
    2: { apply forallb_forall. intros a Ha. apply caselessUnit_simple.
         by apply (forallb_elem _ _ _ Hm), list_elem_of_In. }
    destruct ic.
    + unfold classMatches. rewrite existsb_exists.
      intros (a & Ha & Hx). apply list_elem_of_In in Ha.
      unfold unitMatches in Hx. rewrite !Canonicalize_asciiCase in Hx.
      apply N.eqb_eq in Hx.
      apply asciiUpper_caseless_inv in Hx as ->; [done|].
      by apply (forallb_elem _ _ _ Hm).
    + unfold classMatches. rewrite existsb_exists.
      intros (a & Ha & Hx). apply list_elem_of_In in Ha.
      unfold unitMatches, Canonicalize in Hx. simpl in Hx.
      by apply N.eqb_eq in Hx as <-.
  - intros Hx. unfold classMatches. apply existsb_exists.
    exists x. split; [by apply list_elem_of_In|]. apply unitMatches_refl.
Qed.

(** [content.match(/[$£€]/g)]: one match per currency symbol of the text. *)
Lemma rawSymbolMatches_spec content :
  String_matchAll rawSymbolRegExp content
  = (λ x, [x]) <$> List.filter (classMatches false currencyUnits) content.
Proof.
  unfold String_matchAll, rawSymbolRegExp, pattern, ignoreCase.
  apply matchAllFuel_class. lia.
Qed.

Lemma elem_of_rawSymbolMatches c content :
  c ∈ content → c ∈ currencyUnits →
  [c] ∈ String_matchAll rawSymbolRegExp content.
Proof.
  intros Hc Hsym. rewrite rawSymbolMatches_spec.
  apply list_elem_of_fmap. exists c. split; [done|].
  apply list_elem_of_In, filter_In. split; [by apply list_elem_of_In|].
  by apply classMatches_exact.
Qed.

Lemma accepts_digits min max m :
  accepts true (RRepeat digitUnits min max) m →
  Forall (λ d, d ∈ digitUnits) m ∧ (min ≤ length m)%nat ∧
  ∀ n, max = Some n → (length m ≤ n)%nat.
Proof.
  simpl. intros (Hf & Hmin & Hmax). split_and!; [|done..].
  eapply Forall_impl; [exact Hf|]. intros d Hd.
  by apply (classMatches_caseless true digitUnits d).
Qed.

Lemma accepts_symbolAmount m :
  accepts true (pattern symbolAmountRegExp) m → symbolAmountText m.
Proof.
  simpl.
  intros (m1 & m2 & -> & (sym & -> & Hsym) &
          (m3 & m4 & -> & Hgap & (m5 & m6 & -> & Hdigits & Hfrac))).
  apply (classMatches_caseless true currencyUnits sym) in Hsym; [|done].
  apply accepts_digits in Hdigits as (Hd & Hlen & _).
  exists sym, m3, m5, m6. split_and!; [done..| | | |].
  - destruct Hgap as [->|(ws & -> & Hws)]; [by left|]. right.
    exists ws. split; [|done].
    by apply (classMatches_caseless true whiteSpaceUnits ws).
  - intros ->. simpl in Hlen. lia.
  - done.
  - destruct Hfrac as [->|(s1 & s2 & -> & (sep & -> & Hsep) & Hds)]; [by left|].
    right. apply accepts_digits in Hds as (Hds & Hmin & Hmax).
    exists sep, s2. split_and!; [done| |done|by apply Hmax|done].
    by apply (classMatches_caseless true [46; 44] sep).
Qed.

Lemma elem_of_symbolAmountMatches m content :
  m ∈ String_matchAll symbolAmountRegExp content →
  symbolAmountText m ∧ ∃ pre post, content = pre ++ m ++ post.
Proof.
  intros (pre & post & -> & Hacc)%matchAllFuel_elem.
  split; [by apply accepts_symbolAmount|]. by exists pre, post.
Qed.

Lemma symbolAmountText_caseless m :
  symbolAmountText m → forallb caselessUnit m = true.
Proof.
  intros (sym & gap & digits & frac & -> & Hsym & Hgap & _ & Hd & Hfrac).
  assert (∀ l, Forall (λ d, d ∈ digitUnits) l → forallb caselessUnit l = true)
    as Hdig.
  { intros l Hl. apply forallb_forall. intros d Hin%list_elem_of_In.
    rewrite Forall_forall in Hl. specialize (Hl d Hin).
    by apply (forallb_elem caselessUnit digitUnits). }
  rewrite !forallb_app. apply andb_true_iff. split; [|apply andb_true_iff; split;
    [|apply andb_true_iff; split]].
  - simpl. rewrite andb_true_r.
    by apply (forallb_elem caselessUnit currencyUnits).
  - destruct Hgap as [->|(ws & Hws & ->)]; [done|].
    simpl. rewrite andb_true_r.
    by apply (forallb_elem caselessUnit whiteSpaceUnits).
  - by apply Hdig.
  - destruct Hfrac as [->|(sep & ds & -> & Hsep & _ & Hds)]; [done|].
    simpl. apply andb_true_iff. split; [|by apply Hdig].
    by apply (forallb_elem caselessUnit [46; 44]).
Qed.

(** Lower-casing leaves a string of caseless units as it is. *)
Lemma toLowerCase_caseless s :
  forallb caselessUnit s = true → toLowerCase s = s.
Proof.
  intros Hs. rewrite toLowerCase_simple.
  - induction s as [|c s IH]; [done|].
    simpl in Hs. apply andb_true_iff in Hs as [Hc Hs].
    rewrite fmap_cons, IH by done. by rewrite caselessUnit_asciiLower.
  - apply forallb_forall. intros c Hc%list_elem_of_In.
    by apply caselessUnit_simple, (forallb_elem _ _ _ Hs).
Qed.
End PriceSignals.

(** ** The match loop has fuel enough *)

Lemma matchAllFuel_enough `{UnicodeCase} ic r : ∀ f1 f2 prev s,
  (length s < f1)%nat → (length s < f2)%nat →
  matchAllFuel ic f1 r prev s = matchAllFuel ic f2 r prev s.
Proof.
  induction f1 as [|f1 IH]; intros f2 prev s H1 H2; [lia|].
  destruct f2 as [|f2]; [lia|]. simpl.
  destruct (execFrom ic r prev s) as [[from rest]|] eqn:Hex; [|done].
  apply execFrom_Some in Hex as (pre & -> & Hm).
  apply matchHere_sound in Hm as (mid & -> & -> & _).
  rewrite !length_app in H1, H2.
  destruct mid as [|x mid]; simpl in *.
  - destruct rest as [|y rest]; [done|]. simpl in *.
    f_equal. apply IH; lia.
  - f_equal. apply IH; lia.
Qed.

(** ** A symbol followed by an amount is recognised as such *)

Lemma isDigit_digitUnits d : isDigit d = true → d ∈ digitUnits.
Proof.
  unfold isDigit. rewrite inRange_spec. intros [Hlo Hhi].
  assert (d = 48 ∨ d = 49 ∨ d = 50 ∨ d = 51 ∨ d = 52 ∨ d = 53 ∨ d = 54 ∨
          d = 55 ∨ d = 56 ∨ d = 57) as Hd by lia.
  unfold digitUnits. rewrite !elem_of_cons. tauto.
Qed.

Section SymbolAmount.
Context `{UnicodeCase}.
Local Arguments classMatches : simpl never.

Lemma classMatches_member ic members x :
  x ∈ members → classMatches ic members x = true.
Proof.
  intros Hx. apply existsb_exists. exists x.
  split; [by apply list_elem_of_In|]. apply unitMatches_refl.
Qed.

Lemma repeatMatcher_optional ic members max : ∀ s prev (k : Cont),
  (∀ p s', is_Some (k p s')) →
  is_Some (repeatMatcher ic members 0 max prev s k).
Proof.
  induction s as [|x s IH]; intros prev k Hk; simpl; [done|].
  destruct (classMatches ic members x && maxAllows max); [|done].
  by destruct (repeatMatcher ic members 0 (pred <$> max) (Some x) s k).
Qed.

Lemma matcher_ROpt_total ic r prev s (k : Cont) :
  is_Some (k prev s) → is_Some (matcher ic (ROpt r) prev s k).
Proof.
  intros Hk. simpl. by destruct (matcher ic r prev s k).
Qed.

Lemma repeatMatcher_one_or_more ic members max d s prev (k : Cont) :
  classMatches ic members d = true → maxAllows max = true →
  (∀ p s', is_Some (k p s')) →
  is_Some (repeatMatcher ic members 1 max prev (d :: s) k).
Proof.
  intros Hd Hmax Hk. simpl. rewrite Hd, Hmax. simpl.
  by destruct (repeatMatcher_optional ic members (pred <$> max) s (Some d) k Hk)
    as [r ->].
Qed.

Lemma matcher_RClass_member ic members x s prev (k : Cont) :
  x ∈ members →
  matcher ic (RClass members) prev (x :: s) k = k (Some x) s.
Proof.
  intros Hx. simpl. by rewrite (classMatches_member ic members x Hx).
Qed.

Lemma containsSymbolAmount_matches content :
  containsSymbolAmount content →
  String_matchAll symbolAmountRegExp content ≠ [].
Proof.
  intros (pre & sym & gap & digits & post & -> & Hsym & Hgap & Hne & Hdigits).
  apply matchAllFuel_nonempty, execFrom_complete.
  destruct digits as [|d digits]; [done|].
  apply Forall_cons in Hdigits as [Hd%isDigit_digitUnits _].
  unfold matchHere, symbolAmountRegExp, pattern.
  set (fraction := ROpt (RSeq (RClass [46; 44]) (RRepeat digitUnits 1 (Some 2%nat)))).
  set (amount := RSeq (RRepeat digitUnits 1 None) fraction).
  set (k0 := λ (_ : option N) (rest : list N), Some rest).
  assert (∀ p, is_Some (matcher true amount p ((d :: digits) ++ post) k0))
    as Hamount.
  { intros p.
    change (is_Some (repeatMatcher true digitUnits 1 None p (d :: digits ++ post)
                       (λ p' s', matcher true fraction p' s' k0))).
    apply repeatMatcher_one_or_more; [by apply classMatches_member|done|].
    intros p' s'. by apply matcher_ROpt_total. }
  change (is_Some
            (matcher true (RClass currencyUnits) (prevAfter None pre)
               (sym :: gap ++ (d :: digits) ++ post)
               (λ p s', matcher true (ROpt (RClass whiteSpaceUnits)) p s'
                          (λ p' s'', matcher true amount p' s'' k0)))).
  rewrite matcher_RClass_member by done.
  destruct Hgap as [->|(ws & Hws & ->)].
  - by apply matcher_ROpt_total.
  - change (is_Some
              (match matcher true (RClass whiteSpaceUnits) (Some sym)
                       (ws :: (d :: digits) ++ post)
                       (λ p' s'', matcher true amount p' s'' k0) with
               | Some rest => Some rest
               | None => matcher true amount (Some sym)
                           (ws :: (d :: digits) ++ post) k0
               end)).
    rewrite matcher_RClass_member by done.
    by destruct (Hamount (Some ws)) as [r ->].
Qed.
End SymbolAmount.

(** ** Price-pattern detection *)

Section PriceClaims.
Context `{UnicodeCase}.

Lemma containsSymbolAmount_symbol content :
  containsSymbolAmount content → containsCurrencySymbol content.
Proof.
  intros (pre & sym & gap & digits & post & -> & Hsym & _).
  exists sym. split; [|done].
  apply elem_of_app. right. by left.
Qed.

Lemma priceSignals_symbol config content :
  enablePricePattern config = true →
  containsCurrencySymbol content →
  priceSignals config content ≠ [].
Proof.
  intros Hen (c & Hc & Hsym) Hnil.
  pose proof (elem_of_rawSymbolMatches c content Hc Hsym) as Hin.
  assert ([c] ∈ priceSignals config content) as Hin'.
  { unfold priceSignals. rewrite Hen, !elem_of_app. tauto. }
  rewrite Hnil in Hin'. by apply elem_of_nil in Hin'.
Qed.

Lemma priceSignals_amount config content :
  enablePricePattern config = true →
  containsSymbolAmount content →
  priceSignals config content ≠ [].
Proof.
  intros Hen Hamount Hnil. unfold priceSignals in Hnil. rewrite Hen in Hnil.
  apply app_eq_nil in Hnil as [Hnone _].
  by apply (containsSymbolAmount_matches content Hamount).
Qed.

Lemma priceSignals_keyword config content w :
  enablePricePattern config = true →
  w ∈ priceKeywords config → occursBetweenBoundaries w content →
  w ∈ priceSignals config content.
Proof.
  intros Hen Hw Hocc. unfold priceSignals. rewrite Hen, !elem_of_app.
  right. right. by apply elem_of_keywordHits.
Qed.
End PriceClaims.

(** The price keyword [incl.] does not match the message [incl. postage]:
    there is no word boundary between the full stop and the space. *)
Lemma price_keyword_counterexample :
  ¬ ∃ U : UnicodeCase,
      @keywordTriggers U (@withRules U [js "sell"] [] [js "incl."])
        (js "incl. postage").
Proof.
  intros [U Hclaim].
  specialize (Hclaim (compiledDetectors (withRules [js "sell"] [] [js "incl."]))
                (js "incl.")).
  rewrite (@detectContent_simple U) in Hclaim by done.
  assert (PRICE_PATTERN ∈ @nil (list N)) as Habs; [|by apply elem_of_nil in Habs].
  apply Hclaim.
  - apply buildDetectors_total.
  - done.
  - intros (p & Hp & _). by apply elem_of_nil in Hp.
  - by left.
  - exists [], (js "incl."), (js " postage"). split_and!; [done| |done..].
    apply sameIgnoringCase_refl.
Qed.

(** C5 (amended). With price-pattern detection enabled and no exception
    match, a text that contains a currency symbol followed by an amount, or
    a bare currency symbol, or, as a whole word, a configured price keyword
    that begins and ends with an ASCII letter, a digit or the underscore,
    has the price-pattern trigger type; and under the default configuration the message
    [DM me, $400 shipped] is triggered with the price-pattern type alone
    and the signals [$400] and [shipped]. *)
Theorem price_pattern_detection `{UnicodeCase} :
  (∀ config detectors content,
     buildDetectors config = Some detectors →
     enablePricePattern config = true →
     ¬ exceptionMatches config content →
     containsSymbolAmount content ∨ containsCurrencySymbol content ∨
       (∃ w, w ∈ priceKeywords config ∧ wordEdged w ∧
             containsWholeWord w content) →
     PRICE_PATTERN ∈ triggerTypes (detectContent content detectors config)) ∧
  (∀ detectors,
     buildDetectors defaultConfig = Some detectors →
     let verdict := detectContent (js "DM me, $400 shipped") detectors defaultConfig in
     triggered verdict = true ∧
     triggerTypes verdict = [PRICE_PATTERN] ∧
     js "$400" ∈ matchedPriceSignals verdict ∧
     js "shipped" ∈ matchedPriceSignals verdict).
Proof.
  split.
  - intros config detectors content Hbuild Hen Hexc Hprice.
    rewrite buildDetectors_total in Hbuild. injection Hbuild as <-.
    rewrite detectContent_compiled.
    destruct (nonEmpty (exceptionHits config content)) eqn:Hhit.
    { by apply exceptionHits_spec in Hhit. }
    simpl.
    apply (triggerTypes_spec (termHits config content)
             (priceSignals config content)).
    destruct Hprice as [Hamount|[Hsym|(w & Hw & Hedge & Hocc)]].
    + by apply priceSignals_amount.
    + by apply priceSignals_symbol.
    + apply containsWholeWord_boundaries in Hocc; [|done].
      intros Hnil.
      pose proof (priceSignals_keyword config content w Hen Hw Hocc) as Hin.
      rewrite Hnil in Hin. by apply elem_of_nil in Hin.
  - intros detectors Hbuild.
    rewrite buildDetectors_total in Hbuild. injection Hbuild as <-.
    cbv zeta. rewrite detectContent_simple by done.
    split_and!; [by vm_compute..| |].
    + apply (list_elem_of_lookup_2 _ 0%nat). by vm_compute.
    + apply (list_elem_of_lookup_2 _ 2%nat). by vm_compute.
Qed.

Lemma price_pattern_detection_witness :
  let config := @withRules asciiCase [js "sell"] [] [js "usd"; js "shipped"] in
  PRICE_PATTERN ∈ triggerTypes
    (@detectContent asciiCase (js "selling for 20 USD") (compiledDetectors config)
       config).
Proof.
  apply (proj1 (@price_pattern_detection asciiCase)).
  - apply buildDetectors_total.
  - reflexivity.
  - intros (p & Hp & _). by apply elem_of_nil in Hp.
  - right. right. exists (js "usd"). split_and!; [by left|by split|].
    exists (js "selling for 20 "), (js "USD"), [].
    split_and!; [reflexivity| |reflexivity..].
    repeat (constructor; [vm_compute; reflexivity|]). constructor.
Defined.

(** ** How matched values are stored *)

(** With the restricted terms [Sell] and [SELL] configured, the message
    [sell] stores both, as configured: neither is lower-cased, and the two
    differ only in letter case. *)
Lemma stored_values_counterexample :
  ¬ ∃ U : UnicodeCase,
      @storedLowerCased U (@withRules U [js "Sell"; js "SELL"] [] []) (js "sell") ∨
      @deduplicatedIgnoringCase U (@withRules U [js "Sell"; js "SELL"] [] [])
        (js "sell").
Proof.
  intros [U Hclaim].
  set (config := @withRules U [js "Sell"; js "SELL"] [] []) in *.
  assert (matchedTerms (detectContent (js "sell") (compiledDetectors config) config)
          = [js "Sell"; js "SELL"]) as Hterms.
  { rewrite detectContent_simple by done. by vm_compute. }
  assert (toLowerCase (js "Sell") = js "sell") as Hlow1.
  { by rewrite toLowerCase_simple. }
  assert (toLowerCase (js "SELL") = js "sell") as Hlow2.
  { by rewrite toLowerCase_simple. }
  destruct Hclaim as [Hlower|Hfold].
  - specialize (Hlower (compiledDetectors config) (js "Sell")
                  (buildDetectors_total config)).
    rewrite Hterms, Hlow1 in Hlower.
    assert (js "sell" = js "Sell") as Habs; [|by vm_compute in Habs].
    apply Hlower. left. by left.
  - specialize (Hfold (compiledDetectors config) (js "Sell") (js "SELL")
                  (buildDetectors_total config)).
    rewrite Hterms, Hlow1, Hlow2 in Hfold.
    assert (js "Sell" = js "SELL") as Habs; [|by vm_compute in Habs].
    apply Hfold; [|done]. left. split; [by left|]. right. by left.
Qed.

(** C7 (amended). Both collections hold no element twice (de-duplication is
    by exact string equality); every matched term is a restricted term as
    it is configured; every price signal is a price keyword as it is
    configured, or a piece of the message text (a symbol with an amount, or
    a bare symbol) in which lower-casing changes nothing. *)
Theorem matched_values_as_configured `{UnicodeCase} config detectors content :
  buildDetectors config = Some detectors →
  let verdict := detectContent content detectors config in
  NoDup (matchedTerms verdict) ∧
  NoDup (matchedPriceSignals verdict) ∧
  (∀ t, t ∈ matchedTerms verdict → t ∈ restrictedTerms config) ∧
  (∀ s, s ∈ matchedPriceSignals verdict →
        s ∈ priceKeywords config ∨
        ((symbolAmountText s ∨ ∃ c, c ∈ currencyUnits ∧ s = [c]) ∧
         toLowerCase s = s ∧ ∃ pre post, content = pre ++ s ++ post)).
Proof.
  intros Hbuild.
  rewrite buildDetectors_total in Hbuild. injection Hbuild as <-.
  cbv zeta. rewrite detectContent_compiled.
  destruct (nonEmpty (exceptionHits config content)); simpl.
  { split_and!; [constructor..| |]; by intros ? ?%elem_of_nil. }
  split_and!; [apply NoDup_Set_of..| |].
  - intros t Ht. rewrite elem_of_Set_of in Ht.
    by apply elem_of_termHits in Ht as [Ht _].
  - intros s Hs. rewrite elem_of_Set_of in Hs. unfold priceSignals in Hs.
    destruct (enablePricePattern config); [|by apply elem_of_nil in Hs].
    apply elem_of_app in Hs as [Hs|Hs%elem_of_app].
    + apply elem_of_symbolAmountMatches in Hs as [Hshape Hsub].
      right. split_and!; [by left| |done].
      by apply toLowerCase_caseless, symbolAmountText_caseless.
    + destruct Hs as [Hs|Hs].
      * rewrite rawSymbolMatches_spec in Hs.
        apply list_elem_of_fmap in Hs as (c & -> & Hc).
        apply list_elem_of_In, filter_In in Hc as [Hc Hsym].
        apply classMatches_exact in Hsym. apply list_elem_of_In in Hc.
        right. split_and!.
        -- right. by exists c.
        -- apply toLowerCase_caseless. simpl. rewrite andb_true_r.
           by apply (forallb_elem caselessUnit currencyUnits).
        -- apply list_elem_of_split in Hc as (pre & post & ->).
           by exists pre, post.
      * left. by apply elem_of_keywordHits in Hs as [Hs _].
Qed.

Lemma matched_values_as_configured_witness :
  let config := @withRules asciiCase [js "Sell"; js "SELL"] [] [js "USD"] in
  let verdict :=
    @detectContent asciiCase (js "sell it, $5 usd") (compiledDetectors config)
      config in
  NoDup (matchedTerms verdict) ∧
  NoDup (matchedPriceSignals verdict) ∧
  (∀ t, t ∈ matchedTerms verdict → t ∈ restrictedTerms config) ∧
  (∀ s, s ∈ matchedPriceSignals verdict →
        s ∈ priceKeywords config ∨
        ((symbolAmountText s ∨ ∃ c, c ∈ currencyUnits ∧ s = [c]) ∧
         @toLowerCase asciiCase s = s ∧
         ∃ pre post, js "sell it, $5 usd" = pre ++ s ++ post)).
Proof.
  apply (@matched_values_as_configured asciiCase).
  apply buildDetectors_total.
Defined.

(** ** The empty text *)

Lemma detectContent_empty `{UnicodeCase} config :
  triggered (detectContent [] (compiledDetectors config) config) = false.
Proof.
  rewrite detectContent_compiled.
  destruct (nonEmpty (exceptionHits config [])); [done|].
  assert (termHits config [] = []) as ->.
  { apply filter_none. intros t. apply test_wordRegExp_empty. }
  assert (priceSignals config [] = []) as ->; [|done].
  unfold priceSignals, keywordHits.
  destruct (enablePricePattern config); [|done].
  rewrite filter_none; [done|]. intros w. apply test_wordRegExp_empty.
Qed.

(** ** Daily metrics *)

Lemma Map_get_set map key value k :
  Map_get (Map_set map key value) k
  = if bool_decide (key = k) then Some value else Map_get map k.
Proof.
  induction map as [|[k' v'] map IH]; simpl.
  - by destruct (bool_decide (key = k)).
  - destruct (bool_decide (k' = key)) eqn:E1; simpl.
    + apply bool_decide_eq_true in E1 as ->.
      by destruct (bool_decide (key = k)).
    + rewrite IH. apply bool_decide_eq_false in E1.
      destruct (bool_decide (k' = k)) eqn:E2; [|done].
      apply bool_decide_eq_true in E2 as ->.
      by rewrite bool_decide_eq_false_2.
Qed.

Lemma countOf_bumpCount map key delta k :
  countOf (bumpCount map key delta) k
  = countOf map k + (if bool_decide (key = k) then delta else 0).
Proof.
  unfold countOf, bumpCount. rewrite Map_get_set.
  destruct (bool_decide (key = k)) eqn:E; simpl; [|lia].
  by apply bool_decide_eq_true in E as ->.
Qed.

Lemma countOf_foldl_bumpCount (ruleKey : jsstring → jsstring) l : ∀ map k,
  countOf (foldl (λ m x, bumpCount m (ruleKey x) 1) map l) k
  = countOf map k + occurrences ruleKey l k.
Proof.
  unfold occurrences.
  induction l as [|x l IH]; intros map k; simpl; [lia|].
  rewrite IH, countOf_bumpCount.
  destruct (bool_decide (ruleKey x = k)); simpl; lia.
Qed.

Lemma occurrences_elem (ruleKey : jsstring → jsstring) l x :
  x ∈ l → 1 ≤ occurrences ruleKey l (ruleKey x).
Proof.
  unfold occurrences. intros Hx.
  assert (x ∈ List.filter (λ y, bool_decide (ruleKey y = ruleKey x)) l) as Hin.
  { apply list_elem_of_In, filter_In. split; [by apply list_elem_of_In|].
    by apply bool_decide_eq_true. }
  destruct (List.filter _ l); [by apply elem_of_nil in Hin|]. simpl. lia.
Qed.

(** The per-rule counters after an update. *)
Lemma bumpMetrics_byRule `{UnicodeCase} currentDay state message detection k :
  countOf (byRule (metrics (bumpMetrics currentDay state message detection))) k
  = (if bool_decide (day (metrics state) = currentDay)
     then countOf (byRule (metrics state)) k else 0)
    + occurrences termRuleKey (matchedTerms detection) k
    + occurrences priceRuleKey (matchedPriceSignals detection) k.
Proof.
  unfold bumpMetrics. simpl. rewrite !countOf_foldl_bumpCount.
  by destruct (bool_decide (day (metrics state) = currentDay)).
Qed.

Lemma Map_get_bumpCount map key k :
  Map_get (bumpCount map key 1) k
  = if bool_decide (key = k) then Some (countOf map k + 1) else Map_get map k.
Proof.
  unfold bumpCount, countOf. rewrite Map_get_set.
  destruct (bool_decide (key = k)) eqn:E; [|done].
  by apply bool_decide_eq_true in E as ->.
Qed.

Lemma occurrences_cons (ruleKey : jsstring → jsstring) x l k :
  occurrences ruleKey (x :: l) k
  = (if bool_decide (ruleKey x = k) then 1 else 0) + occurrences ruleKey l k.
Proof.
  unfold occurrences. simpl. destruct (bool_decide (ruleKey x = k)); simpl; lia.
Qed.

(** The entry of a key after one increment per element of a list: absent
    when it was absent and no element has the key. *)
Lemma Map_get_foldl_bumpCount (ruleKey : jsstring → jsstring) l : ∀ map k,
  Map_get (foldl (λ m x, bumpCount m (ruleKey x) 1) map l) k
  = if occurrences ruleKey l k =? 0 then Map_get map k
    else Some (countOf map k + occurrences ruleKey l k).
Proof.
  induction l as [|x l IH]; intros map k; [done|].
  simpl foldl. rewrite IH, occurrences_cons. cbv beta.
  rewrite Map_get_bumpCount, countOf_bumpCount.
  destruct (bool_decide (ruleKey x = k));
    repeat match goal with
           | |- context [?a =? ?b] => destruct (N.eqb_spec a b)
           end; try lia; try done; f_equal; lia.
Qed.

(** C4. An update on a UTC day other than the stored one starts from zero
    and from empty maps, and stores the current day: an entry of the day
    before is absent afterwards, not merely zero, unless this update writes
    it.  Every update adds one to [triggersToday], one to the counter of the
    event's channel, and one to the counter of the key [term:] followed by
    the lower-cased term for each matched term and of the key [price:]
    followed by the lower-cased signal for each matched price signal; no
    other entry changes or appears.  The first update of a new day ends
    with a count of 1, the channel map holding the event's channel alone. *)
Theorem metrics_update `{UnicodeCase} currentDay state message detection :
  let before := metrics state in
  let after := metrics (bumpMetrics currentDay state message detection) in
  let sameDay := bool_decide (day before = currentDay) in
  let carried (n : N) : N := if sameDay then n else 0 in
  let kept (entry : option N) : option N := if sameDay then entry else None in
  let increments (k : jsstring) : N :=
    occurrences (λ t, js "term:" ++ toLowerCase t) (matchedTerms detection) k
    + occurrences (λ signal, js "price:" ++ toLowerCase signal)
        (matchedPriceSignals detection) k in
  day after = currentDay ∧
  triggersToday after = carried (triggersToday before) + 1 ∧
  (∀ c, Map_get (byChannel after) c
        = if bool_decide (channelId message = c)
          then Some (carried (countOf (byChannel before) c) + 1)
          else kept (Map_get (byChannel before) c)) ∧
  (∀ k, Map_get (byRule after) k
        = if increments k =? 0 then kept (Map_get (byRule before) k)
          else Some (carried (countOf (byRule before) k) + increments k)) ∧
  (day before ≠ currentDay →
   triggersToday after = 1 ∧
   byChannel after = [(channelId message, 1)] ∧
   ∀ k, k ∈ (byRule after).*1 → increments k ≠ 0).
Proof.
  cbv zeta.
  assert (∀ base k,
    Map_get (foldl (λ map signal, bumpCount map (priceRuleKey signal) 1)
               (foldl (λ map t, bumpCount map (termRuleKey t) 1) base
                  (matchedTerms detection))
               (matchedPriceSignals detection)) k
    = if occurrences (λ t, js "term:" ++ toLowerCase t) (matchedTerms detection) k
         + occurrences (λ signal, js "price:" ++ toLowerCase signal)
             (matchedPriceSignals detection) k =? 0
      then Map_get base k
      else Some (countOf base k
                 + (occurrences (λ t, js "term:" ++ toLowerCase t)
                      (matchedTerms detection) k
                    + occurrences (λ signal, js "price:" ++ toLowerCase signal)
                        (matchedPriceSignals detection) k))) as Hrule.
  { intros base k.
    rewrite (Map_get_foldl_bumpCount priceRuleKey),
      (countOf_foldl_bumpCount termRuleKey),
      (Map_get_foldl_bumpCount termRuleKey).
    change (occurrences termRuleKey) with
      (occurrences (λ t, js "term:" ++ toLowerCase t)).
    change (occurrences priceRuleKey) with
      (occurrences (λ signal, js "price:" ++ toLowerCase signal)).
    set (n1 := occurrences _ (matchedTerms detection) k).
    set (n2 := occurrences _ (matchedPriceSignals detection) k).
    unfold countOf.
    repeat match goal with
           | |- context [?a =? ?b] => destruct (N.eqb_spec a b)
           end; try lia; try done; simpl; f_equal; lia. }
  assert (∀ (map : list (list N * N)) k v,
            (k, v) ∈ map → Map_get map k ≠ None) as Hpresent.
  { intros map k v. induction map as [|[k0 v0] map IHmap]; [by intros ?%elem_of_nil|].
    simpl. destruct (bool_decide (k0 = k)) eqn:E; [done|].
    apply bool_decide_eq_false in E.
    intros [[= ? ?]|Hin]%elem_of_cons; [by subst|]. by apply IHmap. }
  unfold bumpMetrics. cbn [metrics day triggersToday byChannel byRule].
  destruct (bool_decide (day (metrics state) = currentDay)) eqn:Hday;
    cbn [metrics day triggersToday byChannel byRule].
  - apply bool_decide_eq_true in Hday.
    split_and!; [done|done| | |done].
    + intros c. apply Map_get_bumpCount.
    + intros k. apply Hrule.
  - apply bool_decide_eq_false in Hday.
    split_and!; [done|done| | |].
    + intros c. by rewrite Map_get_bumpCount.
    + intros k. by rewrite Hrule.
    + intros _. split_and!; [done|done|].
      intros k Hk Hzero.
      apply list_elem_of_fmap in Hk as ([k' v] & -> & Hin).
      cbn [fst] in Hzero. apply Hpresent in Hin. apply Hin.
      rewrite Hrule, Hzero. done.
Qed.

(** ** A priced mention is counted under two rule keys *)

(** With the exception pattern [wholesale] configured, the pattern matches
    [$400] in the text [$400 wholesale], and the verdict holds no price
    signal at all. *)
Lemma priced_mention_counterexample :
  ¬ ∃ U : UnicodeCase,
      @pricedMentionReportsSymbol U
        (@withRules U [js "sell"] [js "wholesale"] [js "usd"])
        (js "$400 wholesale").
Proof.
  intros [U Hclaim].
  destruct (Hclaim (compiledDetectors (withRules [js "sell"] [js "wholesale"] [js "usd"]))
              (js "$400")) as (sym & _ & Hin).
  - apply buildDetectors_total.
  - rewrite (@String_matchAll_simple U) by done.
    apply (list_elem_of_lookup_2 _ 0%nat). by vm_compute.
  - rewrite (@detectContent_simple U) in Hin by done.
    by apply elem_of_nil in Hin.
Qed.

(** C10 (amended). With price detection enabled and no exception match,
    every match of the symbol-plus-amount pattern in the text is a price
    signal of the verdict, and so is the bare currency symbol it starts
    with, as a second, different signal; their rule keys, [price:] followed
    by the match and [price:] followed by the symbol, differ, and the
    metrics update raises the counter of each of the two keys. *)
Theorem priced_mention_counts_twice `{UnicodeCase}
    config detectors content currentDay state message mention :
  buildDetectors config = Some detectors →
  enablePricePattern config = true →
  ¬ exceptionMatches config content →
  mention ∈ String_matchAll symbolAmountRegExp content →
  let verdict := detectContent content detectors config in
  let after := metrics (bumpMetrics currentDay state message verdict) in
  let carried (n : N) : N :=
    if bool_decide (day (metrics state) = currentDay) then n else 0 in
  mention ∈ matchedPriceSignals verdict ∧
  ∃ sym,
    sym ∈ currencyUnits ∧ head mention = Some sym ∧
    [sym] ∈ matchedPriceSignals verdict ∧ mention ≠ [sym] ∧
    js "price:" ++ mention ≠ js "price:" ++ [sym] ∧
    carried (countOf (byRule (metrics state)) (js "price:" ++ mention))
      < countOf (byRule after) (js "price:" ++ mention) ∧
    carried (countOf (byRule (metrics state)) (js "price:" ++ [sym]))
      < countOf (byRule after) (js "price:" ++ [sym]).
Proof.
  intros Hbuild Hen Hexc Hmention.
  rewrite buildDetectors_total in Hbuild. injection Hbuild as <-.
  cbv zeta.
  pose proof (bumpMetrics_byRule currentDay state message
                (detectContent content (compiledDetectors config) config))
    as Hrule.
  set (verdict := detectContent content (compiledDetectors config) config) in *.
  assert (matchedPriceSignals verdict = Set_of (priceSignals config content))
    as Hsignals.
  { unfold verdict. rewrite detectContent_compiled.
    destruct (nonEmpty (exceptionHits config content)) eqn:Hhit; [|done].
    by apply exceptionHits_spec in Hhit. }
  apply elem_of_symbolAmountMatches in Hmention as Hshape.
  destruct Hshape
    as [(sym & gap & digits & frac & Hm & Hsym & Hgap & Hdigits & Hd & Hfrac)
        (pre & post & Hcontent)].
  assert (symbolAmountText mention) as Hshape.
  { by exists sym, gap, digits, frac. }
  assert (toLowerCase mention = mention) as Hlower.
  { by apply toLowerCase_caseless, symbolAmountText_caseless. }
  assert (toLowerCase [sym] = [sym]) as Hlower'.
  { apply toLowerCase_caseless. simpl. rewrite andb_true_r.
    by apply (forallb_elem caselessUnit currencyUnits). }
  assert (mention ∈ matchedPriceSignals verdict) as Hin.
  { rewrite Hsignals. apply elem_of_Set_of. unfold priceSignals.
    rewrite Hen, elem_of_app. by left. }
  assert ([sym] ∈ matchedPriceSignals verdict) as Hbare.
  { rewrite Hsignals. apply elem_of_Set_of. unfold priceSignals.
    rewrite Hen, !elem_of_app. right. left.
    apply elem_of_rawSymbolMatches; [|done].
    rewrite Hcontent, Hm. simpl. apply elem_of_app. right. by left. }
  assert (mention ≠ [sym]) as Hne.
  { rewrite Hm. simpl. intros [= Hnil].
    apply app_eq_nil in Hnil as [_ [Hnil _]%app_eq_nil]. done. }
  assert (∀ x, x ∈ matchedPriceSignals verdict → toLowerCase x = x →
               (if bool_decide (day (metrics state) = currentDay)
                then countOf (byRule (metrics state)) (js "price:" ++ x) else 0)
               < countOf (byRule (metrics (bumpMetrics currentDay state message
                                             verdict))) (js "price:" ++ x))
    as Hcount.
  { intros x Hx Hlow. rewrite Hrule.
    pose proof (occurrences_elem priceRuleKey _ x Hx) as Hocc.
    unfold priceRuleKey at 2 in Hocc. rewrite Hlow in Hocc. lia. }
  split; [done|]. exists sym.
  split_and!; [done|by rewrite Hm|done|done| |by apply Hcount..].
  by intros Hkey%app_inv_head.
Qed.

Lemma priced_mention_counts_twice_witness :
  let config := @defaultConfig asciiCase in
  let verdict :=
    @detectContent asciiCase (js "DM me, $400 shipped") (compiledDetectors config)
      config in
  let state := initialState (js "2024-05-01") in
  let message := sampleMessage (Some (js "DM me, $400 shipped")) in
  let after :=
    metrics (@bumpMetrics asciiCase (js "2024-05-01") state message verdict) in
  js "$400" ∈ matchedPriceSignals verdict ∧
  ∃ sym,
    sym ∈ currencyUnits ∧ head (js "$400") = Some sym ∧
    [sym] ∈ matchedPriceSignals verdict ∧ js "$400" ≠ [sym] ∧
    js "price:" ++ js "$400" ≠ js "price:" ++ [sym] ∧
    countOf (byRule (metrics state)) (js "price:" ++ js "$400")
      < countOf (byRule after) (js "price:" ++ js "$400") ∧
    countOf (byRule (metrics state)) (js "price:" ++ [sym])
      < countOf (byRule after) (js "price:" ++ [sym]).
Proof.
  cbv zeta.
  apply (@priced_mention_counts_twice asciiCase
           (@defaultConfig asciiCase)
           (compiledDetectors (@defaultConfig asciiCase))
           (js "DM me, $400 shipped") (js "2024-05-01")
           (initialState (js "2024-05-01"))
           (sampleMessage (Some (js "DM me, $400 shipped")))
           (js "$400")).
  - apply buildDetectors_total.
  - reflexivity.
  - intros (p & Hp & _). by apply elem_of_nil in Hp.
  - apply (list_elem_of_lookup_2 _ 0%nat). by vm_compute.
Defined.

(** ** Cooldown tracker *)

Local Open Scope Z_scope.

Lemma isCoolingDown_unfold state message config now :
  isCoolingDown state message config now
  = match cooldowns state !! cooldownKey message with
    | Some last =>
        if negb (last =? 0) && (now - last <? warningCooldownMs config)
        then (true, state)
        else (false, {| cooldowns := <[cooldownKey message := now]> (cooldowns state);
                        modLogChannelIds := modLogChannelIds state;
                        metrics := metrics state |})
    | None =>
        (false, {| cooldowns := <[cooldownKey message := now]> (cooldowns state);
                   modLogChannelIds := modLogChannelIds state;
                   metrics := metrics state |})
    end.
Proof.
  unfold isCoolingDown. by destruct (cooldowns state !! cooldownKey message).
Qed.

(** A call that does not suppress records the current timestamp. *)
Lemma isCoolingDown_allows state message config now :
  (∀ last, cooldowns state !! cooldownKey message = Some last →
           last = 0 ∨ warningCooldownMs config ≤ now - last) →
  (isCoolingDown state message config now).1 = false ∧
  cooldowns (isCoolingDown state message config now).2 !! cooldownKey message
  = Some now.
Proof.
  intros Hstale. rewrite isCoolingDown_unfold.
  destruct (cooldowns state !! cooldownKey message) as [last|] eqn:Hlast.
  - destruct (Hstale last eq_refl) as [->|Hge].
    + simpl. split; [done|]. apply lookup_insert_eq.
    + assert ((now - last <? warningCooldownMs config) = false) as ->.
      { apply Z.ltb_ge. lia. }
      rewrite andb_false_r. simpl. split; [done|]. apply lookup_insert_eq.
  - simpl. split; [done|]. apply lookup_insert_eq.
Qed.

(** A call inside the window suppresses and leaves the state as it is. *)
Lemma isCoolingDown_suppresses state message config now last :
  cooldowns state !! cooldownKey message = Some last →
  last ≠ 0 → now - last < warningCooldownMs config →
  isCoolingDown state message config now = (true, state).
Proof.
  intros Hlast Hnz Hlt. rewrite isCoolingDown_unfold, Hlast.
  assert ((last =? 0) = false) as -> by by apply Z.eqb_neq.
  assert ((now - last <? warningCooldownMs config) = true) as ->
    by by apply Z.ltb_lt.
  done.
Qed.

(** With no cooldown, a call whose clock reading is earlier than the recorded
    one is suppressed ([now - last] is negative, hence below [0]); and a
    recorded timestamp of [0] is falsy, so that the trigger after it is not
    suppressed inside the window. *)
Lemma cooldown_window_counterexample :
  let message := sampleMessage (Some (js "sell")) in
  let recorded :=
    (isCoolingDown (initialState (js "2024-05-01")) message (withCooldown 0) 2000).2 in
  ¬ neverSuppressesWithoutCooldown recorded message (withCooldown 0) 1000 ∧
  ¬ suppressesInsideWindow (initialState (js "2024-05-01")) message
      (withCooldown 5000) 0 1000.
Proof.
  cbv zeta. split.
  - intros Hclaim. specialize (Hclaim eq_refl).
    rewrite (isCoolingDown_suppresses _ _ _ _ 2000) in Hclaim; [done| |done..].
    by apply isCoolingDown_allows.
  - intros Hclaim.
    assert (false = true) as Habs; [|done].
    rewrite <- Hclaim; [|done|simpl; lia|simpl; lia].
    symmetry. apply isCoolingDown_allows. intros last Hlast. left.
    destruct (isCoolingDown_allows (initialState (js "2024-05-01"))
                (sampleMessage (Some (js "sell"))) (withCooldown 5000) 0)
      as [_ Hrec].
    { intros l Hl. simpl in Hl. by rewrite lookup_empty in Hl. }
    congruence.
Qed.

(** C3 (amended). A trigger at [t0] with no entry or a stale entry for its
    key is not suppressed and records [t0].  With a cooldown [D > 0] and [t0]
    other than [0], a second trigger less than [D] after [t0] is suppressed
    and leaves the entry at [t0], and a trigger [D] or more after [t0] is not
    suppressed again and records its own time.  With [D = 0] a call is not
    suppressed when its timestamp is not earlier than the recorded one, and
    every such call records the current timestamp. *)
Theorem cooldown_window state message config t0 t1 t2 :
  let key := cooldownKey message in
  let D := warningCooldownMs config in
  (cooldowns state !! key = None ∨
   ∃ last, cooldowns state !! key = Some last ∧ D ≤ t0 - last) →
  let first := isCoolingDown state message config t0 in
  let second := isCoolingDown first.2 message config t1 in
  let third := isCoolingDown second.2 message config t2 in
  (first.1 = false ∧ cooldowns first.2 !! key = Some t0) ∧
  (0 < D → t0 ≠ 0 → t1 - t0 < D → D ≤ t2 - t0 →
   second.1 = true ∧ cooldowns second.2 !! key = Some t0 ∧
   third.1 = false ∧ cooldowns third.2 !! key = Some t2) ∧
  (D = 0 →
   ∀ st now, (∀ last, cooldowns st !! key = Some last → last ≤ now) →
     (isCoolingDown st message config now).1 = false ∧
     cooldowns (isCoolingDown st message config now).2 !! key = Some now).
Proof.
  intros key D Hentry first second third.
  assert (first.1 = false ∧ cooldowns first.2 !! key = Some t0) as [Hf1 Hf2].
  { apply isCoolingDown_allows. intros last Hlast.
    destruct Hentry as [Hnone|(last' & Hlast' & Hstale)].
    - unfold key in Hnone. congruence.
    - unfold key in Hlast'. assert (last' = last) as -> by congruence.
      by right. }
  split_and!; [done..| |].
  - intros HD Ht0 Hin Hout.
    assert (second = (true, first.2)) as Hsecond.
    { by apply (isCoolingDown_suppresses _ _ _ _ t0). }
    rewrite Hsecond. simpl.
    split_and!; [done..| |].
    + unfold third. rewrite Hsecond. simpl.
      apply isCoolingDown_allows. intros last Hlast.
      assert (last = t0) as -> by (unfold key in Hf2; congruence). by right.
    + unfold third. rewrite Hsecond. simpl.
      apply isCoolingDown_allows. intros last Hlast.
      assert (last = t0) as -> by (unfold key in Hf2; congruence). by right.
  - intros HD st now Hclock. apply isCoolingDown_allows.
    intros last Hlast. right. specialize (Hclock last Hlast).
    unfold D in HD. lia.
Qed.

Lemma cooldown_window_witness :
  let message := sampleMessage (Some (js "sell")) in
  let config := withCooldown 30000 in
  let key := cooldownKey message in
  let first := isCoolingDown (initialState (js "2024-05-01")) message config 1000 in
  let second := isCoolingDown first.2 message config 5000 in
  let third := isCoolingDown second.2 message config 31000 in
  first.1 = false ∧ cooldowns first.2 !! key = Some 1000 ∧
  second.1 = true ∧ cooldowns second.2 !! key = Some 1000 ∧
  third.1 = false ∧ cooldowns third.2 !! key = Some 31000.
Proof.
  destruct (cooldown_window (initialState (js "2024-05-01"))
              (sampleMessage (Some (js "sell"))) (withCooldown 30000)
              1000 5000 31000 (or_introl eq_refl))
    as ([Hfirst Hrecorded] & Hwindow & _).
  destruct Hwindow as (Hsecond & Hkept & Hthird & Hupdated);
    [simpl; lia|lia|simpl; lia|simpl; lia|].
  cbv zeta. split_and!; assumption.
Defined.

(** ** Which cooldown entries a call changes *)

(** A trigger 1000 ms after the recorded one, under a cooldown of 5000 ms,
    is suppressed and the entry keeps the older timestamp. *)
Lemma cooldown_entry_counterexample :
  let message := sampleMessage (Some (js "sell")) in
  let config := withCooldown 5000 in
  let state := (isCoolingDown (initialState (js "2024-05-01")) message config 1000).2 in
  (isCoolingDown state message config 2000).1 = true ∧
  cooldowns (isCoolingDown state message config 2000).2 !! cooldownKey message
  = Some 1000 ∧
  ¬ entryAlwaysUpdated state message config 2000.
Proof.
  cbv zeta.
  set (message := sampleMessage (Some (js "sell"))).
  set (config := withCooldown 5000).
  destruct (isCoolingDown_allows (initialState (js "2024-05-01")) message config 1000)
    as [_ Hrec].
  { intros last Hlast. simpl in Hlast. by rewrite lookup_empty in Hlast. }
  set (state := (isCoolingDown (initialState (js "2024-05-01")) message config 1000).2)
    in *.
  assert (isCoolingDown state message config 2000 = (true, state)) as Hsup.
  { by apply (isCoolingDown_suppresses _ _ _ _ 1000). }
  unfold entryAlwaysUpdated. rewrite Hsup. simpl.
  split_and!; [done..|]. rewrite Hrec. by intros [=].
Qed.

Lemma cooldownKey_inj message other :
  58%N ∉ authorId message → 58%N ∉ authorId other →
  cooldownKey message = cooldownKey other →
  authorId message = authorId other ∧ channelId message = channelId other.
Proof.
  unfold cooldownKey.
  generalize (authorId message) (authorId other) (channelId message)
    (channelId other).
  intros a. induction a as [|x a IH]; intros b c d Ha Hb Heq.
  - destruct b as [|y b]; simpl in Heq.
    + by injection Heq as ->.
    + injection Heq as <- _. destruct Hb. by left.
  - destruct b as [|y b]; simpl in Heq.
    + injection Heq as -> _. destruct Ha. by left.
    + injection Heq as -> Heq.
      destruct (IH b c d) as [-> ->]; [| |done|done].
      * intros Hin. apply Ha. by right.
      * intros Hin. apply Hb. by right.
Qed.

(** C8 (amended). A call that does not suppress creates or updates the
    entry of its key to the current timestamp; a call that suppresses
    leaves the whole state as it is; no entry under another key changes, in
    particular none of another (user, channel) pair whose user id holds no
    colon. *)
Theorem cooldown_entry_update state message config now :
  let answer := isCoolingDown state message config now in
  (answer.1 = false → cooldowns answer.2 !! cooldownKey message = Some now) ∧
  (answer.1 = true → answer.2 = state) ∧
  (∀ k, k ≠ cooldownKey message →
        cooldowns answer.2 !! k = cooldowns state !! k) ∧
  (∀ other, 58%N ∉ authorId message → 58%N ∉ authorId other →
            (authorId other, channelId other)
              ≠ (authorId message, channelId message) →
            cooldowns answer.2 !! cooldownKey other
            = cooldowns state !! cooldownKey other) ∧
  metrics answer.2 = metrics state ∧
  modLogChannelIds answer.2 = modLogChannelIds state.
Proof.
  cbv zeta.
  assert (∀ k, k ≠ cooldownKey message →
               cooldowns (isCoolingDown state message config now).2 !! k
               = cooldowns state !! k) as Hframe.
  { intros k Hk. unfold isCoolingDown.
    destruct (from_option _ false _); simpl; [done|].
    by apply lookup_insert_ne. }
  split_and!.
  - unfold isCoolingDown. destruct (from_option _ false _); simpl; [done|].
    intros _. apply lookup_insert_eq.
  - unfold isCoolingDown. by destruct (from_option _ false _).
  - exact Hframe.
  - intros other Hm Ho Hne. apply Hframe. intros Heq.
    apply cooldownKey_inj in Heq as [Ha Hc]; [|done..].
    apply Hne. by rewrite Ha, Hc.
  - unfold isCoolingDown. by destruct (from_option _ false _).
  - unfold isCoolingDown. by destruct (from_option _ false _).
Qed.

Local Close Scope Z_scope.

(** ** Orchestration *)

Section Orchestration.
Context `{UnicodeCase}.

Lemma bind_unfold {A B} (m : Prog A) (k : A → Prog B) st :
  bind m k st
  = match m st with
    | (Returned a, st1, t1) =>
        match k a st1 with (o, st2, t2) => (o, st2, t1 ++ t2) end
    | (Thrown e, st1, t1) => (Thrown e, st1, t1)
    end.
Proof. reflexivity. Qed.

(** The channel lookup makes no reply. *)
Lemma resolveModLogChannel_no_reply w message config st :
  forallb (λ ev, negb (isReply ev))
    (resolveModLogChannel w message config st).2 = true.
Proof.
  unfold resolveModLogChannel, bind, tryCatch, await, ret, getState,
    cacheModLogChannel, putState.
  repeat (case_match; simplify_eq/=; try done).
Qed.

(** What the log step does, by the outcome of the channel lookup. *)
Lemma sendModLog_unfold w message detection config status errorText st :
  sendModLog w message detection config status errorText st
  = match resolveModLogChannel w message config st with
    | (Returned (Some ch), st1, t1) =>
        (Returned tt, st1,
         t1 ++ Send (gcId ch)
                 (buildModLogMessage message detection config status errorText st1)
               :: match sendOutcome w (gcId ch) with
                  | Some e =>
                      [ConsoleError
                         (js "Rule Guardian: failed to send mod-log message: "
                          ++ formatError e)]
                  | None => []
                  end)
    | (Returned None, st1, t1) =>
        (Returned tt, st1, t1 ++ [ConsoleError MOD_LOG_NOT_FOUND])
    | (Thrown e, st1, t1) =>
        (Returned tt, st1,
         t1 ++ [ConsoleError
                  (js "Rule Guardian: failed to send mod-log message: "
                   ++ formatError e)])
    end.
Proof.
  unfold sendModLog, tryCatch. rewrite bind_unfold.
  destruct (resolveModLogChannel w message config st) as [[[[ch|]|e] st1] t1].
  - rewrite bind_unfold. unfold getState, await, emit. simpl.
    destruct (sendOutcome w (gcId ch)); simpl; by rewrite <- ?app_assoc.
  - unfold emit. simpl. by rewrite ?app_nil_r.
  - done.
Qed.

Lemma join_middle sep (before : list jsstring) line after :
  ∃ pre post, join sep (before ++ line :: after) = pre ++ line ++ post.
Proof.
  destruct before as [|b before]; simpl.
  - exists [], (concat ((λ q, sep ++ q) <$> after)). done.
  - rewrite fmap_app, concat_app, fmap_cons. simpl.
    exists (b ++ concat ((λ q, sep ++ q) <$> before) ++ sep),
           (concat ((λ q, sep ++ q) <$> after)).
    by rewrite <- !app_assoc.
Qed.

(** The audit-log text carries the warning status on a line of its own. *)
Lemma buildModLogMessage_status message detection config status errorText st :
  ∃ pre post,
    buildModLogMessage message detection config status errorText st
    = pre ++ (js "Warning status: " ++ status) ++ post.
Proof.
  unfold buildModLogMessage.
  match goal with
  | |- ∃ _ _, join _ ((?l0 :: ?l1 :: ?l2 :: ?l3 :: ?l4 :: ?l5 :: ?l6 :: ?rest)
                        ++ ?m ++ ?e) = _ =>
      change ((l0 :: l1 :: l2 :: l3 :: l4 :: l5 :: l6 :: rest) ++ m ++ e)
        with ([l0; l1; l2; l3; l4; l5] ++ l6 :: (rest ++ m ++ e))
  end.
  apply join_middle.
Qed.
(** The lookup returns the log destination, and asks the platform only. *)
Lemma resolveModLogChannel_destination w message config st :
  ∃ st1 fetches,
    resolveModLogChannel w message config st
    = (match logDestination w message config st with
       | inl e => Thrown e
       | inr found => Returned found
       end, st1, fetches) ∧
    forallb isFetch fetches = true ∧ metrics st1 = metrics st.
Proof.
  assert (∀ l : list (option GuildChannel),
            List.find
              (λ c, match match c with
                          | Some ch => match gcType ch with
                                       | GuildText => Some ch
                                       | OtherChannelType => None
                                       end
                          | None => None
                          end
                    with
                    | Some ch => bool_decide (toLowerCase (gcName ch)
                                              = modLogChannelName config)
                    | None => false
                    end) l
            = List.find
                (λ c, isTextChannel c
                      && bool_decide (toLowerCase (from_option gcName [] c)
                                      = modLogChannelName config)) l) as Hfind.
  { intros l. induction l as [|[ch|] l IH]; simpl; [done| |done].
    destruct (gcType ch); simpl; [|done]. by rewrite IH. }
  unfold resolveModLogChannel, logDestination, bind, tryCatch, await, ret, getState,
    cacheModLogChannel, putState, isTruthy.
  destruct (fetchAllChannels w) as [e|channels]; rewrite ?Hfind;
    unfold isTextChannel;
    repeat (case_match; simplify_eq/=; try done); by eexists _, _.
Qed.

Lemma join_snoc_suffix sep (lines : list jsstring) line :
  line `suffix_of` join sep (lines ++ [line]).
Proof.
  destruct lines as [|l lines]; simpl.
  - rewrite app_nil_r. done.
  - rewrite fmap_app, concat_app. simpl. rewrite app_nil_r.
    exists (l ++ concat ((λ q, sep ++ q) <$> lines) ++ sep).
    by rewrite <- !app_assoc.
Qed.

(** The audit text reads the metrics of the state, and nothing else of it. *)
Lemma buildModLogMessage_metrics message detection config status errorText st1 st2 :
  metrics st1 = metrics st2 →
  buildModLogMessage message detection config status errorText st1
  = buildModLogMessage message detection config status errorText st2.
Proof. intros Hm. unfold buildModLogMessage. by rewrite Hm. Qed.

(** The audit text ends with the error line when there is an error text. *)
Lemma buildModLogMessage_error message detection config status errorText st :
  errorText ≠ [] →
  (js "Warning error: " ++ errorText)
    `suffix_of` buildModLogMessage message detection config status errorText st.
Proof.
  intros Hne. unfold buildModLogMessage.
  apply nonEmpty_spec in Hne. unfold isTruthy. rewrite Hne.
  rewrite !app_assoc. apply join_snoc_suffix.
Qed.

(** The lookup reads the cached channel ids of the state, and nothing else
    of it. *)
Lemma logDestination_cache w message config st1 st2 :
  modLogChannelIds st1 = modLogChannelIds st2 →
  logDestination w message config st1 = logDestination w message config st2.
Proof. intros Hc. unfold logDestination. by rewrite Hc. Qed.

(** The log step: the platform is asked for the channel; then the audit
    text is sent to the channel found, or a line is printed. *)
Lemma sendModLog_trace w message detection config status errorText st :
  ∃ st' fetches,
    sendModLog w message detection config status errorText st
    = (Returned tt, st',
       fetches ++
       match logDestination w message config st with
       | inr (Some ch) =>
           Send (gcId ch)
             (buildModLogMessage message detection config status errorText st)
           :: match sendOutcome w (gcId ch) with
              | Some e =>
                  [ConsoleError
                     (js "Rule Guardian: failed to send mod-log message: "
                      ++ formatError e)]
              | None => []
              end
       | inr None => [ConsoleError MOD_LOG_NOT_FOUND]
       | inl e =>
           [ConsoleError
              (js "Rule Guardian: failed to send mod-log message: "
               ++ formatError e)]
       end) ∧
    forallb isFetch fetches = true.
Proof.
  rewrite sendModLog_unfold.
  destruct (resolveModLogChannel_destination w message config st)
    as (st1 & fetches & -> & Hfetch & Hmet).
  destruct (logDestination w message config st) as [e|[ch|]].
  - by exists st1, fetches.
  - exists st1, fetches. split; [|done].
    by rewrite (buildModLogMessage_metrics _ _ _ _ _ st1 st Hmet).
  - by exists st1, fetches.
Qed.

(** The warning step, then the log step. *)
Lemma handleTriggeredMessage_trace w now message detection config state :
  let suppressed := (isCoolingDown state message config now).1 in
  let status :=
    if suppressed then COOLDOWN_SUPPRESSED
    else match replyOutcome w with None => SENT | Some _ => FAILED end in
  let errorText :=
    if suppressed then []
    else match replyOutcome w with Some e => formatError e | None => [] end in
  ∃ state' fetches,
    handleTriggeredMessage w now message detection config state
    = (Returned tt, state',
       (if suppressed then []
        else [Reply (buildWarningMessage config detection message)])
       ++ fetches ++
       match logDestination w message config state with
       | inr (Some ch) =>
           Send (gcId ch)
             (buildModLogMessage message detection config status errorText state)
           :: match sendOutcome w (gcId ch) with
              | Some e =>
                  [ConsoleError
                     (js "Rule Guardian: failed to send mod-log message: "
                      ++ formatError e)]
              | None => []
              end
       | inr None => [ConsoleError MOD_LOG_NOT_FOUND]
       | inl e =>
           [ConsoleError
              (js "Rule Guardian: failed to send mod-log message: "
               ++ formatError e)]
       end) ∧
    forallb isFetch fetches = true.
Proof.
  cbv zeta.
  assert (metrics (isCoolingDown state message config now).2 = metrics state ∧
          modLogChannelIds (isCoolingDown state message config now).2
          = modLogChannelIds state) as [Hmet Hcache].
  { unfold isCoolingDown. by destruct (from_option _ false _). }
  destruct (isCoolingDown state message config now) as [suppressed state1] eqn:Hcool.
  simpl in Hmet, Hcache. simpl.
  set (status := if suppressed then COOLDOWN_SUPPRESSED
                 else match replyOutcome w with None => SENT | Some _ => FAILED end).
  set (errorText := if suppressed then []
                    else match replyOutcome w with
                         | Some e => formatError e
                         | None => []
                         end).
  destruct (sendModLog_trace w message detection config status errorText state1)
    as (state' & fetches & Hlog & Hfetch).
  rewrite (logDestination_cache w message config state1 state Hcache) in Hlog.
  rewrite (buildModLogMessage_metrics _ _ _ _ _ state1 state Hmet) in Hlog.
  exists state', fetches. split; [|done].
  unfold handleTriggeredMessage. rewrite bind_unfold. unfold getState.
  rewrite Hcool. rewrite bind_unfold. unfold putState.
  rewrite bind_unfold. unfold warnUser.
  unfold status, errorText in Hlog.
  destruct suppressed; simpl.
  - by rewrite Hlog.
  - unfold tryCatch, await. rewrite bind_unfold.
    destruct (replyOutcome w) as [e|]; simpl; by rewrite Hlog.
Qed.

End Orchestration.

(** On a platform that knows no channel a triggered message is replied to
    and the lookup is made, but no audit text is sent: the run ends with
    the line on the console. *)
Lemma log_attempt_counterexample :
  ¬ ∃ U : UnicodeCase,
      @logAlwaysAttempted U quietWorld 1000
        (sampleMessage (Some (js "sell")))
        {| triggered := true; matchedTerms := [js "sell"];
           matchedPriceSignals := []; triggerTypes := [WORD_MATCH] |}
        (@defaultConfig U) (initialState (js "2024-05-01")).
Proof.
  intros [U (toChannel & text & Hin)].
  destruct (@handleTriggeredMessage_trace U quietWorld 1000
              (sampleMessage (Some (js "sell")))
              {| triggered := true; matchedTerms := [js "sell"];
                 matchedPriceSignals := []; triggerTypes := [WORD_MATCH] |}
              (@defaultConfig U) (initialState (js "2024-05-01")))
    as (state' & fetches & Hrun & Hfetch).
  pose proof (proj1 (forallb_forall _ _) Hfetch) as Hfetch'.
  assert (logDestination quietWorld (sampleMessage (Some (js "sell")))
            (@defaultConfig U) (initialState (js "2024-05-01")) = inr None) as Hnone
    by reflexivity.
  rewrite Hrun in Hin. cbn [snd] in Hin. rewrite Hnone in Hin.
  rewrite !elem_of_app, list_elem_of_singleton in Hin.
  destruct Hin as [Hin|[Hin|?]]; [|by apply list_elem_of_In, Hfetch' in Hin|done].
  destruct (isCoolingDown _ _ _ _).1; [by apply elem_of_nil in Hin|].
  by apply list_elem_of_singleton in Hin.
Qed.

(** C6 (amended). For a triggered message and every answer of the platform:
    when the cooldown suppresses, the status is [cooldown_suppressed] and no
    reply is attempted; when the reply is attempted and fails, the error is
    caught and the status is [failed], with the message of the error (its
    string form when it is no [Error], [unknown error] when it is falsy) as
    the error text.  In each of the three cases the log step runs next: the
    platform is asked for the log channel; when one is found, the audit
    text, which carries the status and ends with the error line when there
    is an error text, is sent to it, and a rejected delivery ends in a line
    on the console; when none is found nothing is sent and a line is
    printed; when the lookup fails the error is printed.  The run returns
    normally in every case. *)
Theorem warning_outcome_never_blocks_log `{UnicodeCase}
    w now message detection config state :
  let suppressed := (isCoolingDown state message config now).1 in
  let describe (e : JsValue) : jsstring :=
    match e with
    | ErrorObject m => m
    | FalsyValue => js "unknown error"
    | OtherValue s => s
    end in
  let status :=
    if suppressed then js "cooldown_suppressed"
    else match replyOutcome w with None => js "sent" | Some _ => js "failed" end in
  let errorText :=
    if suppressed then []
    else match replyOutcome w with Some e => describe e | None => [] end in
  let warning :=
    if suppressed then []
    else [Reply (buildWarningMessage config detection message)] in
  let auditText :=
    buildModLogMessage message detection config status errorText state in
  let diagnostic (e : JsValue) : Event :=
    ConsoleError (js "Rule Guardian: failed to send mod-log message: "
                  ++ describe e) in
  ∃ state' fetches,
    handleTriggeredMessage w now message detection config state
    = (Returned tt, state',
       warning ++ fetches ++
       match logDestination w message config state with
       | inr (Some ch) =>
           Send (gcId ch) auditText
           :: match sendOutcome w (gcId ch) with
              | Some e => [diagnostic e]
              | None => []
              end
       | inr None => [ConsoleError MOD_LOG_NOT_FOUND]
       | inl e => [diagnostic e]
       end) ∧
    forallb isFetch fetches = true ∧
    (∃ pre post, auditText = pre ++ (js "Warning status: " ++ status) ++ post) ∧
    (errorText ≠ [] → (js "Warning error: " ++ errorText) `suffix_of` auditText).
Proof.
  cbv zeta.
  destruct (handleTriggeredMessage_trace w now message detection config state)
    as (state' & fetches & Hrun & Hfetch).
  exists state', fetches. split_and!.
  - exact Hrun.
  - done.
  - apply buildModLogMessage_status.
  - apply buildModLogMessage_error.
Qed.

(** C9. A message whose text is absent is classified as the empty string;
    the verdict is not triggered, and the pipeline returns normally, with
    the state as it was and no outward call. *)
Theorem absent_text_is_not_triggering `{UnicodeCase}
    w currentDay now message config detectors state :
  buildDetectors config = Some detectors →
  content message = None →
  default [] (content message) = [] ∧
  triggered (detectContent (default [] (content message)) detectors config)
    = false ∧
  onMessageCreate w currentDay now message config detectors state
    = (Returned tt, state, []).
Proof.
  intros Hbuild Hcontent.
  rewrite buildDetectors_total in Hbuild. injection Hbuild as <-.
  rewrite Hcontent. simpl.
  pose proof (detectContent_empty config) as Hempty.
  split_and!; [done..|].
  unfold onMessageCreate. rewrite Hcontent. simpl. rewrite Hempty. simpl.
  by destruct (shouldProcessMessage message config).
Qed.

Lemma absent_text_witness :
  let config := @defaultConfig asciiCase in
  let message := sampleMessage None in
  let w :=
    {| replyOutcome := None; channelCache := λ _, None;
       fetchChannel := λ _, inr None; fetchAllChannels := inr [];
       sendOutcome := λ _, None |} in
  default [] (content message) = [] ∧
  triggered (@detectContent asciiCase (default [] (content message))
               (compiledDetectors config) config) = false ∧
  @onMessageCreate asciiCase w (js "2024-05-01") 1714564800000%Z message config
    (compiledDetectors config) (initialState (js "2024-05-01"))
  = (Returned tt, initialState (js "2024-05-01"), []).
Proof.
  apply (@absent_text_is_not_triggering asciiCase).
  - apply buildDetectors_total.
  - reflexivity.
Defined.

(** ** Rule compilation as a whole *)

Lemma fmap_section {A B} (h : A → B) (g : B → A) (l : list A) :
  (∀ x, g (h x) = x) → g <$> (h <$> l) = l.
Proof.
  intros Hg. induction l as [|x l IH]; [done|].
  rewrite !fmap_cons, Hg. by f_equal.
Qed.

(** X1. Compilation never fails and keeps the three configured lists in
    order; the matcher of a term or keyword accepts exactly the texts in
    which the word occurs, up to letter case, between two word boundaries,
    and the matcher of an exception pattern exactly the texts of which the
    pattern is a case-insensitive substring: every character of a
    configured string is matched literally. *)
Theorem rule_compilation `{UnicodeCase} config :
  ∃ detectors,
    buildDetectors config = Some detectors ∧
    term <$> restrictedTermChecks detectors = restrictedTerms config ∧
    exceptionPattern <$> exceptionChecks detectors = exceptionPatterns config ∧
    keyword <$> priceKeywordChecks detectors = priceKeywords config ∧
    (∀ check text, check ∈ restrictedTermChecks detectors →
       RegExp_test (termRegex check) text = true
       ↔ occursBetweenBoundaries (term check) text) ∧
    (∀ check text, check ∈ exceptionChecks detectors →
       RegExp_test (exceptionRegex check) text = true
       ↔ containsIgnoringCase (exceptionPattern check) text) ∧
    (∀ check text, check ∈ priceKeywordChecks detectors →
       RegExp_test (keywordRegex check) text = true
       ↔ occursBetweenBoundaries (keyword check) text).
Proof.
  exists (compiledDetectors config). split; [apply buildDetectors_total|].
  unfold compiledDetectors. simpl.
  split_and!; try (by apply fmap_section).
  - intros check text (t & -> & _)%list_elem_of_fmap. apply test_wordRegExp.
  - intros check text (p & -> & _)%list_elem_of_fmap. apply test_substringRegExp.
  - intros check text (w & -> & _)%list_elem_of_fmap. apply test_wordRegExp.
Qed.

(** ** Comma-separated lists and the configuration *)

Lemma String_split_nonempty sep v : String_split sep v ≠ [].
Proof. destruct v as [|c v]; simpl; [done|]. repeat case_match; done. Qed.

Lemma String_split_cons sep c v :
  c ≠ sep →
  ∃ piece pieces, String_split sep v = piece :: pieces ∧
                  String_split sep (c :: v) = (c :: piece) :: pieces.
Proof.
  intros Hc. simpl. apply N.eqb_neq in Hc. rewrite Hc.
  destruct (String_split sep v) as [|piece pieces] eqn:E.
  - by apply String_split_nonempty in E.
  - eauto.
Qed.

Lemma String_split_app sep p v :
  sep ∉ p →
  ∃ piece pieces, String_split sep v = piece :: pieces ∧
                  String_split sep (p ++ v) = (p ++ piece) :: pieces.
Proof.
  induction p as [|c p IH]; intros Hp.
  - destruct (String_split sep v) as [|piece pieces] eqn:E.
    + by apply String_split_nonempty in E.
    + eauto.
  - apply not_elem_of_cons in Hp as [Hc Hp].
    destruct (IH Hp) as (piece & pieces & E1 & E2).
    exists piece, pieces. split; [done|].
    destruct (String_split_cons sep c (p ++ v)) as (q & qs & E3 & E4); [done|].
    simpl app. rewrite E4. rewrite E2 in E3. by simplify_eq.
Qed.

Lemma String_split_sep sep v : String_split sep (sep :: v) = [] :: String_split sep v.
Proof. simpl. by rewrite N.eqb_refl. Qed.

Lemma join_cons_cons sep p q (qs : list jsstring) :
  join sep (p :: q :: qs) = p ++ sep ++ join sep (q :: qs).
Proof. unfold join. rewrite fmap_cons. simpl concat. by rewrite <- app_assoc. Qed.

Lemma String_split_join sep raws :
  raws ≠ [] → Forall (λ raw, sep ∉ raw) raws →
  String_split sep (join [sep] raws) = raws.
Proof.
  induction raws as [|p rest IH]; [done|]. intros _ Hall.
  apply Forall_cons in Hall as [Hp Hrest].
  destruct rest as [|q qs].
  - simpl. destruct (String_split_app sep p [] Hp) as (piece & pieces & E1 & E2).
    rewrite E2. simpl in E1. simplify_eq. by rewrite app_nil_r.
  - rewrite join_cons_cons.
    destruct (String_split_app sep p ([sep] ++ join [sep] (q :: qs)) Hp)
      as (piece & pieces & E1 & E2).
    rewrite E2. change ([sep] ++ ?x) with (sep :: x) in E1.
    rewrite String_split_sep in E1. simplify_eq.
    rewrite app_nil_r. f_equal. by apply IH.
Qed.

(** Every piece is a part of the value that holds no separator. *)
Lemma elem_of_String_split sep v piece :
  piece ∈ String_split sep v → (sep ∉ piece) ∧ ∃ pre post, v = pre ++ piece ++ post.
Proof.
  revert piece. induction v as [|c v IH]; intros piece; simpl.
  - intros ->%list_elem_of_singleton. split; [apply not_elem_of_nil|]. by exists [], [].
  - destruct (c =? sep) eqn:Hc.
    + apply N.eqb_eq in Hc as ->. intros [->|Hin]%elem_of_cons.
      * split; [apply not_elem_of_nil|]. by exists [], (sep :: v).
      * destruct (IH _ Hin) as [Hfree (pre & post & ->)]. split; [done|].
        by exists (sep :: pre), post.
    + apply N.eqb_neq in Hc.
      destruct (String_split sep v) as [|q qs] eqn:E.
      { by apply String_split_nonempty in E. }
      intros [->|Hin]%elem_of_cons.
      * destruct (IH q) as [Hfree (pre & post & Hv)]; [left|].
        split; [by apply not_elem_of_cons|].
        (* the first piece starts the value *)
        clear IH Hfree pre post Hv.
        assert (∃ post, v = q ++ post) as [post ->].
        { clear Hc. revert q qs E. induction v as [|d v IHv]; intros q qs E; simpl in E.
          - simplify_eq. by exists [].
          - destruct (d =? sep) eqn:Hd.
            + simplify_eq. by exists (d :: v).
            + destruct (String_split sep v) as [|q' qs'] eqn:E'.
              { by apply String_split_nonempty in E'. }
              simplify_eq. destruct (IHv _ _ eq_refl) as [post ->]. by exists post. }
        by exists [], post.
      * destruct (IH piece) as [Hfree (pre & post & ->)]; [by right|].
        split; [done|]. by exists (c :: pre), post.
Qed.

Lemma String_trimStart_spec s :
  ∃ l, s = l ++ String_trimStart s ∧ blank l ∧
       from_option isWhiteSpace false (head (String_trimStart s)) = false.
Proof.
  induction s as [|c s (l & Hs & Hl & Hhead)]; simpl.
  - exists []. split_and!; [done|constructor|done].
  - destruct (isWhiteSpace c) eqn:Hc.
    + exists (c :: l). split; [by rewrite <- app_comm_cons, <- Hs|].
      split; [by constructor|done].
    + exists []. split; [done|]. split; [constructor|done].
Qed.

Lemma String_trimStart_blank l s : blank l → String_trimStart (l ++ s) = String_trimStart s.
Proof. induction 1 as [|c l Hc _ IH]; simpl; [done|]. by rewrite Hc. Qed.

Lemma String_trimStart_id s :
  from_option isWhiteSpace false (head s) = false → String_trimStart s = s.
Proof. destruct s as [|c s]; simpl; [done|]. by intros ->. Qed.

Lemma blank_reverse l : blank l → blank (reverse l).
Proof. unfold blank. by rewrite Forall_reverse. Qed.

Lemma head_reverse_last {A} (l : list A) : head (reverse l) = last l.
Proof. by rewrite <- last_reverse, reverse_involutive. Qed.

Lemma String_trimEnd_spec s :
  ∃ r, s = String_trimEnd s ++ r ∧ blank r ∧
       from_option isWhiteSpace false (last (String_trimEnd s)) = false.
Proof.
  unfold String_trimEnd.
  destruct (String_trimStart_spec (reverse s)) as (l & Hs & Hl & Hhead).
  exists (reverse l). split_and!.
  - rewrite <- reverse_app, <- Hs. by rewrite reverse_involutive.
  - by apply blank_reverse.
  - by rewrite last_reverse.
Qed.

Lemma String_trimEnd_head s :
  from_option isWhiteSpace false (head s) = false →
  from_option isWhiteSpace false (head (String_trimEnd s)) = false.
Proof.
  destruct (String_trimEnd_spec s) as (r & Hs & _ & _).
  destruct (String_trimEnd s) as [|c t]; [done|].
  rewrite Hs. done.
Qed.

(** [trim] removes white space at both ends, and nothing else. *)
Lemma String_trim_spec s : padded s (String_trim s) ∧ trimmed (String_trim s).
Proof.
  unfold String_trim.
  destruct (String_trimStart_spec s) as (l & Hs & Hl & Hhead).
  destruct (String_trimEnd_spec (String_trimStart s)) as (r & Ht & Hr & Hlast).
  split.
  - exists l, r. split; [|done]. by rewrite <- Ht.
  - split; [by apply String_trimEnd_head|done].
Qed.

Lemma String_trim_padded raw item :
  item ≠ [] → trimmed item → padded raw item → String_trim raw = item.
Proof.
  intros Hne [Hhead Hlast] (l & r & -> & Hl & Hr). unfold String_trim.
  rewrite String_trimStart_blank by done.
  assert (String_trimStart (item ++ r) = item ++ r) as ->.
  { apply String_trimStart_id. by destruct item. }
  unfold String_trimEnd. rewrite reverse_app.
  rewrite String_trimStart_blank by by apply blank_reverse.
  rewrite String_trimStart_id; [by rewrite reverse_involutive|].
  by rewrite head_reverse_last.
Qed.

Lemma not_isWhiteSpace_COMMA : isWhiteSpace COMMA = false.
Proof. by vm_compute. Qed.

Lemma blank_no_comma l : blank l → COMMA ∉ l.
Proof.
  intros Hl Hin. unfold blank in Hl. rewrite Forall_forall in Hl.
  apply Hl in Hin. by rewrite not_isWhiteSpace_COMMA in Hin.
Qed.

Lemma isTruthy_spec s : isTruthy s = true ↔ s ≠ [].
Proof. apply nonEmpty_spec. Qed.

(** An item is a piece between two commas, trimmed, and not empty. *)
Lemma elem_of_parseCsvList value item :
  item ∈ parseCsvList value →
  ∃ v piece, value = Some v ∧ piece ∈ String_split COMMA v ∧
             item = String_trim piece ∧ item ≠ [].
Proof.
  destruct value as [v|]; simpl; [|by intros ?%elem_of_nil].
  destruct (isTruthy v); simpl; [|by intros ?%elem_of_nil].
  intros Hin. apply list_elem_of_In, filter_In in Hin as [Hin Hne].
  apply list_elem_of_In, list_elem_of_fmap in Hin as (piece & -> & Hpiece).
  exists v, piece. split_and!; [done..|]. by apply isTruthy_spec.
Qed.

Lemma listItem_trim piece :
  (COMMA ∉ piece) → String_trim piece ≠ [] → listItem (String_trim piece).
Proof.
  intros Hfree Hne.
  destruct (String_trim_spec piece) as [(l & r & Hpiece & _) Htrim].
  split_and!; [done| |done].
  intros Hin. apply Hfree. rewrite Hpiece. set_solver.
Qed.

Lemma filter_all {A} (f : A → bool) (l : list A) :
  Forall (λ x, f x = true) l → List.filter f l = l.
Proof. induction 1 as [|x l Hx _ IH]; simpl; [done|]. by rewrite Hx, IH. Qed.

Lemma padded_no_comma raw item : (COMMA ∉ item) → padded raw item → COMMA ∉ raw.
Proof.
  intros Hitem (l & r & -> & Hl & Hr). rewrite !elem_of_app.
  intros [?|[?|?]]; [by apply (blank_no_comma l)|done|by apply (blank_no_comma r)].
Qed.

Lemma Forall_parseCsvList value : Forall listItem (parseCsvList value).
Proof.
  apply Forall_forall. intros item Hin.
  apply elem_of_parseCsvList in Hin as (v & piece & _ & Hpiece & -> & Hne).
  apply elem_of_String_split in Hpiece as [Hfree _]. by apply listItem_trim.
Qed.



(** X3. Round trip: items that are not empty, hold no comma and have no
    white space at their ends, written with commas between them and any
    white space around each, are read back as they are, in their order. *)
Theorem parseCsvList_round_trip raws items :
  Forall listItem items → Forall2 padded raws items →
  parseCsvList (Some (join (js ",") raws)) = items.
Proof.
  change (js ",") with [COMMA].
  intros Hitems Hpad. destruct raws as [|raw raws].
  { apply Forall2_nil_inv_l in Hpad as ->. done. }
  destruct items as [|item items]; [by apply Forall2_cons_nil_inv in Hpad|].
  unfold parseCsvList.
  assert (isTruthy (join [COMMA] (raw :: raws)) = true) as ->.
  { apply Forall2_cons_1 in Hpad as [(l & r & -> & _) _].
    apply Forall_cons in Hitems as [(Hne & _) _].
    apply isTruthy_spec. unfold join. destruct l; [destruct item|]; done. }
  simpl negb. cbv iota.
  rewrite String_split_join; [|done|].
  2:{ clear -Hitems Hpad. induction Hpad as [|r i rs is_ Hp _ IH]; [constructor|].
      apply Forall_cons in Hitems as [(_ & Hfree & _) Hitems].
      constructor; [by eapply padded_no_comma|by apply IH]. }
  assert (String_trim <$> (raw :: raws) = item :: items) as ->.
  { clear -Hitems Hpad. induction Hpad as [|r i rs is_ Hp _ IH]; [done|].
    apply Forall_cons in Hitems as [(Hne & _ & Htrim) Hitems].
    rewrite fmap_cons. f_equal; [by apply String_trim_padded|by apply IH]. }
  apply filter_all. eapply Forall_impl; [exact Hitems|].
  intros s (Hne & _). by apply isTruthy_spec.
Qed.

Lemma listItem_intro s :
  nonEmpty s && negb (bool_decide (COMMA ∈ s))
  && negb (from_option isWhiteSpace false (head s))
  && negb (from_option isWhiteSpace false (last s)) = true → listItem s.
Proof.
  rewrite !andb_true_iff, !negb_true_iff, bool_decide_eq_false, nonEmpty_spec.
  intros [[[? ?] ?] ?]. by repeat split.
Qed.

Lemma parseCsvList_round_trip_witness :
  parseCsvList (Some (js " sell,buy now  ")) = [js "sell"; js "buy now"].
Proof.
  apply (parseCsvList_round_trip [js " sell"; js "buy now  "] [js "sell"; js "buy now"]).
  - repeat (constructor; [by apply listItem_intro|]). constructor.
  - constructor; [|constructor; [|constructor]].
    + exists (js " "), []. split; [reflexivity|]. split; [|constructor].
      repeat (constructor; [reflexivity|]). constructor.
    + exists [], (js "  "). split; [reflexivity|]. split; [constructor|].
      repeat (constructor; [reflexivity|]). constructor.
Defined.

Lemma orDefault_nonempty l fallback : fallback ≠ [] → orDefault l fallback ≠ [].
Proof. unfold orDefault. destruct l; simpl; done. Qed.

Lemma orDefault_Forall (P : jsstring → Prop) l fallback :
  Forall P l → Forall P fallback → Forall P (orDefault l fallback).
Proof. unfold orDefault. by destruct (nonEmpty l). Qed.

Lemma listItem_defaults :
  Forall listItem DEFAULT_RESTRICTED_TERMS ∧ Forall listItem DEFAULT_PRICE_KEYWORDS
  ∧ Forall listItem DEFAULT_RULE_CHANNEL_NAMES.
Proof.
  split_and!; repeat (constructor; [by apply listItem_intro|]); constructor.
Qed.

(** X4. Whatever the environment holds, the configuration has at least one
    restricted term, one price keyword and one rule-channel name (the
    defaults step in for an empty list), and every restricted term,
    exception pattern, price keyword and rule-channel id is an item as
    [parseCsvList] returns them: none is empty. *)
Theorem buildConfig_rule_lists `{UnicodeCase} cooldownThreshold env :
  let config := buildConfig cooldownThreshold env in
  restrictedTerms config ≠ [] ∧ priceKeywords config ≠ [] ∧
  ruleChannelNames config ≠ ∅ ∧
  Forall listItem (restrictedTerms config) ∧
  Forall listItem (exceptionPatterns config) ∧
  Forall listItem (priceKeywords config) ∧
  (∀ id, id ∈ ruleChannelIds config → listItem id).
Proof.
  destruct listItem_defaults as (Hterms & Hkeys & Hnames). cbv zeta. simpl.
  split_and!.
  - by apply orDefault_nonempty.
  - by apply orDefault_nonempty.
  - unfold normalizeSet.
    pose proof (orDefault_nonempty (parseCsvList (env !! "RG_RULE_CHANNEL_NAMES"%string))
                  DEFAULT_RULE_CHANNEL_NAMES ltac:(done)) as Hne.
    destruct (orDefault _ _) as [|n ns]; [done|]. rewrite fmap_cons. simpl.
    set_solver.
  - apply orDefault_Forall; [apply Forall_parseCsvList|done].
  - apply Forall_parseCsvList.
  - apply orDefault_Forall; [apply Forall_parseCsvList|done].
  - intros id Hid. apply elem_of_list_to_set in Hid.
    pose proof (Forall_parseCsvList (env !! "RG_RULE_CHANNEL_IDS"%string)) as Hall.
    rewrite Forall_forall in Hall. by apply Hall.
Qed.
(** X5. When none of the variables [buildConfig] reads is set, the
    configuration is the default one. *)
Theorem buildConfig_defaults `{UnicodeCase} cooldownThreshold (env : Env) :
  (∀ name, name ∈ ruleGuardianVariables → env !! name = None) →
  buildConfig cooldownThreshold env = defaultConfig.
Proof.
  intros Hunset. unfold buildConfig, envOr, cooldownMs.
  rewrite !Hunset by (unfold ruleGuardianVariables; set_solver).
  reflexivity.
Qed.

Lemma buildConfig_defaults_witness :
  @buildConfig asciiCase (λ _, 0%Z) {[ "DISCORD_TOKEN"%string := js "token" ]}
  = @defaultConfig asciiCase.
Proof.
  apply (@buildConfig_defaults asciiCase).
  intros name Hname. apply lookup_singleton_ne.
  intros <-. vm_compute in Hname.
  repeat (apply elem_of_cons in Hname as [Hname|Hname]; [discriminate|]).
  by apply elem_of_nil in Hname.
Defined.

(** X6. The guardian starts iff [RG_ENABLED] is unset or spells [true] in
    any letter case, and [DISCORD_TOKEN] is set and not empty.  It then
    starts with the configuration of the environment, the rules compiled
    from it (compilation does not fail) and a session state without
    cooldowns, cached channels or counts.  Any other value of [RG_ENABLED]
    switches it off, whatever the token. *)
Theorem startup_gate `{UnicodeCase} cooldownThreshold (env : Env) today :
  let switchedOn :=
    env !! "RG_ENABLED"%string = None ∨
    ∃ v, env !! "RG_ENABLED"%string = Some v ∧ toLowerCase v = js "true" in
  let hasToken := ∃ t, env !! "DISCORD_TOKEN"%string = Some t ∧ t ≠ [] in
  let config := buildConfig cooldownThreshold env in
  (¬ switchedOn →
     startRuleGuardian cooldownThreshold env today = NotStarted GUARDIAN_DISABLED) ∧
  (switchedOn → ¬ hasToken →
     startRuleGuardian cooldownThreshold env today = NotStarted TOKEN_MISSING) ∧
  (switchedOn → hasToken →
     startRuleGuardian cooldownThreshold env today
     = Started config (compiledDetectors config) (initialState today)).
Proof.
  cbv zeta. unfold startRuleGuardian. rewrite buildDetectors_total.
  assert (enabled (buildConfig cooldownThreshold env) = true ↔
          (env !! "RG_ENABLED"%string = None ∨
           ∃ v, env !! "RG_ENABLED"%string = Some v ∧ toLowerCase v = js "true"))
    as Hon.
  { simpl. unfold parseBoolean. destruct (env !! "RG_ENABLED"%string) as [v|].
    - rewrite bool_decide_eq_true. split; [intros ?; right; by exists v|].
      intros [?|(v' & ? & ?)]; by simplify_eq.
    - split; [by left|done]. }
  assert (isTruthy (envOr env "DISCORD_TOKEN" []) = true ↔
          ∃ t, env !! "DISCORD_TOKEN"%string = Some t ∧ t ≠ []) as Htoken.
  { unfold envOr. destruct (env !! "DISCORD_TOKEN"%string) as [t|].
    - destruct t as [|c t]; simpl.
      + split; [done|]. by intros (t' & ? & ?); simplify_eq.
      + split; [|done]. intros _. by exists (c :: t).
    - simpl. split; [done|]. by intros (t' & ? & ?). }
  destruct (enabled (buildConfig cooldownThreshold env)); simpl.
  - destruct (isTruthy (envOr env "DISCORD_TOKEN" [])); simpl.
    + split_and!; [|intros _ Hno; destruct Hno; by apply Htoken|done].
      intros Hno. destruct Hno. by apply Hon.
    + split_and!; [|done|].
      * intros Hno. destruct Hno. by apply Hon.
      * intros _ Hyes. by apply Htoken in Hyes.
  - split_and!; [done|..]; intros Hyes; by apply Hon in Hyes.
Qed.

(** ** The highest counters *)

Lemma insertByCount_Permutation e sorted : insertByCount e sorted ≡ₚ e :: sorted.
Proof.
  induction sorted as [|e' rest IH]; simpl; [done|].
  destruct (e'.2 <=? e.2); [done|]. rewrite IH. apply Permutation_swap.
Qed.

Lemma sortByCount_Permutation (map : CountMap) : foldr insertByCount [] map ≡ₚ map.
Proof.
  induction map as [|e map IH]; simpl; [done|].
  by rewrite insertByCount_Permutation, IH.
Qed.

Lemma insertByCount_sorted e sorted :
  StronglySorted countAtLeast sorted →
  StronglySorted countAtLeast (insertByCount e sorted).
Proof.
  induction 1 as [|e' rest Hrest IH Hall]; simpl.
  - repeat constructor.
  - destruct (e'.2 <=? e.2) eqn:Hle.
    + apply N.leb_le in Hle. constructor; [by constructor|].
      constructor; [done|]. eapply Forall_impl; [exact Hall|].
      unfold countAtLeast. intros x Hx. lia.
    + apply N.leb_gt in Hle. constructor; [done|].
      rewrite insertByCount_Permutation. constructor; [|done].
      unfold countAtLeast. lia.
Qed.

Lemma sortByCount_sorted (map : CountMap) :
  StronglySorted countAtLeast (foldr insertByCount [] map).
Proof.
  induction map as [|e map IH]; simpl; [constructor|].
  by apply insertByCount_sorted.
Qed.

Lemma withCount_insertByCount c e sorted :
  withCount c (insertByCount e sorted) = withCount c (e :: sorted).
Proof.
  unfold withCount. induction sorted as [|e' rest IH]; simpl; [done|].
  destruct (e'.2 <=? e.2) eqn:Hle; [done|]. apply N.leb_gt in Hle.
  simpl. rewrite IH. simpl.
  destruct (e.2 =? c) eqn:He; [|done]. apply N.eqb_eq in He.
  assert ((e'.2 =? c) = false) as ->; [apply N.eqb_neq; lia|done].
Qed.

Lemma withCount_sortByCount c (map : CountMap) :
  withCount c (foldr insertByCount [] map) = withCount c map.
Proof.
  induction map as [|e map IH]; simpl; [done|].
  rewrite withCount_insertByCount. unfold withCount in *. simpl. by rewrite IH.
Qed.

(** X7. [topEntries] returns [limit] entries, or all when the map holds
    fewer, in the order of non-increasing counts; they are entries of the
    map, and no entry that is left out has a higher count than an entry
    that is returned. *)
Theorem topEntries_highest_counts (map : CountMap) limit :
  let top := topEntries map limit in
  length top = (limit `min` length map)%nat ∧
  StronglySorted countAtLeast top ∧
  ∃ rest, map ≡ₚ top ++ rest ∧ ∀ a b, a ∈ top → b ∈ rest → b.2 ≤ a.2.
Proof.
  cbv zeta. unfold topEntries. split_and!.
  - by rewrite length_take, sortByCount_Permutation.
  - apply (StronglySorted_app_1_l _ _ (drop limit (foldr insertByCount [] map))).
    rewrite take_drop. apply sortByCount_sorted.
  - exists (drop limit (foldr insertByCount [] map)).
    rewrite take_drop. split; [by rewrite sortByCount_Permutation|].
    intros a b Ha Hb.
    apply (StronglySorted_app_1_elem_of countAtLeast
             (take limit (foldr insertByCount [] map))
             (drop limit (foldr insertByCount [] map)) a b); [|done..].
    rewrite take_drop. apply sortByCount_sorted.
Qed.

Lemma withCount_app c (l1 l2 : CountMap) :
  withCount c (l1 ++ l2) = withCount c l1 ++ withCount c l2.
Proof. apply List.filter_app. Qed.

(** X8. Ties keep the order of the map: among the entries with one and the
    same count, those returned are the first ones in the order of
    insertion, in that order. *)
Theorem topEntries_stable (map : CountMap) limit c :
  withCount c (topEntries map limit) `prefix_of` withCount c map.
Proof.
  unfold topEntries. rewrite <- (withCount_sortByCount c map).
  rewrite <- (take_drop limit (foldr insertByCount [] map)) at 2.
  rewrite withCount_app. by eexists.
Qed.

(** ** Runs of the handler *)

Lemma Map_set_keys (map : CountMap) key value :
  (Map_set map key value).*1
  = if bool_decide (key ∈ map.*1) then map.*1 else map.*1 ++ [key].
Proof.
  induction map as [|[k v] map IH]; csimpl; [done|].
  destruct (bool_decide (k = key)) eqn:Hk.
  - apply bool_decide_eq_true in Hk as ->. csimpl.
    rewrite bool_decide_eq_true_2; [done|by left].
  - apply bool_decide_eq_false in Hk. csimpl. rewrite IH.
    destruct (bool_decide (key ∈ map.*1)) eqn:Hin.
    + apply bool_decide_eq_true in Hin.
      rewrite bool_decide_eq_true_2; [done|by right].
    + apply bool_decide_eq_false in Hin.
      rewrite bool_decide_eq_false_2; [done|].
      intros [?|?]%elem_of_cons; by simplify_eq.
Qed.

Lemma Map_set_NoDup (map : CountMap) key value :
  NoDup map.*1 → NoDup (Map_set map key value).*1.
Proof.
  intros Hnd. rewrite Map_set_keys.
  destruct (bool_decide (key ∈ map.*1)) eqn:Hin; [done|].
  apply bool_decide_eq_false in Hin. apply NoDup_app. split_and!; [done| |].
  - intros x Hx ->%list_elem_of_singleton. done.
  - apply NoDup_singleton.
Qed.

Lemma Map_set_Forall (P : N → Prop) (map : CountMap) key value :
  Forall (λ e, P e.2) map → P value → Forall (λ e, P e.2) (Map_set map key value).
Proof.
  intros Hall Hv. induction Hall as [|[k v] map Hk Hmap IH]; simpl.
  - by repeat constructor.
  - destruct (bool_decide (k = key)); constructor; done.
Qed.

Lemma sumCounts_Map_set (map : CountMap) key value :
  sumCounts (Map_set map key value) + countOf map key = sumCounts map + value.
Proof.
  unfold countOf. induction map as [|[k v] map IH]; simpl; [lia|].
  destruct (bool_decide (k = key)); simpl; lia.
Qed.

Lemma sumCounts_bumpCount (map : CountMap) key delta :
  sumCounts (bumpCount map key delta) = sumCounts map + delta.
Proof.
  unfold bumpCount.
  pose proof (sumCounts_Map_set map key (default 0 (Map_get map key) + delta)).
  unfold countOf in *. lia.
Qed.

Lemma bumpCount_NoDup (map : CountMap) key delta :
  NoDup map.*1 → NoDup (bumpCount map key delta).*1.
Proof. apply Map_set_NoDup. Qed.

Lemma bumpCount_positive (map : CountMap) key :
  Forall (λ e, 0 < e.2) map → Forall (λ e, 0 < e.2) (bumpCount map key 1).
Proof. intros Hall. apply (Map_set_Forall (λ v, 0 < v)); [done|lia]. Qed.

Lemma foldl_bumpCount_keeps (ruleKey : jsstring → jsstring) l : ∀ map : CountMap,
  NoDup map.*1 ∧ Forall (λ e, 0 < e.2) map →
  NoDup (foldl (λ m x, bumpCount m (ruleKey x) 1) map l).*1 ∧
  Forall (λ e, 0 < e.2) (foldl (λ m x, bumpCount m (ruleKey x) 1) map l).
Proof.
  induction l as [|x l IH]; intros map [Hnd Hpos]; simpl; [done|].
  apply IH. split; [by apply bumpCount_NoDup|by apply bumpCount_positive].
Qed.

Lemma bumpMetrics_consistent `{UnicodeCase} currentDay state message detection :
  consistentMetrics (metrics state) →
  consistentMetrics (metrics (bumpMetrics currentDay state message detection)).
Proof.
  intros (Hsum & Hnd1 & Hnd2 & Hpos1 & Hpos2). unfold bumpMetrics. simpl.
  set (m1 := if bool_decide (day (metrics state) = currentDay) then metrics state
             else {| day := currentDay; triggersToday := 0;
                     byChannel := []; byRule := [] |}).
  assert (consistentMetrics m1) as (Hsum' & Hnd1' & Hnd2' & Hpos1' & Hpos2').
  { unfold m1. destruct (bool_decide _); [done|].
    split_and!; simpl; try done; constructor. }
  unfold consistentMetrics. simpl. split_and!.
  - rewrite sumCounts_bumpCount. by rewrite Hsum'.
  - by apply bumpCount_NoDup.
  - apply (foldl_bumpCount_keeps priceRuleKey).
    by apply (foldl_bumpCount_keeps termRuleKey).
  - by apply bumpCount_positive.
  - apply (foldl_bumpCount_keeps priceRuleKey).
    by apply (foldl_bumpCount_keeps termRuleKey).
Qed.

Section Pipeline.
Context `{UnicodeCase}.

(** The channel lookup writes nothing but the cache entry of the guild. *)
Lemma resolveModLogChannel_frame w message config st :
  let st' := (resolveModLogChannel w message config st).1.2 in
  cooldowns st' = cooldowns st ∧ metrics st' = metrics st ∧
  ∀ k, k ≠ messageGuildId message →
       modLogChannelIds st' !! k = modLogChannelIds st !! k.
Proof.
  cbv zeta.
  unfold resolveModLogChannel, bind, tryCatch, await, ret, getState,
    cacheModLogChannel, putState.
  repeat (case_match; simplify_eq/=; try done);
    (split_and!; [done..|]); intros k Hk; by rewrite ?lookup_insert_ne.
Qed.

Lemma sendModLog_effect w message detection config status errorText st :
  ∃ st' trace,
    sendModLog w message detection config status errorText st
    = (Returned tt, st', trace) ∧
    forallb (λ ev, negb (isReply ev)) trace = true ∧
    existsb isRecord trace = true ∧
    cooldowns st' = cooldowns st ∧ metrics st' = metrics st ∧
    ∀ k, k ≠ messageGuildId message →
         modLogChannelIds st' !! k = modLogChannelIds st !! k.
Proof.
  rewrite sendModLog_unfold.
  pose proof (resolveModLogChannel_no_reply w message config st) as Hres.
  pose proof (resolveModLogChannel_frame w message config st) as Hframe.
  cbv zeta in Hframe.
  destruct (resolveModLogChannel w message config st) as [[[[ch|]|e] st1] t1];
    simpl in Hres, Hframe; eexists _, _; (split; [reflexivity|]);
    rewrite forallb_app, existsb_app, Hres; simpl;
    (split_and!; [|by rewrite ?orb_true_r|apply Hframe..]); [|done..].
  by destruct (sendOutcome w (gcId ch)).
Qed.

Local Open Scope Z_scope.

(** The answer of the cooldown check and the entries it leaves depend on
    the cooldown entries alone. *)
Lemma isCoolingDown_cooldowns st1 st2 message config now :
  cooldowns st1 = cooldowns st2 →
  (isCoolingDown st1 message config now).1
  = (isCoolingDown st2 message config now).1 ∧
  cooldowns (isCoolingDown st1 message config now).2
  = cooldowns (isCoolingDown st2 message config now).2.
Proof.
  intros Heq. unfold isCoolingDown. rewrite Heq.
  by destruct (from_option _ false _).
Qed.

Lemma isCoolingDown_frame st message config now :
  metrics (isCoolingDown st message config now).2 = metrics st ∧
  modLogChannelIds (isCoolingDown st message config now).2 = modLogChannelIds st ∧
  ∀ k, k ≠ cooldownKey message →
       cooldowns (isCoolingDown st message config now).2 !! k = cooldowns st !! k.
Proof.
  unfold isCoolingDown. destruct (from_option _ false _); simpl; [done|].
  split_and!; [done..|]. intros k Hk. by apply lookup_insert_ne.
Qed.

(** The warning step and the log step: the reply, when it is made, comes
    first; what follows holds no reply and records the trigger. *)
Lemma handleTriggeredMessage_effect w now message detection config st :
  ∃ st' logTrace,
    handleTriggeredMessage w now message detection config st
    = (Returned tt, st',
       (if (isCoolingDown st message config now).1 then []
        else [Reply (buildWarningMessage config detection message)]) ++ logTrace) ∧
    forallb (λ ev, negb (isReply ev)) logTrace = true ∧
    existsb isRecord logTrace = true ∧
    cooldowns st' = cooldowns (isCoolingDown st message config now).2 ∧
    metrics st' = metrics st ∧
    ∀ k, k ≠ messageGuildId message →
         modLogChannelIds st' !! k = modLogChannelIds st !! k.
Proof.
  unfold handleTriggeredMessage. rewrite bind_unfold. unfold getState.
  pose proof (isCoolingDown_frame st message config now) as (Hm & Hc & _).
  destruct (isCoolingDown st message config now) as [suppressed st1] eqn:Hcool.
  simpl in Hm, Hc. rewrite bind_unfold. unfold putState. rewrite bind_unfold.
  unfold warnUser. destruct suppressed; simpl.
  - destruct (sendModLog_effect w message detection config COOLDOWN_SUPPRESSED [] st1)
      as (st' & trace & -> & Hnr & Hrec & Hcd & Hmet & Hcache).
    exists st', trace. split_and!; try done.
    + by rewrite Hmet.
    + intros k Hk. by rewrite Hcache, Hc.
  - unfold tryCatch, await. rewrite bind_unfold.
    destruct (replyOutcome w) as [e|]; simpl.
    + destruct (sendModLog_effect w message detection config FAILED (formatError e) st1)
        as (st' & trace & -> & Hnr & Hrec & Hcd & Hmet & Hcache).
      exists st', trace. split_and!; try done.
      * by rewrite Hmet.
      * intros k Hk. by rewrite Hcache, Hc.
    + destruct (sendModLog_effect w message detection config SENT [] st1)
        as (st' & trace & -> & Hnr & Hrec & Hcd & Hmet & Hcache).
      exists st', trace. split_and!; try done.
      * by rewrite Hmet.
      * intros k Hk. by rewrite Hcache, Hc.
Qed.

Lemma warned_reply_then_log (suppressed : bool) text logTrace :
  forallb (λ ev, negb (isReply ev)) logTrace = true →
  warned ((if suppressed then [] else [Reply text]) ++ logTrace) = negb suppressed.
Proof.
  intros Hnr. unfold warned. rewrite existsb_app.
  assert (existsb isReply logTrace = false) as ->.
  { apply not_true_iff_false. rewrite existsb_exists.
    intros (ev & Hin & Hev). rewrite forallb_forall in Hnr.
    apply Hnr in Hin. by rewrite Hev in Hin. }
  by destruct suppressed.
Qed.

Lemma onMessageCreate_unfold w currentDay now message config detectors st :
  let verdict := detectContent (default [] (content message)) detectors config in
  onMessageCreate w currentDay now message config detectors st
  = if handled message config detectors
    then handleTriggeredMessage w now message verdict config
           (bumpMetrics currentDay st message verdict)
    else (Returned tt, st, []).
Proof.
  cbv zeta. unfold onMessageCreate, handled.
  destruct (shouldProcessMessage message config); simpl; [|done].
  destruct (triggered _); simpl; [|done].
  rewrite bind_unfold. unfold getState. rewrite bind_unfold. unfold putState.
  by destruct (handleTriggeredMessage _ _ _ _ _ _) as [[o st'] trace].
Qed.

(** What one run of the handler does to the metrics and the cooldowns, and
    whether it replies. *)
Lemma onMessageCreate_effect w currentDay now message config detectors st :
  let verdict := detectContent (default [] (content message)) detectors config in
  ∃ st' trace,
    onMessageCreate w currentDay now message config detectors st
    = (Returned tt, st', trace) ∧
    if handled message config detectors then
      warned trace = negb (isCoolingDown st message config now).1 ∧
      cooldowns st' = cooldowns (isCoolingDown st message config now).2 ∧
      metrics st' = metrics (bumpMetrics currentDay st message verdict)
    else st' = st ∧ trace = [].
Proof.
  cbv zeta. rewrite onMessageCreate_unfold. cbv zeta.
  destruct (handled message config detectors); [|by eexists _, _].
  set (verdict := detectContent _ _ _).
  set (st1 := bumpMetrics currentDay st message verdict).
  destruct (handleTriggeredMessage_effect w now message verdict config st1)
    as (st' & logTrace & -> & Hnr & _ & Hcd & Hmet & _).
  destruct (isCoolingDown_cooldowns st1 st message config now) as [Hans Hcds];
    [done|].
  eexists _, _. split; [reflexivity|]. split_and!.
  - rewrite warned_reply_then_log by done. by rewrite Hans.
  - by rewrite Hcd.
  - done.
Qed.

End Pipeline.

Lemma deliverAll_cons `{UnicodeCase} config detectors st d rest :
  let first := onMessageCreate (deliveryWorld d) (deliveryDay d) (deliveryNow d)
                 (deliveredMessage d) config detectors st in
  deliverAll config detectors st (d :: rest)
  = (first.2 :: (deliverAll config detectors first.1.2 rest).1,
     (deliverAll config detectors first.1.2 rest).2).
Proof.
  cbv zeta. simpl.
  destruct (onMessageCreate _ _ _ _ _ _ _) as [[o st'] trace]. simpl.
  by destruct (deliverAll config detectors st' rest).
Qed.

Lemma deliverAll_consistent `{UnicodeCase} config detectors deliveries : ∀ st,
  consistentMetrics (metrics st) →
  consistentMetrics (metrics (deliverAll config detectors st deliveries).2).
Proof.
  induction deliveries as [|d rest IH]; intros st Hst; [done|].
  rewrite deliverAll_cons. cbv zeta. simpl. apply IH.
  destruct (onMessageCreate_effect (deliveryWorld d) (deliveryDay d) (deliveryNow d)
              (deliveredMessage d) config detectors st)
    as (st' & trace & -> & Heff).
  simpl. destruct (handled _ _ _).
  - destruct Heff as (_ & _ & ->). by apply bumpMetrics_consistent.
  - by destruct Heff as [-> _].
Qed.

(** X9. After any deliveries to a fresh session, the daily trigger count
    is the sum of the channel counters, no key occurs twice in a counter
    map, and no stored counter is zero. *)
Theorem metrics_stay_consistent `{UnicodeCase} config detectors today deliveries :
  let m := metrics (deliverAll config detectors (initialState today) deliveries).2 in
  triggersToday m = sumCounts (byChannel m) ∧
  NoDup (byChannel m).*1 ∧ NoDup (byRule m).*1 ∧
  Forall (λ e, 0 < e.2) (byChannel m) ∧ Forall (λ e, 0 < e.2) (byRule m).
Proof.
  apply deliverAll_consistent. split_and!; simpl; try done; constructor.
Qed.

Lemma deliverAll_counts `{UnicodeCase} config detectors today deliveries : ∀ st,
  day (metrics st) = today →
  Forall (λ d, deliveryDay d = today) deliveries →
  let m := metrics (deliverAll config detectors st deliveries).2 in
  day m = today ∧
  triggersToday m
  = triggersToday (metrics st) + handledCount config detectors deliveries ∧
  ∀ ch, countOf (byChannel m) ch
        = countOf (byChannel (metrics st)) ch
          + handledCountIn config detectors ch deliveries.
Proof.
  induction deliveries as [|d rest IH]; intros st Hday Hall; cbv zeta.
  - unfold handledCount, handledCountIn. simpl. split_and!; [done|lia|].
    intros ch. lia.
  - apply Forall_cons in Hall as [Hd Hall].
    rewrite deliverAll_cons. cbv zeta. simpl.
    destruct (onMessageCreate_effect (deliveryWorld d) (deliveryDay d) (deliveryNow d)
                (deliveredMessage d) config detectors st)
      as (st' & trace & -> & Heff).
    simpl. unfold handledCount, handledCountIn. simpl.
    destruct (handled (deliveredMessage d) config detectors) eqn:Hh; simpl.
    + destruct Heff as (_ & _ & Hmet).
      assert (day (metrics st') = today ∧
              triggersToday (metrics st') = triggersToday (metrics st) + 1 ∧
              byChannel (metrics st')
              = bumpCount (byChannel (metrics st))
                  (channelId (deliveredMessage d)) 1) as (Hday' & Htrig & Hch).
      { rewrite Hmet. unfold bumpMetrics. simpl.
        rewrite Hd, bool_decide_eq_true_2 by done. done. }
      destruct (IH st' Hday' Hall) as (Hd1 & Ht1 & Hc1).
      split_and!; [done| |].
      * rewrite Ht1, Htrig. unfold handledCount. lia.
      * intros ch. rewrite Hc1, Hch, countOf_bumpCount. unfold handledCountIn.
        destruct (bool_decide (channelId (deliveredMessage d) = ch)); simpl; lia.
    + destruct Heff as [-> _]. apply (IH st Hday Hall).
Qed.

(** X17. When every delivery is made on the day the session started, the
    daily trigger count is the number of handled deliveries, those with a
    suppressed warning included, and the counter of a channel is the number
    of handled deliveries in that channel. *)
Theorem daily_counts `{UnicodeCase} config detectors today deliveries :
  Forall (λ d, deliveryDay d = today) deliveries →
  let m := metrics (deliverAll config detectors (initialState today) deliveries).2 in
  triggersToday m = handledCount config detectors deliveries ∧
  ∀ ch, countOf (byChannel m) ch = handledCountIn config detectors ch deliveries.
Proof.
  intros Hall. cbv zeta.
  destruct (deliverAll_counts config detectors today deliveries
              (initialState today) eq_refl Hall) as (_ & Htrig & Hch).
  split; [by rewrite Htrig|]. intros ch. by rewrite Hch.
Qed.

Lemma daily_counts_witness :
  let config := withCooldown 5000 in
  let deliveries := [sampleDelivery 1000; sampleDelivery 2000] in
  let m := metrics (@deliverAll asciiCase config (compiledDetectors config)
                      (initialState (js "2024-05-01")) deliveries).2 in
  triggersToday m = 2 ∧ countOf (byChannel m) (js "7") = 2.
Proof.
  cbv zeta.
  destruct (@daily_counts asciiCase (withCooldown 5000)
              (compiledDetectors (withCooldown 5000)) (js "2024-05-01")
              [sampleDelivery 1000; sampleDelivery 2000]) as [Htrig Hch].
  - repeat (constructor; [reflexivity|]). constructor.
  - split; [rewrite Htrig|rewrite Hch]; by vm_compute.
Defined.

Section Warnings.
Context `{UnicodeCase}.
Local Open Scope Z_scope.

Lemma isCoolingDown_entries st message config now :
  cooldowns (isCoolingDown st message config now).2
  = if (isCoolingDown st message config now).1 then cooldowns st
    else <[cooldownKey message := now]> (cooldowns st).
Proof. unfold isCoolingDown. by destruct (from_option _ false _). Qed.

Lemma isCoolingDown_not_suppressed st message config now last :
  (isCoolingDown st message config now).1 = false →
  cooldowns st !! cooldownKey message = Some last → last ≠ 0 →
  warningCooldownMs config ≤ now - last.
Proof.
  rewrite isCoolingDown_unfold. intros Hans Hlast Hnz. rewrite Hlast in Hans.
  apply Z.eqb_neq in Hnz. rewrite Hnz in Hans. simpl in Hans.
  destruct (now - last <? warningCooldownMs config) eqn:Hlt; [done|].
  by apply Z.ltb_ge in Hlt.
Qed.

(** After a warning recorded at [t0] under the key [k], every later warning
    under that key comes a full cooldown after [t0]. *)
Lemma warned_after_entry config detectors deliveries : ∀ st k t0 j dj tj,
  0 ≤ warningCooldownMs config →
  Forall (λ d, deliveryNow d ≠ 0) deliveries →
  cooldowns st !! k = Some t0 → t0 ≠ 0 →
  deliveries !! j = Some dj →
  (deliverAll config detectors st deliveries).1 !! j = Some tj →
  cooldownKey (deliveredMessage dj) = k →
  warned tj = true →
  warningCooldownMs config ≤ deliveryNow dj - t0.
Proof.
  induction deliveries as [|d rest IH]; intros st k t0 j dj tj HD Hnow Hentry Ht0 Hdj Htj Hkey Hw;
    [done|].
  rewrite deliverAll_cons in Htj. cbv zeta in Htj. simpl in Htj.
  apply Forall_cons in Hnow as [Hnow0 Hnow].
  destruct (onMessageCreate_effect (deliveryWorld d) (deliveryDay d) (deliveryNow d)
              (deliveredMessage d) config detectors st)
    as (st' & trace & Hrun & Heff).
  rewrite Hrun in Htj. simpl in Htj.
  destruct j as [|j]; simpl in Hdj, Htj.
  - simplify_eq. destruct (handled _ _ _); [|by destruct Heff as [_ ->]].
    destruct Heff as (Hwarn & _). rewrite Hw in Hwarn.
    apply (isCoolingDown_not_suppressed st (deliveredMessage dj) config); [|done..].
    by destruct (isCoolingDown st (deliveredMessage dj) config (deliveryNow dj)).1.
  - destruct (handled _ _ _).
    + destruct Heff as (_ & Hcd & _). rewrite isCoolingDown_entries in Hcd.
      destruct (isCoolingDown st (deliveredMessage d) config (deliveryNow d)).1 eqn:Hans.
      * eapply (IH st' k t0 j dj tj); try done. by rewrite Hcd.
      * destruct (decide (cooldownKey (deliveredMessage d) = k)) as [Hk|Hk].
        -- pose proof (isCoolingDown_not_suppressed st (deliveredMessage d) config
                         (deliveryNow d) t0 Hans) as Hfirst.
           rewrite Hk in Hfirst. specialize (Hfirst Hentry Ht0).
           assert (warningCooldownMs config ≤ deliveryNow dj - deliveryNow d); [|lia].
           eapply (IH st' k (deliveryNow d) j dj tj); try done.
           rewrite Hcd, <- Hk. apply lookup_insert_eq.
        -- eapply (IH st' k t0 j dj tj); try done.
           rewrite Hcd. by rewrite lookup_insert_ne.
    + destruct Heff as [-> _]. by eapply (IH st k t0 j dj tj).
Qed.

Lemma warned_twice config detectors deliveries : ∀ st i j di dj ti tj,
  0 ≤ warningCooldownMs config →
  Forall (λ d, deliveryNow d ≠ 0) deliveries →
  (i < j)%nat →
  deliveries !! i = Some di → deliveries !! j = Some dj →
  (deliverAll config detectors st deliveries).1 !! i = Some ti →
  (deliverAll config detectors st deliveries).1 !! j = Some tj →
  cooldownKey (deliveredMessage di) = cooldownKey (deliveredMessage dj) →
  warned ti = true → warned tj = true →
  warningCooldownMs config ≤ deliveryNow dj - deliveryNow di.
Proof.
  induction deliveries as [|d rest IH];
    intros st i j di dj ti tj HD Hnow Hij Hdi Hdj Hti Htj Hkey Hwi Hwj; [done|].
  rewrite deliverAll_cons in Hti, Htj. cbv zeta in Hti, Htj. simpl in Hti, Htj.
  apply Forall_cons in Hnow as [Hnow0 Hnow].
  destruct j as [|j]; [lia|]. simpl in Hdj, Htj.
  destruct i as [|i]; simpl in Hdi, Hti.
  - simplify_eq.
    destruct (onMessageCreate_effect (deliveryWorld di) (deliveryDay di) (deliveryNow di)
                (deliveredMessage di) config detectors st)
      as (st' & trace & Hrun & Heff).
    rewrite Hrun in Htj, Hwi. simpl in Htj, Hwi.
    destruct (handled _ _ _); [|destruct Heff as [_ ->]; done].
    destruct Heff as (Hwarn & Hcd & _). rewrite Hwi in Hwarn.
    rewrite isCoolingDown_entries in Hcd.
    destruct (isCoolingDown st (deliveredMessage di) config (deliveryNow di)).1; [done|].
    eapply (warned_after_entry config detectors rest st' _ (deliveryNow di) j dj tj);
      try done.
    rewrite Hcd, Hkey. apply lookup_insert_eq.
  - eapply (IH _ i j di dj ti tj); try done. lia.
Qed.

End Warnings.

(** X10. With a cooldown that is not negative and a clock that never reads
    [0], two replies to the same author in the same channel are at least a
    full cooldown apart, whatever is delivered in between and whatever the
    platform answers. *)
Theorem no_repeated_warning `{UnicodeCase} config detectors state deliveries
    i j di dj ti tj :
  (0 ≤ warningCooldownMs config)%Z →
  Forall (λ d, deliveryNow d ≠ 0%Z) deliveries →
  (i < j)%nat →
  deliveries !! i = Some di → deliveries !! j = Some dj →
  (deliverAll config detectors state deliveries).1 !! i = Some ti →
  (deliverAll config detectors state deliveries).1 !! j = Some tj →
  authorId (deliveredMessage di) = authorId (deliveredMessage dj) →
  channelId (deliveredMessage di) = channelId (deliveredMessage dj) →
  warned ti = true → warned tj = true →
  (warningCooldownMs config ≤ deliveryNow dj - deliveryNow di)%Z.
Proof.
  intros HD Hnow Hij Hdi Hdj Hti Htj Ha Hc Hwi Hwj.
  eapply (warned_twice config detectors deliveries state i j di dj ti tj); try done.
  unfold cooldownKey. by rewrite Ha, Hc.
Qed.

Lemma no_repeated_warning_witness :
  let config := withCooldown 5000 in
  let deliveries := [sampleDelivery 1000; sampleDelivery 7000] in
  warned <$> (@deliverAll asciiCase config (compiledDetectors config)
                (initialState (js "2024-05-01")) deliveries).1 = [true; true] ∧
  (warningCooldownMs config ≤ 7000 - 1000)%Z.
Proof.
  split; [by vm_compute|].
  eapply (@no_repeated_warning asciiCase (withCooldown 5000)
            (compiledDetectors (withCooldown 5000)) (initialState (js "2024-05-01"))
            [sampleDelivery 1000; sampleDelivery 7000] 0 1
            (sampleDelivery 1000) (sampleDelivery 7000)).
  - by vm_compute.
  - repeat (constructor; [by vm_compute|]). constructor.
  - lia.
  - reflexivity.
  - reflexivity.
  - reflexivity.
  - reflexivity.
  - reflexivity.
  - reflexivity.
  - by vm_compute.
  - by vm_compute.
Defined.

(** X11. The moderation scope.  A message is processed iff it comes from a
    person, in a text channel of the configured server (of any server when
    none is configured), and its channel is in scope: a configured channel
    id when ids are configured, whatever the channel is called; otherwise a
    configured channel name, compared up to the letter case [toLowerCase]
    removes. *)
Theorem moderation_scope `{UnicodeCase} message config names :
  ruleChannelNames config = normalizeSet names →
  shouldProcessMessage message config = true ↔
  inServerScope message config ∧
  if decide (ruleChannelIds config = ∅)
  then ∃ n, n ∈ names ∧ toLowerCase (channelNameOf message) = toLowerCase n
  else channelId message ∈ ruleChannelIds config.
Proof.
  intros Hnames. unfold shouldProcessMessage, inServerScope, channelNameOf.
  rewrite Hnames. unfold normalizeSet.
  destruct (inGuild message); simpl; [|intuition congruence].
  destruct (isStandardTextChannel message); simpl; [|intuition congruence].
  assert (isTruthy (guildId config)
          && negb (bool_decide (messageGuildId message = guildId config)) = false
          ↔ guildId config = [] ∨ messageGuildId message = guildId config) as Hguild.
  { destruct (guildId config) as [|c g]; simpl; [intuition|].
    rewrite negb_false_iff, bool_decide_eq_true. intuition congruence. }
  destruct (isTruthy (guildId config) && negb _) eqn:Hg.
  { split; [done|]. intros [(_ & _ & _ & Hok) _]. apply Hguild in Hok. done. }
  pose proof (proj1 Hguild eq_refl) as Hserver.
  destruct (authorBot message); simpl; [intuition congruence|].
  destruct (decide (ruleChannelIds config = ∅)) as [Hids|Hids].
  - rewrite Hids, size_empty. simpl. rewrite bool_decide_eq_true.
    rewrite elem_of_list_to_set, list_elem_of_fmap. split.
    + intros (n & Hn & Hin). split; [done|]. by exists n.
    + intros [_ (n & Hin & Hn)]. by exists n.
  - assert ((0 <? size (ruleChannelIds config))%nat = true) as ->.
    { apply Nat.ltb_lt.
      assert (size (ruleChannelIds config) ≠ 0%nat); [|lia].
      apply size_non_empty_iff. by intros ?%leibniz_equiv. }
    rewrite bool_decide_eq_true. intuition.
Qed.

Lemma moderation_scope_witness :
  @shouldProcessMessage asciiCase
    (sampleMessage (Some (js "sell"))) (@defaultConfig asciiCase) = true.
Proof.
  apply (@moderation_scope asciiCase (sampleMessage (Some (js "sell")))
           (@defaultConfig asciiCase) DEFAULT_RULE_CHANNEL_NAMES eq_refl).
  split; [by repeat split; try left|].
  destruct (decide _) as [_|Hne]; [|by destruct Hne].
  exists (js "chatter"). split; [by left|done].
Defined.

(** X12. One run of the handler returns normally.  For a message out of
    scope or with a verdict that is not triggered it changes nothing and
    calls nothing.  Otherwise the metrics are those [bumpMetrics] gives and
    the cooldown entries those the cooldown check leaves; the author is
    replied to iff the check does not suppress, with the warning text of
    the verdict and before anything else; what follows records the trigger
    (a message to the log channel or a line on the console); and no cached
    log channel of another server changes. *)
Theorem pipeline_effects `{UnicodeCase}
    w currentDay now message config detectors state :
  let verdict := detectContent (default [] (content message)) detectors config in
  let suppressed := (isCoolingDown state message config now).1 in
  let warning :=
    if suppressed then []
    else [Reply (buildWarningMessage config verdict message)] in
  ∃ state' trace,
    onMessageCreate w currentDay now message config detectors state
    = (Returned tt, state', trace) ∧
    if shouldProcessMessage message config && triggered verdict then
      (∃ logTrace, trace = warning ++ logTrace ∧
                   forallb (λ ev, negb (isReply ev)) logTrace = true ∧
                   existsb isRecord logTrace = true) ∧
      cooldowns state' = cooldowns (isCoolingDown state message config now).2 ∧
      metrics state' = metrics (bumpMetrics currentDay state message verdict) ∧
      ∀ k, k ≠ messageGuildId message →
           modLogChannelIds state' !! k = modLogChannelIds state !! k
    else state' = state ∧ trace = [].
Proof.
  cbv zeta. rewrite onMessageCreate_unfold. cbv zeta. unfold handled.
  destruct (shouldProcessMessage message config && triggered _);
    [|by eexists _, _].
  set (verdict := detectContent _ _ _).
  set (state1 := bumpMetrics currentDay state message verdict).
  destruct (handleTriggeredMessage_effect w now message verdict config state1)
    as (state' & logTrace & -> & Hnr & Hrec & Hcd & Hmet & Hcache).
  destruct (isCoolingDown_cooldowns state1 state message config now)
    as [Hans Hcds]; [done|].
  eexists _, _. split; [reflexivity|]. split_and!.
  - exists logTrace. by rewrite Hans.
  - by rewrite Hcd.
  - done.
  - done.
Qed.

(** ** The log channel, the warning text and the verdict *)

Section ModLogLookup.
Context `{UnicodeCase}.

(** A cached id that the platform cache resolves to a text channel is
    served without an outward call. *)
Lemma resolveModLogChannel_cached w message config st id ch :
  modLogChannelIds st !! messageGuildId message = Some id → id ≠ [] →
  channelCache w id = Some ch → gcType ch = GuildText →
  resolveModLogChannel w message config st = (Returned (Some ch), st, []).
Proof.
  intros Hid Hne Hch Htext. unfold resolveModLogChannel.
  rewrite bind_unfold. unfold getState. rewrite Hid.
  apply nonEmpty_spec in Hne. unfold isTruthy. rewrite Hne, Hch. simpl.
  rewrite Htext. simpl. done.
Qed.

Lemma isTextChannel_Some c :
  isTextChannel c = true → ∃ ch, c = Some ch ∧ gcType ch = GuildText.
Proof.
  destruct c as [ch|]; simpl; [|done]. intros Ht. exists ch. split; [done|].
  by destruct (gcType ch).
Qed.

Lemma resolveModLogChannel_found w message config st ch st' trace :
  keyedById w →
  resolveModLogChannel w message config st = (Returned (Some ch), st', trace) →
  gcType ch = GuildText ∧
  modLogChannelIds st' !! messageGuildId message = Some (gcId ch).
Proof.
  intros Hkeyed. unfold resolveModLogChannel. rewrite bind_unfold. unfold getState.
  set (cached := match modLogChannelIds st !! messageGuildId message with
                 | Some cachedChannelId =>
                     if isTruthy cachedChannelId then channelCache w cachedChannelId
                     else None
                 | None => None
                 end).
  destruct (isTextChannel cached) eqn:Hcached.
  { unfold ret. simpl. intros [= Hc <- <-].
    apply isTextChannel_Some in Hcached as (ch' & Hch' & Htext).
    rewrite Hch' in Hc. injection Hc as <-. split; [done|].
    unfold cached in Hch'.
    destruct (modLogChannelIds st !! messageGuildId message) as [id|]; [|done].
    destruct (isTruthy id); [|done]. by rewrite (Hkeyed _ _ Hch'). }
  rewrite bind_unfold.
  set (byId := (if isTruthy (modLogChannelId config)
                then tryCatch (await (FetchChannel (modLogChannelId config))
                                 (fetchChannel w (modLogChannelId config)))
                       (λ _, ret None)
                else ret None) st).
  assert (∃ found t, byId = (Returned found, st, t)) as (found & t & ->).
  { unfold byId, tryCatch, await, ret.
    destruct (isTruthy (modLogChannelId config)); [|by eexists _, _].
    destruct (fetchChannel w (modLogChannelId config)); by eexists _, _. }
  destruct (isTruthy (modLogChannelId config) && isTextChannel found) eqn:Hfound.
  { apply andb_true_iff in Hfound as [_ Hfound].
    apply isTextChannel_Some in Hfound as (ch' & -> & Htext).
    rewrite bind_unfold. unfold cacheModLogChannel, getState, putState, ret, bind.
    simpl. intros [= <- <- <-]. split; [done|]. simpl. apply lookup_insert_eq. }
  rewrite bind_unfold. unfold await.
  destruct (fetchAllChannels w) as [e|allChannels]; [done|].
  destruct (mjoin (List.find _ allChannels)) as [byName|] eqn:Hname; [|done].
  rewrite bind_unfold. unfold cacheModLogChannel, getState, putState, ret, bind.
  simpl. intros [= <- <- <-]. simpl. split; [|apply lookup_insert_eq].
  destruct (List.find _ allChannels) as [[c|]|] eqn:Hfind; simplify_eq/=.
  apply find_some in Hfind as [_ Hp]. apply andb_true_iff in Hp as [Hp _].
  simpl in Hp. by destruct (gcType byName).
Qed.

End ModLogLookup.

(** X13. A log channel that the lookup returns is a text channel, and its
    id is cached under the server of the message afterwards: the next
    lookup, on a platform whose cache holds the channel, returns it without
    an outward call and leaves the state as it is. *)
Theorem mod_log_lookup_is_memoized `{UnicodeCase}
    w message config state ch state' trace :
  keyedById w →
  resolveModLogChannel w message config state = (Returned (Some ch), state', trace) →
  gcType ch = GuildText ∧
  modLogChannelIds state' !! messageGuildId message = Some (gcId ch) ∧
  ∀ later, gcId ch ≠ [] → channelCache later (gcId ch) = Some ch →
    resolveModLogChannel later message config state'
    = (Returned (Some ch), state', []).
Proof.
  intros Hkeyed Hfound.
  destruct (resolveModLogChannel_found w message config state ch state' trace
              Hkeyed Hfound) as [Htext Hcache].
  split_and!; [done..|]. intros later Hne Hlater.
  by apply (resolveModLogChannel_cached later message config state' (gcId ch)).
Qed.

Lemma mod_log_lookup_is_memoized_witness :
  let message := sampleMessage (Some (js "sell")) in
  let first := @resolveModLogChannel asciiCase loggingWorld message
                 (@defaultConfig asciiCase) (initialState (js "2024-05-01")) in
  first.1.1 = Returned (Some sampleLogChannel) ∧ first.2 = [FetchAllChannels] ∧
  @resolveModLogChannel asciiCase loggingWorld message (@defaultConfig asciiCase)
    first.1.2 = (Returned (Some sampleLogChannel), first.1.2, []).
Proof.
  cbv zeta. split; [by vm_compute|]. split; [by vm_compute|].
  eapply (@mod_log_lookup_is_memoized asciiCase loggingWorld
            (sampleMessage (Some (js "sell"))) (@defaultConfig asciiCase)
            (initialState (js "2024-05-01")) sampleLogChannel).
  - intros id ch. simpl. destruct (bool_decide (id = js "99")) eqn:Hid; [|done].
    apply bool_decide_eq_true in Hid as ->. by intros [= <-].
  - by vm_compute.
  - by vm_compute.
  - by vm_compute.
Defined.

Section TextShapes.
Context `{UnicodeCase}.

Lemma join_cons_prefix sep line (rest : list jsstring) :
  line `prefix_of` join sep (line :: rest).
Proof. unfold join. by eexists. Qed.

(** Two texts that differ at a position are not a prefix of one another. *)
Lemma not_prefix_at (a b rest : jsstring) i x y :
  a !! i = Some x → b !! i = Some y → x ≠ y → ¬ a `prefix_of` (b ++ rest).
Proof.
  intros Ha Hb Hne Hpre.
  pose proof (prefix_lookup_Some _ _ _ _ Ha Hpre) as Hlook.
  rewrite (lookup_app_l_Some _ _ _ _ Hb) in Hlook. by simplify_eq.
Qed.

End TextShapes.

Section WarningLines.
Context `{UnicodeCase}.

(** The first line of the warning, by what the verdict holds. *)
Lemma buildWarningMessage_first_line config detection message :
  ∃ first rest,
    buildWarningMessage config detection message = first ++ rest ∧
    if bool_decide (js "sell" ∈ toLowerCase <$> matchedTerms detection)
    then first = REHOME_LINE
    else if bool_decide (WORD_MATCH ∈ triggerTypes detection)
    then first = RESTRICTED_LINE
    else if bool_decide (PRICE_PATTERN ∈ triggerTypes detection)
    then first = PRICE_LINE_START
    else first = GENERIC_LINE.
Proof.
  unfold buildWarningMessage.
  destruct (bool_decide (js "sell" ∈ toLowerCase <$> matchedTerms detection)).
  { eexists _, _. split; [|reflexivity]. reflexivity. }
  destruct (bool_decide (WORD_MATCH ∈ triggerTypes detection)).
  { eexists _, _. split; [|reflexivity]. reflexivity. }
  destruct (bool_decide (PRICE_PATTERN ∈ triggerTypes detection)).
  { eexists _, _. split; [|reflexivity]. simpl. unfold join.
    rewrite <- !app_assoc. reflexivity. }
  eexists _, _. split; [|reflexivity]. reflexivity.
Qed.

Lemma detectContent_triggered content detectors config :
  triggered (detectContent content detectors config) = true →
  WORD_MATCH ∈ triggerTypes (detectContent content detectors config) ∨
  PRICE_PATTERN ∈ triggerTypes (detectContent content detectors config).
Proof.
  unfold detectContent. destruct (nonEmpty (exceptionPattern <$> _)); [done|].
  simpl. destruct (nonEmpty (Set_of (term <$> _))); simpl; [left; by left|].
  destruct (nonEmpty (Set_of _)); simpl; [right; by left|done].
Qed.

End WarningLines.

(** X14. The warning text is never empty.  It opens with the [rehome] line
    iff a matched term is [sell] up to the letter case [toLowerCase]
    removes; it ends with the rules line when a rules URL is configured;
    and for a triggered verdict of the classifier it never opens with the
    line that names no trigger. *)
Theorem warning_text `{UnicodeCase} config detection message :
  let text := buildWarningMessage config detection message in
  text ≠ [] ∧
  (REHOME_LINE `prefix_of` text ↔
     js "sell" ∈ toLowerCase <$> matchedTerms detection) ∧
  (rulesUrl config ≠ [] → (js "Rules: " ++ rulesUrl config) `suffix_of` text) ∧
  (∀ content detectors,
     detection = detectContent content detectors config →
     triggered detection = true → ¬ GENERIC_LINE `prefix_of` text).
Proof.
  cbv zeta.
  destruct (buildWarningMessage_first_line config detection message)
    as (first & rest & Htext & Hfirst).
  split_and!.
  - rewrite Htext. repeat destruct (bool_decide _); subst first; done.
  - rewrite Htext.
    destruct (bool_decide (js "sell" ∈ toLowerCase <$> matchedTerms detection)) eqn:Hsell.
    + apply bool_decide_eq_true in Hsell. subst first. split; [done|].
      intros _. by eexists.
    + apply bool_decide_eq_false in Hsell. split; [|done]. intros Hpre.
      repeat destruct (bool_decide _); subst first.
      * by apply (not_prefix_at REHOME_LINE RESTRICTED_LINE rest 0 80 82) in Hpre.
      * by apply (not_prefix_at REHOME_LINE PRICE_LINE_START rest 7 117 114) in Hpre.
      * by apply (not_prefix_at REHOME_LINE GENERIC_LINE rest 0 80 82) in Hpre.
  - intros Hurl. unfold buildWarningMessage.
    apply nonEmpty_spec in Hurl. unfold isTruthy. rewrite Hurl.
    rewrite !app_assoc. apply join_snoc_suffix.
  - intros content detectors -> Htrig. rewrite Htext.
    apply detectContent_triggered in Htrig.
    destruct (bool_decide (js "sell" ∈ _)).
    { subst first. by apply (not_prefix_at GENERIC_LINE REHOME_LINE rest 0 82 80). }
    destruct (bool_decide (WORD_MATCH ∈ _)) eqn:Hword.
    { subst first. by apply (not_prefix_at GENERIC_LINE RESTRICTED_LINE rest 16 47 32). }
    destruct (bool_decide (PRICE_PATTERN ∈ _)) eqn:Hprice.
    { subst first. by apply (not_prefix_at GENERIC_LINE PRICE_LINE_START rest 0 82 80). }
    apply bool_decide_eq_false in Hword, Hprice. tauto.
Qed.

Section Verdict.
Context `{UnicodeCase}.

(** Every price signal comes from a currency symbol of the text or from a
    price keyword that occurs in it. *)
Lemma priceSignals_origin config content m :
  m ∈ priceSignals config content →
  enablePricePattern config = true ∧
  (containsCurrencySymbol content ∨
   ∃ w, w ∈ priceKeywords config ∧ occursBetweenBoundaries w content).
Proof.
  unfold priceSignals. destruct (enablePricePattern config); [|by intros ?%elem_of_nil].
  rewrite !elem_of_app. intros [Hm|[Hm|Hm]]; (split; [done|]).
  - left. apply elem_of_symbolAmountMatches in Hm
      as [(sym & gap & digits & frac & -> & Hsym & _) (pre & post & ->)].
    exists sym. split; [|done]. rewrite !elem_of_app. right. left. left. by left.
  - left. rewrite rawSymbolMatches_spec in Hm.
    apply list_elem_of_fmap in Hm as (x & -> & Hx).
    apply list_elem_of_In, filter_In in Hx as [Hx Hclass].
    exists x. split; [by apply list_elem_of_In|]. by apply classMatches_exact.
  - right. exists m. by apply elem_of_keywordHits.
Qed.

Lemma priceSignals_nonempty config content :
  priceSignals config content ≠ [] ↔
  enablePricePattern config = true ∧
  (containsCurrencySymbol content ∨
   ∃ w, w ∈ priceKeywords config ∧ occursBetweenBoundaries w content).
Proof.
  split.
  - intros Hne. destruct (priceSignals config content) as [|m l] eqn:E; [done|].
    apply (priceSignals_origin config content m). rewrite E. by left.
  - intros [Hen [Hsym|(w & Hw & Hocc)]].
    + by apply priceSignals_symbol.
    + intros Hnil. pose proof (priceSignals_keyword config content w Hen Hw Hocc) as Hin.
      rewrite Hnil in Hin. by apply elem_of_nil in Hin.
Qed.

Lemma termHits_nonempty config content :
  termHits config content ≠ [] ↔
  ∃ t, t ∈ restrictedTerms config ∧ occursBetweenBoundaries t content.
Proof.
  rewrite <- nonEmpty_spec, nonEmpty_elem. by setoid_rewrite elem_of_termHits.
Qed.

End Verdict.

(** X15. The verdict is triggered iff no exception pattern is a
    case-insensitive substring of the text and either a restricted term
    occurs in it between two word boundaries or, with price detection
    enabled, the text holds a currency symbol or a price keyword between
    two word boundaries. *)
Theorem triggered_iff `{UnicodeCase} config detectors content :
  buildDetectors config = Some detectors →
  triggered (detectContent content detectors config) = true ↔
  ¬ exceptionMatches config content ∧
  ((∃ t, t ∈ restrictedTerms config ∧ occursBetweenBoundaries t content) ∨
   (enablePricePattern config = true ∧
    (containsCurrencySymbol content ∨
     ∃ w, w ∈ priceKeywords config ∧ occursBetweenBoundaries w content))).
Proof.
  intros Hbuild. rewrite buildDetectors_total in Hbuild. injection Hbuild as <-.
  rewrite detectContent_compiled.
  rewrite <- termHits_nonempty, <- priceSignals_nonempty, <- exceptionHits_spec.
  destruct (nonEmpty (exceptionHits config content)); simpl; [intuition congruence|].
  pose proof (triggerTypes_spec (termHits config content)
                (priceSignals config content)) as (Htrig & _).
  cbv zeta in Htrig. rewrite Htrig. intuition congruence.
Qed.

Lemma triggered_iff_witness :
  let config := @withRules asciiCase [js "sell"] [js "wholesale"] [js "usd"] in
  triggered (@detectContent asciiCase (js "20 USD each")
               (compiledDetectors config) config) = true ↔
  ¬ @exceptionMatches asciiCase config (js "20 USD each") ∧
  ((∃ t, t ∈ restrictedTerms config ∧
         @occursBetweenBoundaries asciiCase t (js "20 USD each")) ∨
   (enablePricePattern config = true ∧
    (containsCurrencySymbol (js "20 USD each") ∨
     ∃ w, w ∈ priceKeywords config ∧
          @occursBetweenBoundaries asciiCase w (js "20 USD each")))).
Proof.
  apply (@triggered_iff asciiCase). apply buildDetectors_total.
Defined.

(** ** The letter case of the message *)

Section LetterCase.
Context `{UnicodeCase}.

Lemma isWordChar_sameUnit x y : sameUnit x y → isWordChar x = isWordChar y.
Proof.
  intros Hxy. apply eq_true_iff_eq. split.
  - by apply isWordChar_sameCase.
  - by apply isWordChar_sameCase.
Qed.

Lemma isWordCharAt_sameUnit p p' :
  option_Forall2 sameUnit p p' → isWordCharAt p = isWordCharAt p'.
Proof. destruct 1; simpl; [by apply isWordChar_sameUnit|done]. Qed.

Lemma sameIgnoringCase_head s s' :
  sameIgnoringCase s s' → option_Forall2 sameUnit (head s) (head s').
Proof. destruct 1; simpl; by constructor. Qed.

Lemma sameIgnoringCase_last s s' :
  sameIgnoringCase s s' → option_Forall2 sameUnit (last s) (last s').
Proof.
  induction 1 as [|x y s s' Hxy Hs IH]; [constructor|].
  destruct Hs; simpl in *; [by constructor|done].
Qed.

Lemma atWordBoundary_sameCase p p' s s' :
  option_Forall2 sameUnit p p' → sameIgnoringCase s s' →
  atWordBoundary p s = atWordBoundary p' s'.
Proof.
  intros Hp Hs. unfold atWordBoundary.
  by rewrite (isWordCharAt_sameUnit p p' Hp),
    (isWordCharAt_sameUnit _ _ (sameIgnoringCase_head s s' Hs)).
Qed.

Lemma classMatches_sameUnit members x y :
  sameUnit x y → classMatches true members x = classMatches true members y.
Proof.
  intros Hxy. unfold classMatches, unitMatches.
  unfold sameUnit in Hxy. by rewrite Hxy.
Qed.

Lemma repeatMatcher_sameCase members s s' :
  sameIgnoringCase s s' →
  ∀ min max p p' k k',
    option_Forall2 sameUnit p p' → alike k k' →
    option_Forall2 sameIgnoringCase
      (repeatMatcher true members min max p s k)
      (repeatMatcher true members min max p' s' k').
Proof.
  induction 1 as [|x y s s' Hxy Hs IH]; intros min max p p' k k' Hp Hk.
  - simpl. destruct min; [|constructor]. apply Hk; [done|constructor].
  - assert (option_Forall2 sameIgnoringCase
              (match min with O => k p (x :: s) | S _ => None end)
              (match min with O => k' p' (y :: s') | S _ => None end)) as Hstop.
    { destruct min; [|constructor]. apply Hk; [done|by constructor]. }
    simpl. rewrite (classMatches_sameUnit members x y Hxy).
    destruct (classMatches true members y && maxAllows max); [|done].
    pose proof (IH (pred min) (pred <$> max) (Some x) (Some y) k k'
                  ltac:(by constructor) Hk) as Hrec.
    destruct Hrec; [by constructor|done].
Qed.

Lemma matcher_sameCase r : ∀ p p' s s' k k',
  option_Forall2 sameUnit p p' → sameIgnoringCase s s' → alike k k' →
  option_Forall2 sameIgnoringCase (matcher true r p s k) (matcher true r p' s' k').
Proof.
  induction r as [|c|members| |r1 IH1 r2 IH2|r1 IH1|members min max];
    intros p p' s s' k k' Hp Hs Hk; simpl.
  - by apply Hk.
  - destruct Hs as [|x y s s' Hxy Hs]; [constructor|].
    unfold unitMatches. rewrite Hxy.
    destruct (_ =? _); [|constructor]. apply Hk; [by constructor|done].
  - destruct Hs as [|x y s s' Hxy Hs]; [constructor|].
    rewrite (classMatches_sameUnit members x y Hxy).
    destruct (classMatches true members y); [|constructor].
    apply Hk; [by constructor|done].
  - rewrite (atWordBoundary_sameCase p p' s s' Hp Hs).
    destruct (atWordBoundary p' s'); [|constructor]. by apply Hk.
  - apply IH1; [done..|]. intros q q' t t' Hq Ht. by apply IH2.
  - pose proof (IH1 p p' s s' k k' Hp Hs Hk) as Hrec.
    destruct Hrec; [by constructor|]. by apply Hk.
  - by apply repeatMatcher_sameCase.
Qed.

(** The leftmost match starts and ends at the same positions. *)
Lemma execFrom_sameCase r s s' :
  sameIgnoringCase s s' →
  ∀ p p', option_Forall2 sameUnit p p' →
    option_Forall2 (λ m m', sameIgnoringCase m.1 m'.1 ∧ sameIgnoringCase m.2 m'.2)
      (execFrom true r p s) (execFrom true r p' s').
Proof.
  assert (alike (λ _ rest, Some rest) (λ _ rest, Some rest)) as Hk.
  { intros q q' t t' _ Ht. by constructor. }
  induction 1 as [|x y s s' Hxy Hs IH]; intros p p' Hp; simpl.
  - pose proof (matcher_sameCase r p p' [] [] _ _ Hp ltac:(constructor) Hk) as Hm.
    fold (matchHere true r p []) in Hm. fold (matchHere true r p' []) in Hm.
    destruct Hm; constructor. split; [constructor|done].
  - pose proof (matcher_sameCase r p p' (x :: s) (y :: s') _ _ Hp
                  ltac:(by constructor) Hk) as Hm.
    fold (matchHere true r p (x :: s)) in Hm.
    fold (matchHere true r p' (y :: s')) in Hm.
    destruct Hm.
    + constructor. split; [by constructor|done].
    + apply IH. by constructor.
Qed.

Lemma matchedText_sameCase from from' rest rest' :
  sameIgnoringCase from from' → sameIgnoringCase rest rest' →
  sameIgnoringCase (matchedText from rest) (matchedText from' rest').
Proof.
  intros Hf Hr. unfold matchedText.
  rewrite <- (Forall2_length _ _ _ Hf), <- (Forall2_length _ _ _ Hr).
  by apply Forall2_take.
Qed.

Lemma matchAllFuel_sameCase r fuel : ∀ p p' s s',
  option_Forall2 sameUnit p p' → sameIgnoringCase s s' →
  Forall2 sameIgnoringCase
    (matchAllFuel true fuel r p s) (matchAllFuel true fuel r p' s').
Proof.
  induction fuel as [|fuel IH]; intros p p' s s' Hp Hs; simpl; [constructor|].
  destruct (execFrom_sameCase r s s' Hs p p' Hp) as [[from rest] [from' rest'] [Hf Hr]|];
    [|constructor].
  simpl in Hf, Hr.
  pose proof (matchedText_sameCase from from' rest rest' Hf Hr) as Hm.
  destruct Hm as [|x y m m' Hxy Hm].
  - constructor; [constructor|]. destruct Hr as [|a b rest rest' Hab Hr]; [constructor|].
    apply IH; [by constructor|done].
  - constructor; [by constructor|]. apply IH; [|done].
    apply (sameIgnoringCase_last (x :: m) (y :: m')). by constructor.
Qed.

Lemma RegExp_test_sameCase re text text' :
  ignoreCase re = true → sameIgnoringCase text text' →
  RegExp_test re text = RegExp_test re text'.
Proof.
  intros Hic Hs. unfold RegExp_test. rewrite Hic.
  destruct (execFrom_sameCase (pattern re) text text' Hs None None ltac:(constructor));
    [|done].
  rewrite !bool_decide_eq_true_2; by eauto.
Qed.

(** A unit that has the canonical form of a caseless unit is that unit. *)
Lemma caselessUnit_sameUnit x y : caselessUnit x = true → sameUnit x y → x = y.
Proof.
  intros Hx Hxy. unfold sameUnit in Hxy.
  pose proof (caselessUnit_simple x Hx) as Hsimple.
  rewrite (Canonicalize_simple x Hsimple) in Hxy.
  assert (asciiUpper x = x) as Hup.
  { unfold caselessUnit in Hx. unfold asciiUpper.
    apply andb_true_iff in Hx as [_ Hl%negb_true_iff]. by rewrite Hl. }
  rewrite Hup in Hxy.
  destruct (N.lt_ge_cases x 128) as [Hlt|Hge].
  - destruct (N.lt_ge_cases y 128) as [Hy|Hy].
    + rewrite (Canonicalize_simple y (simpleUnit_ascii y Hy)) in Hxy.
      rewrite <- Hup in Hxy. symmetry. by apply asciiUpper_caseless_inv.
    + pose proof (Canonicalize_nonascii true y Hy). lia.
  - symmetry. by apply Canonicalize_to_simple.
Qed.

Lemma caseless_sameIgnoringCase m m' :
  forallb caselessUnit m = true → sameIgnoringCase m m' → m = m'.
Proof.
  intros Hm Hs. induction Hs as [|x y m m' Hxy Hs IH]; [done|].
  simpl in Hm. apply andb_true_iff in Hm as [Hx Hm].
  f_equal; [by apply caselessUnit_sameUnit|by apply IH].
Qed.

Lemma symbolAmountMatches_sameCase text text' :
  sameIgnoringCase text text' →
  String_matchAll symbolAmountRegExp text = String_matchAll symbolAmountRegExp text'.
Proof.
  intros Hs.
  assert (Forall (λ m, forallb caselessUnit m = true)
            (String_matchAll symbolAmountRegExp text)) as Hcaseless.
  { apply Forall_forall. intros m Hm.
    apply elem_of_symbolAmountMatches in Hm as [Hm _].
    by apply symbolAmountText_caseless. }
  unfold String_matchAll in *. rewrite <- (Forall2_length _ _ _ Hs).
  simpl ignoreCase in *.
  pose proof (matchAllFuel_sameCase (pattern symbolAmountRegExp) (S (length text))
                None None text text' ltac:(constructor) Hs) as Hall.
  induction Hall as [|m m' ms ms' Hm Hms IH]; [done|].
  apply Forall_cons in Hcaseless as [Hc Hcs].
  f_equal; [by apply caseless_sameIgnoringCase|by apply IH].
Qed.

Lemma filter_Forall2 {A} (R : A → A → Prop) (f : A → bool) l l' :
  Forall2 R l l' →
  (∀ x y, R x y → f x = f y ∧ (f x = true → x = y)) →
  List.filter f l = List.filter f l'.
Proof.
  intros Hl Hf. induction Hl as [|x y l l' Hxy Hl IH]; [done|]. simpl.
  destruct (Hf x y Hxy) as [E1 E2]. rewrite <- E1.
  destruct (f x); [|done]. rewrite (E2 eq_refl). by f_equal.
Qed.

Lemma rawSymbolMatches_sameCase text text' :
  sameIgnoringCase text text' →
  String_matchAll rawSymbolRegExp text = String_matchAll rawSymbolRegExp text'.
Proof.
  intros Hs. rewrite !rawSymbolMatches_spec. f_equal.
  apply (filter_Forall2 (λ x y, Canonicalize true x = Canonicalize true y));
    [done|].
  intros x y Hxy.
  assert (∀ a b, sameUnit a b → classMatches false currencyUnits a = true → a = b)
    as Hsym.
  { intros a b Hab Ha%classMatches_exact.
    apply caselessUnit_sameUnit; [|done].
    by apply (forallb_elem caselessUnit currencyUnits). }
  split; [|by apply Hsym].
  destruct (classMatches false currencyUnits x) eqn:Hx.
  - by rewrite <- (Hsym x y Hxy Hx).
  - destruct (classMatches false currencyUnits y) eqn:Hy; [|done].
    assert (y = x) as ->; [|by rewrite Hx in Hy].
    apply Hsym; [|done]. unfold sameUnit. by rewrite Hxy.
Qed.

End LetterCase.

(** X16. The verdict does not depend on the letter case of the message: two
    texts whose code units have pairwise the same canonical form under the
    [i] flag get the same verdict, matched values included. *)
Theorem verdict_ignores_letter_case `{UnicodeCase} config detectors text text' :
  buildDetectors config = Some detectors →
  sameIgnoringCase text text' →
  detectContent text detectors config = detectContent text' detectors config.
Proof.
  intros Hbuild Hs. rewrite buildDetectors_total in Hbuild. injection Hbuild as <-.
  unfold detectContent.
  rewrite (symbolAmountMatches_sameCase text text' Hs),
    (rawSymbolMatches_sameCase text text' Hs).
  assert (∀ {A} (f : A → RegExp) (l : list A),
            Forall (λ a, ignoreCase (f a) = true) l →
            List.filter (λ a, RegExp_test (f a) text) l
            = List.filter (λ a, RegExp_test (f a) text') l) as Hfilter.
  { intros A f l Hl. induction Hl as [|a l Ha _ IH]; [done|]. simpl.
    by rewrite (RegExp_test_sameCase (f a) text text' Ha Hs), IH. }
  rewrite !(Hfilter _ _ _); [done|..];
    unfold compiledDetectors; simpl; apply Forall_fmap, Forall_true; done.
Qed.

Lemma verdict_ignores_letter_case_witness :
  let config := @withRules asciiCase [js "sell"] [] [js "usd"] in
  @detectContent asciiCase (js "SELL for 20 USD") (compiledDetectors config) config
  = @detectContent asciiCase (js "sell for 20 usd") (compiledDetectors config) config.
Proof.
  apply (@verdict_ignores_letter_case asciiCase).
  - apply buildDetectors_total.
  - repeat (constructor; [vm_compute; reflexivity|]). constructor.
Defined.

(** ** Worked examples *)

(** The round trip of the specification: the term [sell] is found in
    [I want to sell my card], and the exception pattern [sell my card]
    cancels the trigger. *)
Lemma sell_round_trip `{U : UnicodeCase} :
  let text := js "I want to sell my card" in
  let plain := withRules [js "sell"] [] [] in
  let excepted := withRules [js "sell"] [js "sell my card"] [] in
  matchedTerms (detectContent text (compiledDetectors plain) plain) = [js "sell"] ∧
  triggered (detectContent text (compiledDetectors excepted) excepted) = false.
Proof.
  cbv zeta. rewrite !(@detectContent_simple U) by done.
  split; vm_compute; reflexivity.
Qed.

(** A trigger on the day after the stored one: the counters restart. *)
Lemma metrics_rollover_example :
  let state :=
    {| cooldowns := ∅; modLogChannelIds := ∅;
       metrics := {| day := js "2024-05-01"; triggersToday := 5;
                     byChannel := [(js "7", 4); (js "8", 1)];
                     byRule := [(js "term:sell", 5)] |} |} in
  let verdict :=
    @detectContent asciiCase (js "Sell it, $5")
      (compiledDetectors (@defaultConfig asciiCase)) (@defaultConfig asciiCase) in
  metrics (@bumpMetrics asciiCase (js "2024-05-02") state
             (sampleMessage (Some (js "Sell it, $5"))) verdict)
  = {| day := js "2024-05-02"; triggersToday := 1;
       byChannel := [(js "7", 1)];
       byRule := [(js "term:sell", 1); (js "price:$5", 1); (js "price:$", 1)] |}.
Proof. vm_compute. reflexivity. Qed.

(** The outward calls for that message when the reply is rejected and the
    log channel is found by name: the warning, the channel listing, and the
    audit text with the status [failed] and the error. *)
Lemma pipeline_example :
  let w :=
    {| replyOutcome := Some (ErrorObject (js "Missing Permissions"));
       channelCache := λ _, None;
       fetchChannel := λ _, inr None;
       fetchAllChannels :=
         inr [Some {| gcId := js "9"; gcType := GuildText; gcName := js "Mod-Log" |}];
       sendOutcome := λ _, None |} in
  let config := @defaultConfig asciiCase in
  @onMessageCreate asciiCase w (js "2024-05-01") 1714564800000%Z
    (sampleMessage (Some (js "Sell it, $5"))) config (compiledDetectors config)
    (initialState (js "2024-05-01"))
  = (Returned tt,
     {| cooldowns := {[ js "42:7" := 1714564800000%Z ]};
        modLogChannelIds := {[ js "1" := js "9" ]};
        metrics := {| day := js "2024-05-01"; triggersToday := 1;
                      byChannel := [(js "7", 1)];
                      byRule := [(js "term:sell", 1); (js "price:$5", 1);
                                 (js "price:$", 1)] |} |},
     [ Reply (join NEWLINE
                [js "Please use the word " ++ [34] ++ js "rehome" ++ [34]
                 ++ js " instead.";
                 js "Please refrain from using prices in #chatter and send prices only in DMs."]);
       FetchAllChannels;
       Send (js "9")
         (join NEWLINE
            [js "**Rule Guardian Trigger**";
             js "User: <@42> (`user`)";
             js "Channel: <#7>";
             js "Timestamp: <t:1714564800:F>";
             js "Trigger type(s): word match, price pattern";
             js "Jump link: https://discord.com/channels/1/7/9";
             js "Warning status: failed";
             js "Daily trigger count: 1";
             js "Top channels today: <#7> (1)";
             js "Top rules today: term:sell (1), price:$5 (1), price:$ (1)";
             js "Matched: terms=[sell] | price_signals=[$5, $]";
             js "Warning error: Missing Permissions"]) ]).
Proof. vm_compute. reflexivity. Qed.
